(** * The stress metric of lectures/6-dimensional_reduction.ipynb

    The notebook measures every reduction it tries with one function,

<<
    from scipy.spatial.distance import pdist

    def stress(X_reduced, X):
        D_red = pdist(X_reduced)
        D_tot = pdist(X)
        numerator = np.sum((D_tot - D_red)**2)
        denom = np.sum(D_tot**2)
        return np.sqrt(numerator/denom)
>>

    and calls it as [stress(X_reduced, X)] throughout: the reduced data
    first, the original data second.

    The function is embedded once, generically in the scalar type of the
    arrays, and then read at two scalar types: IEEE binary64 (the dtype the
    notebook runs on), where it is evaluated on concrete data and reasoned
    about through the specification of the IEEE operations, and exact real
    arithmetic extended with the IEEE special values, on which the
    algebraic properties of the metric are proved.  Where the two part, by
    rounding or by overflow, is shown on data.  [pdist], [np.sum],
    [np.sqrt] and array arithmetic belong to scipy and numpy; they are
    embedded from their documented behaviour.

    The code around it is embedded the same way, further down: the
    pre-processing of the data, [show_image], the summary statistics
    [mean_mode], the cell that sorts the eigenpairs, and the retained
    variance. *)

From Stdlib Require Import List Arith ZArith Lia Bool Permutation Sorted.
From Stdlib Require Import Reals Lra Psatz.
From Stdlib Require Import Floats.
Import ListNotations.

(** ** Exceptions and results *)

(** The exception classes that matter here.  [ValueError] is what numpy
    raises when two operands cannot be broadcast together.  The other two
    are the error kinds of the metric's written contract; no statement of
    [stress] constructs them. *)
Inductive exn : Type :=
| ValueError
| InvalidInputError
| DegenerateInputError.

Inductive result (A : Type) : Type :=
| Return (a : A)
| Raise (e : exn).

Arguments Return {A} a.
Arguments Raise {A} e.

Definition bind {A B : Type} (r : result A) (k : A -> result B) : result B :=
  match r with
  | Return a => k a
  | Raise e => Raise e
  end.

Notation "x <- r ;; k" := (bind r (fun x => k))
  (at level 61, r at next level, right associativity).

(** ** Scalars *)

(** The operations [stress] and the library routines it calls perform on
    array elements. *)
Class Scalar (A : Type) : Type := {
  fzero : A;
  fadd : A -> A -> A;
  fsub : A -> A -> A;
  fmul : A -> A -> A;
  fdiv : A -> A -> A;
  fsqrt : A -> A
}.

(** A 2-D array of shape (N, D) is the list of its N rows, a 1-D array the
    list of its elements; the empty list of rows is an array of shape
    (0, D).  Every row of an ndarray has the same length; on rows of
    different lengths [map2] stops at the shorter one. *)
Fixpoint map2 {A : Type} (f : A -> A -> A) (u v : list A) : list A :=
  match u, v with
  | a :: u', b :: v' => f a b :: map2 f u' v'
  | _, _ => []
  end.

Section Generic.

Context {A : Type} `{Scalar A}.

(** scipy's squared Euclidean distance of two rows:
    [s = 0; for k: d = u[k] - v[k]; s += d*d]. *)
Definition sqeuclidean (u v : list A) : A :=
  fold_left (fun s d => fadd s (fmul d d)) (map2 fsub u v) fzero.

Definition euclidean (u v : list A) : A := fsqrt (sqeuclidean u v).

(** [pdist(X)] with the default metric: the condensed distance vector, the
    distances of the pairs (i, j), i < j, row i before row i+1 and j
    increasing within a row.  Fewer than two points have no pair, and the
    vector is empty. *)
Fixpoint pdist (X : list (list A)) : list A :=
  match X with
  | [] => []
  | u :: rest => map (euclidean u) rest ++ pdist rest
  end.

(** [a - b] on 1-D arrays, with numpy's broadcasting: equal lengths go
    element by element, a length-1 operand is stretched over the other, and
    anything else raises. *)
Definition np_subtract (a b : list A) : result (list A) :=
  if length a =? length b then Return (map2 fsub a b)
  else match a, b with
       | [x], _ => Return (map (fun y => fsub x y) b)
       | _, [y] => Return (map (fun x => fsub x y) a)
       | _, _ => Raise ValueError
       end.

(** [a ** 2], element by element. *)
Definition np_square (a : list A) : list A := map (fun x => fmul x x) a.

(** [np.sum(a)]: the elements added up, starting from zero.  numpy adds a
    short array (fewer than 8 elements) front to back and a long one in
    blocks; on exact scalars the order makes no difference
    ([np_sum_fin_perm] below). *)
Definition np_sum (a : list A) : A := fold_left fadd a fzero.

(** [n / d] on scalars; a zero divisor is a warning in numpy, not an
    exception, and the quotient is whatever the scalar type makes of it. *)
Definition np_divide (n d : A) : A := fdiv n d.

Definition np_sqrt (x : A) : A := fsqrt x.

(** The function of the notebook, statement by statement.  The only step
    that can raise is the subtraction. *)
Definition stress (X_reduced X : list (list A)) : result A :=
  let D_red := pdist X_reduced in
  let D_tot := pdist X in
  diff <- np_subtract D_tot D_red ;;
  let numerator := np_sum (np_square diff) in
  let denom := np_sum (np_square D_tot) in
  Return (np_sqrt (np_divide numerator denom)).

End Generic.

(** ** Binary64 scalars *)

Module Binary64.

#[export] Instance float_scalar : Scalar float := {
  fzero := 0%float;
  fadd := PrimFloat.add;
  fsub := PrimFloat.sub;
  fmul := PrimFloat.mul;
  fdiv := PrimFloat.div;
  fsqrt := PrimFloat.sqrt
}.

Local Open Scope float_scope.

(** The datasets of the worked scenario: a 3-4-5 triangle and its collapse
    onto one point. *)
Definition triangle : list (list float) := [[0; 0]; [0; 3]; [4; 0]].
Definition collapsed : list (list float) := [[0; 0]; [0; 0]; [0; 0]].

(** [k] points on a line, at 0, 1, ..., k-1. *)
Fixpoint line_from (x : float) (k : nat) : list (list float) :=
  match k with
  | O => []
  | S k' => [x] :: line_from (x + 1) k'
  end.

Definition line (k : nat) : list (list float) := line_from 0 k.

End Binary64.

(** ** Exact scalars *)

(** Real numbers with the IEEE special values: the arithmetic of binary64
    without rounding, overflow or the sign of zero.  A finite operation is
    the operation of [R]; infinities and NaN arise and propagate as IEEE 754
    prescribes, zero counting as positive where a sign is needed. *)
Module Ideal.

Local Open Scope R_scope.

Inductive xreal : Type :=
| Fin (r : R)
| PInf
| NInf
| NaN.

Definition xopp (x : xreal) : xreal :=
  match x with
  | Fin a => Fin (- a)
  | PInf => NInf
  | NInf => PInf
  | NaN => NaN
  end.

Definition xadd (x y : xreal) : xreal :=
  match x, y with
  | NaN, _ | _, NaN => NaN
  | Fin a, Fin b => Fin (a + b)
  | PInf, NInf | NInf, PInf => NaN
  | PInf, _ | _, PInf => PInf
  | NInf, _ | _, NInf => NInf
  end.

Definition xsub (x y : xreal) : xreal :=
  match x, y with
  | Fin a, Fin b => Fin (a - b)
  | _, _ => xadd x (xopp y)
  end.

(** An infinity times (or over) a finite [a]: the sign of [a] decides, and
    [on_zero] is the outcome at [a = 0]. *)
Definition by_sign (a : R) (pos neg on_zero : xreal) : xreal :=
  match total_order_T a 0 with
  | inleft (left _) => neg
  | inleft (right _) => on_zero
  | inright _ => pos
  end.

Definition xmul (x y : xreal) : xreal :=
  match x, y with
  | NaN, _ | _, NaN => NaN
  | Fin a, Fin b => Fin (a * b)
  | Fin a, PInf | PInf, Fin a => by_sign a PInf NInf NaN
  | Fin a, NInf | NInf, Fin a => by_sign a NInf PInf NaN
  | PInf, PInf | NInf, NInf => PInf
  | PInf, NInf | NInf, PInf => NInf
  end.

Definition xdiv (x y : xreal) : xreal :=
  match x, y with
  | NaN, _ | _, NaN => NaN
  | Fin a, Fin b =>
      if Req_dec_T b 0 then by_sign a PInf NInf NaN else Fin (a / b)
  | Fin _, PInf | Fin _, NInf => Fin 0
  | PInf, Fin b => by_sign b PInf NInf PInf
  | NInf, Fin b => by_sign b NInf PInf NInf
  | _, _ => NaN
  end.

Definition xsqrt (x : xreal) : xreal :=
  match x with
  | Fin a => if Rlt_dec a 0 then NaN else Fin (R_sqrt.sqrt a)
  | PInf => PInf
  | NInf | NaN => NaN
  end.

#[export] Instance xreal_scalar : Scalar xreal := {
  fzero := Fin 0;
  fadd := xadd;
  fsub := xsub;
  fmul := xmul;
  fdiv := xdiv;
  fsqrt := xsqrt
}.

(** A dataset of finite coordinates, as an array of exact scalars. *)
Definition inj (X : list (list R)) : list (list xreal) := map (map Fin) X.

(** *** The metric in the words of its definition *)

Definition Rsum (l : list R) : R := fold_right Rplus 0 l.

Definition sq (x : R) : R := x * x.

(** The Euclidean norm of [u - v]. *)
Definition l2 (u v : list R) : R :=
  R_sqrt.sqrt (Rsum (map sq (map2 Rminus u v))).

(** d_ij: the distance between points [i] and [j] of a dataset. *)
Definition dist (X : list (list R)) (i j : nat) : R :=
  l2 (nth i X []) (nth j X []).

(** The sum over the unordered pairs of [N] points: i from 0 to N-1 and,
    for each i, j from i+1 to N-1. *)
Definition pair_sum (N : nat) (f : nat -> nat -> R) : R :=
  Rsum (map (fun i => Rsum (map (f i) (seq (S i) (N - S i)))) (seq 0 N)).

(** The same pairs as one list, in the order of the nested sum. *)
Definition pairs (N : nat) : list (nat * nat) :=
  flat_map (fun i => map (pair i) (seq (S i) (N - S i))) (seq 0 N).

(** The pairwise distances of a dataset, over the reals. *)
Fixpoint distances (X : list (list R)) : list R :=
  match X with
  | [] => []
  | u :: rest => map (l2 u) rest ++ distances rest
  end.

(** A map of D-dimensional space into itself that keeps every distance:
    rotations, reflections, translations and what they compose to. *)
Definition isometry (D : nat) (T : list R -> list R) : Prop :=
  forall u v, length u = D -> length v = D ->
    length (T u) = D /\ l2 (T u) (T v) = l2 u v.

Definition translate (t u : list R) : list R := map2 Rplus u t.

Definition rotate2 (theta : R) (u : list R) : list R :=
  match u with
  | [x; y] => [cos theta * x - sin theta * y; sin theta * x + cos theta * y]
  | _ => u
  end.

Definition reflect2 (u : list R) : list R :=
  match u with
  | [x; y] => [x; - y]
  | _ => u
  end.

(** The datasets of the worked scenario: a 3-4-5 triangle and its collapse
    onto one point. *)
Definition triangle : list (list R) := [[0; 0]; [0; 3]; [4; 0]].
Definition collapsed : list (list R) := [[0; 0]; [0; 0]; [0; 0]].

End Ideal.

(** ** Moves of a dataset *)

Module Moves.

Local Open Scope R_scope.

(** Every coordinate of every point multiplied by [c]. *)
Definition scale (c : R) (X : list (list R)) : list (list R) :=
  map (map (Rmult c)) X.

(** [f] over the unordered pairs of a list, in the order of [pdist]. *)
Fixpoint pairwise {B : Type} (f : B -> B -> R) (Z : list B) : list R :=
  match Z with
  | [] => []
  | z :: rest => map (f z) rest ++ pairwise f rest
  end.

End Moves.

(** ** Poisoned data *)

(** A dataset is tainted by [bad] when one of its points has [bad] among
    its coordinates; the rows have one length, as those of an ndarray. *)
Definition tainted {A : Type} (bad : A) (X : list (list A)) : Prop :=
  exists u, In u X /\ In bad u /\ Forall (fun v => length v = length u) X.

(** ** The summary statistics of the notebook *)

(** The scalar for a count of elements: what numpy divides a sum by. *)
Class Count (A : Type) : Type := {
  of_count : nat -> A
}.

#[export] Instance float_count : Count float := {
  of_count n := PrimFloat.of_uint63 (Uint63.of_Z (Z.of_nat n))
}.

#[export] Instance xreal_count : Count Ideal.xreal := {
  of_count n := Ideal.Fin (INR n)
}.

Section Summary.

Context {A : Type} `{Scalar A} `{Count A}.

(** [a.mean()] over one row: the sum over the count.  An empty row is a
    warning in numpy and zero over zero in the result. *)
Definition np_mean (a : list A) : A :=
  np_divide (np_sum a) (of_count (length a)).

(** [a.std()] over one row, as numpy computes it: the mean is subtracted,
    the differences are squared and summed, the sum is divided by the count
    (no correction of the degrees of freedom) and the root is taken. *)
Definition np_std (a : list A) : A :=
  let arrmean := np_mean a in
  let x := map (fun v => fsub v arrmean) a in
  np_sqrt (np_divide (np_sum (np_square x)) (of_count (length a))).

(** [np.column_stack((a, b))] on two 1-D arrays of one length. *)
Definition column_stack (a b : list A) : list (list A) :=
  map (fun p => [fst p; snd p]) (combine a b).

Definition mean_mode (X : list (list A)) : list (list A) :=
  let Xmean := map np_mean X in
  let Xstd := map np_std X in
  let X_ms := column_stack Xmean Xstd in
  X_ms.

End Summary.

(** The statistics in the words of their definitions. *)
Module Stats.

Local Open Scope R_scope.

Definition mean (a : list R) : R := Ideal.Rsum a / INR (length a).

Definition std (a : list R) : R :=
  R_sqrt.sqrt
    (Ideal.Rsum (map (fun x => Ideal.sq (x - mean a)) a) / INR (length a)).

End Stats.

(** ** The cell that sorts the eigenpairs *)

(** What the cells below can fail with: the unpacking of
    [zip( *vals_ids)] when there is nothing to unpack (a ValueError in
    Python), an index out of bounds, a reshape into a shape of another
    size (a ValueError again), and an integer index that does not fit
    numpy's index type (Python's OverflowError at 2 ^ 63; the ways numpy
    words this refusal are not told apart). *)
Inductive failure : Type :=
| UnpackError
| IndexError
| ShapeError
| IndexOverflow.

Inductive outcome (B : Type) : Type :=
| Ok (b : B)
| Fails (f : failure).

Arguments Ok {B} b.
Arguments Fails {B} f.

(** [a[idxs]] with a list of indices, none negative here. *)
Fixpoint fancy_index {B : Type} (a : list B) (idxs : list nat)
  : outcome (list B) :=
  match idxs with
  | [] => Ok []
  | i :: rest =>
      match nth_error a i with
      | None => Fails IndexError
      | Some x =>
          match fancy_index a rest with
          | Ok l => Ok (x :: l)
          | Fails f => Fails f
          end
      end
  end.

(** What the cell leaves behind: [eig_vals] and [eig_idxs] as reassigned,
    and the two arrays it builds from them. *)
Record eig_sorted (V W : Type) : Type := {
  eig_vals_desc : list V;
  eig_idxs_desc : list nat;
  eig_vals_sorted : list V;
  eig_vecs_sorted : list W
}.

Arguments eig_vals_desc {V W} _.
Arguments eig_idxs_desc {V W} _.
Arguments eig_vals_sorted {V W} _.
Arguments eig_vecs_sorted {V W} _.

Section EigSort.

(** Eigenvalues with their comparisons [<] and [==], and eigenvectors (the
    rows of [eig_vecs] after the transposition). *)
Context {V W : Type}.
Variable vltb : V -> V -> bool.
Variable veqb : V -> V -> bool.

(** Python's [<] on the tuples (value, index): the first items that are
    not equal decide. *)
Definition tuple_lt (p q : V * nat) : bool :=
  if veqb (fst p) (fst q) then (snd p <? snd q)%nat
  else vltb (fst p) (fst q).

(** One step of the insertion sort that [list.sort()] runs on short lists:
    [p] goes in front of the first entry it is smaller than. *)
Fixpoint insert_sorted (p : V * nat) (l : list (V * nat)) : list (V * nat) :=
  match l with
  | [] => [p]
  | q :: l' => if tuple_lt p q then p :: q :: l' else q :: insert_sorted p l'
  end.

(** [l.sort()]: the entries inserted one after the other, left to right.
    ([sorted_unique] below: under a total order any sort returns this
    list, whichever way it merges runs.) *)
Definition list_sort (l : list (V * nat)) : list (V * nat) :=
  fold_left (fun acc p => insert_sorted p acc) l [].

Definition sort_eig (eig_vals : list V) (eig_vecs : list W)
  : outcome (eig_sorted V W) :=
  let eig_idxs := seq 0 (length eig_vals) in
  let vals_ids := combine eig_vals eig_idxs in
  let vals_ids := list_sort vals_ids in
  let vals_ids := rev vals_ids in
  match vals_ids with
  | [] => Fails UnpackError
  | _ :: _ =>
      let eig_vals := map fst vals_ids in
      let eig_idxs := map snd vals_ids in
      match fancy_index eig_vals eig_idxs with
      | Fails f => Fails f
      | Ok vals_sorted =>
          match fancy_index eig_vecs eig_idxs with
          | Fails f => Fails f
          | Ok vecs_sorted =>
              Ok {| eig_vals_desc := eig_vals;
                    eig_idxs_desc := eig_idxs;
                    eig_vals_sorted := vals_sorted;
                    eig_vecs_sorted := vecs_sorted |}
          end
      end
  end.

End EigSort.

(** Descending order: no entry is smaller than a later one. *)
Definition descending {V : Type} (vltb : V -> V -> bool) (l : list V) : Prop :=
  StronglySorted (fun a b => vltb a b = false) l.

(** ** The retained variance *)

Section Retained.

Context {A : Type} `{Scalar A}.

(** Python's built-in [sum]: from 0, front to back. *)
Definition py_sum (a : list A) : A := fold_left fadd a fzero.

(** [sum(eig_vals_sorted[:k])/sum(eig_vals_sorted)]; a slice that asks for
    more than there is takes what there is. *)
Definition retained_variance (k : nat) (eig_vals_sorted : list A) : A :=
  fdiv (py_sum (firstn k eig_vals_sorted)) (py_sum eig_vals_sorted).

End Retained.

(** ** The min-max pre-processing *)

(** [np.minimum] and [np.maximum] on scalars. *)
Class Extrema (A : Type) : Type := {
  fmin : A -> A -> A;
  fmax : A -> A -> A
}.

(** numpy keeps the first operand when it is the smaller (larger) one or a
    NaN, and takes the second otherwise. *)
#[export] Instance float_extrema : Extrema float := {
  fmin a b := if (PrimFloat.ltb a b || PrimFloat.is_nan a)%bool then a else b;
  fmax a b := if (PrimFloat.leb b a || PrimFloat.is_nan a)%bool then a else b
}.

Definition xmin (x y : Ideal.xreal) : Ideal.xreal :=
  match x, y with
  | Ideal.NaN, _ | _, Ideal.NaN => Ideal.NaN
  | Ideal.NInf, _ | _, Ideal.NInf => Ideal.NInf
  | Ideal.PInf, z | z, Ideal.PInf => z
  | Ideal.Fin a, Ideal.Fin b => Ideal.Fin (Rmin a b)
  end.

Definition xmax (x y : Ideal.xreal) : Ideal.xreal :=
  match x, y with
  | Ideal.NaN, _ | _, Ideal.NaN => Ideal.NaN
  | Ideal.PInf, _ | _, Ideal.PInf => Ideal.PInf
  | Ideal.NInf, z | z, Ideal.NInf => z
  | Ideal.Fin a, Ideal.Fin b => Ideal.Fin (Rmax a b)
  end.

#[export] Instance xreal_extrema : Extrema Ideal.xreal := {
  fmin := xmin;
  fmax := xmax
}.

Section Preprocess.

Context {A : Type} `{Scalar A} `{Extrema A}.

(** A reduction without an identity: a zero-size array is a ValueError. *)
Definition reduce (op : A -> A -> A) (a : list A) : result A :=
  match a with
  | [] => Raise ValueError
  | x :: l => Return (fold_left op l x)
  end.

(** [X.min()] and [X.max()] over all entries. *)
Definition np_min (X : list (list A)) : result A := reduce fmin (concat X).
Definition np_max (X : list (list A)) : result A := reduce fmax (concat X).

(** [X.min(axis=0)]: the minimum of every column, row after row. *)
Definition np_min_axis0 (X : list (list A)) : result (list A) :=
  match X with
  | [] => Raise ValueError
  | r :: rest => Return (fold_left (map2 fmin) rest r)
  end.

(** [X = (X_orig - X_orig.min(axis=0))/(X_orig.max() - X_orig.min())]:
    the column minima are subtracted from every row, and every entry is
    divided by the spread of the whole array. *)
Definition preprocess (X_orig : list (list A)) : result (list (list A)) :=
  mins <- np_min_axis0 X_orig ;;
  let shifted := map (fun row => map2 fsub row mins) X_orig in
  hi <- np_max X_orig ;;
  lo <- np_min X_orig ;;
  let spread := fsub hi lo in
  Return (map (map (fun x => fdiv x spread)) shifted).

End Preprocess.

(** ** Showing a digit *)

Section ShowImage.

Context {A : Type}.

(** numpy's index type [npy_intp] is a signed 64-bit integer. *)
Definition fits_intp (n : Z) : bool :=
  ((- 2 ^ 63 <=? n) && (n <? 2 ^ 63))%Z.

(** [a[n]] for a Python integer [n].  numpy converts [n] to its index type
    before it looks at the array, and an integer that does not fit is
    refused whatever the array holds.  After that a negative index counts
    from the end, and an index outside [-N, N) is an IndexError. *)
Definition py_index {B : Type} (a : list B) (n : Z) : outcome B :=
  let N := Z.of_nat (length a) in
  if negb (fits_intp n) then Fails IndexOverflow
  else if ((n <? - N) || (N <=? n))%Z then Fails IndexError
  else
    match nth_error a (Z.to_nat (if (n <? 0)%Z then (n + N)%Z else n)) with
    | Some x => Ok x
    | None => Fails IndexError
    end.

(** [rows] consecutive runs of [cols] entries. *)
Fixpoint chunks (cols rows : nat) (a : list A) : list (list A) :=
  match rows with
  | O => []
  | S rows' => firstn cols a :: chunks cols rows' (skipn cols a)
  end.

(** [a.reshape(rows, cols)] on a 1-D array: row after row, if the sizes
    agree. *)
Definition reshape (rows cols : nat) (a : list A) : outcome (list (list A)) :=
  if length a =? rows * cols then Ok (chunks cols rows a)
  else Fails ShapeError.

(** [show_image(digit_data, n)], as far as the image goes that is handed
    to [imshow]. *)
Definition show_image (digit_data : list (list A)) (n : Z)
  : outcome (list (list A)) :=
  match py_index digit_data n with
  | Fails f => Fails f
  | Ok row =>
      match reshape 8 8 row with
      | Fails f => Fails f
      | Ok img => Ok img
      end
  end.

End ShowImage.

(** ** Doubles as real numbers, and data that shows the rounding *)

Module Rounding.

(** The real number a finite double stands for, [m] times a power of two
    with its sign.  The zeros stand for 0; infinities and NaN stand for no
    real number and are sent to 0 as well. *)
Definition to_R (x : float) : R :=
  match Prim2SF x with
  | S754_finite s m e =>
      (IZR (if s then Z.neg m else Z.pos m) * powerRZ 2 e)%R
  | _ => 0%R
  end.

Definition reals (X : list (list float)) : list (list R) :=
  map (map to_R) X.

(** A third of a turn about the diagonal of 3-dimensional space: every
    coordinate moves one place on.  No arithmetic is involved, so on doubles
    the move is exact. *)
Definition rot3 {B : Type} (u : list B) : list B :=
  match u with
  | [x; y; z] => [z; x; y]
  | _ => u
  end.

Local Open Scope float_scope.

(** Two points on a line, [2 ^ 600] apart: the square of their distance is
    beyond the largest double. *)
Definition far_pair : list (list float) := [[0]; [0x1p600]].

Definition origin_pair : list (list float) := [[0]; [0]].

Definition unit_pair : list (list float) := [[0]; [1]].

(** Two points in space, the squares of the two large coordinates beyond
    53 bits: the sum of the squares rounds differently in a different
    order. *)
Definition slanted_pair : list (list float) :=
  [[0; 0; 0]; [872415233; 662700033; 19]].

(** The same with the far point of [far_pair]. *)
Definition far_slanted_pair : list (list float) :=
  [[0; 0; 0]; [0x1p600; 1; 0]].

End Rounding.

(** * Properties *)

(** ** Shapes and failures, for any scalar type *)

Section Shapes.

Context {A : Type} `{Scalar A}.

Lemma map2_length (f : A -> A -> A) (u v : list A) :
  length (map2 f u v) = Nat.min (length u) (length v).
Proof.
  revert v; induction u as [|a u IH]; intros [|b v]; simpl; auto.
Qed.

(** A dataset of [S n] points has [n] more pairs than one of [n] points. *)
Lemma pdist_length_cons (u : list A) (rest : list (list A)) :
  length (pdist (u :: rest)) = length rest + length (pdist rest).
Proof. simpl. now rewrite length_app, length_map. Qed.

Lemma pdist_length_mono (X Y : list (list A)) :
  length X <= length Y -> length (pdist X) <= length (pdist Y).
Proof.
  revert X; induction Y as [|v Y IH]; intros X HXY.
  - destruct X; simpl in *; [lia | lia].
  - destruct X as [|u X].
    + simpl; lia.
    + rewrite !pdist_length_cons. simpl in HXY.
      assert (length (pdist X) <= length (pdist Y)) by (apply IH; lia).
      lia.
Qed.

Lemma pdist_length_lt (X Y : list (list A)) :
  length X < length Y -> 2 <= length Y ->
  length (pdist X) < length (pdist Y).
Proof.
  intros Hlt HY.
  destruct Y as [|v Y]; [simpl in HY; lia|].
  rewrite pdist_length_cons.
  assert (length (pdist X) <= length (pdist Y))
    by (apply pdist_length_mono; simpl in Hlt; lia).
  simpl in HY. lia.
Qed.

Lemma pdist_length_eq (X Y : list (list A)) :
  length X = length Y -> length (pdist X) = length (pdist Y).
Proof.
  intros E. apply Nat.le_antisymm; apply pdist_length_mono; lia.
Qed.

Lemma pdist_length_small (X : list (list A)) :
  length X < 2 -> pdist X = [].
Proof.
  destruct X as [|u [|v X]]; simpl; intros; auto; lia.
Qed.

(** The two distance vectors have the same length exactly when the point
    counts agree or neither dataset has a pair. *)
Lemma pdist_length_same_iff (X Y : list (list A)) :
  length (pdist X) = length (pdist Y) <->
  length X = length Y \/ (length X < 2 /\ length Y < 2).
Proof.
  split.
  - intros E.
    destruct (Nat.lt_trichotomy (length X) (length Y)) as [L|[L|L]]; auto.
    + destruct (le_lt_dec 2 (length Y)) as [G|G]; [|right; lia].
      pose proof (pdist_length_lt X Y L G). lia.
    + destruct (le_lt_dec 2 (length X)) as [G|G]; [|right; lia].
      pose proof (pdist_length_lt Y X L G). lia.
  - intros [E|[LX LY]].
    + now apply pdist_length_eq.
    + now rewrite (pdist_length_small X), (pdist_length_small Y).
Qed.

(** One distance means two points. *)
Lemma pdist_length_one_iff (X : list (list A)) :
  length (pdist X) = 1 <-> length X = 2.
Proof.
  destruct X as [|u [|v [|w X]]]; simpl; split; intros; lia.
Qed.

Lemma np_subtract_raises (a b : list A) (e : exn) :
  np_subtract a b = Raise e <->
  e = ValueError /\ length a <> length b /\ length a <> 1 /\ length b <> 1.
Proof.
  unfold np_subtract.
  destruct (Nat.eqb_spec (length a) (length b)) as [E|E].
  - split; [discriminate | intros (_ & N & _); contradiction].
  - destruct a as [|x [|x' a]]; destruct b as [|y [|y' b]]; simpl in *;
      split; intros Hr;
      try discriminate; try lia;
      try (destruct Hr as (_ & _ & H1 & H2); lia);
      try (inversion Hr; subst; repeat split; lia).
Qed.

Lemma stress_raises_subtract (X_reduced X : list (list A)) (e : exn) :
  stress X_reduced X = Raise e <->
  np_subtract (pdist X) (pdist X_reduced) = Raise e.
Proof.
  unfold stress.
  destruct (np_subtract (pdist X) (pdist X_reduced)); simpl;
    split; intros E; try discriminate; inversion E; reflexivity.
Qed.

End Shapes.

(** ** The exact reading of the code *)

Section Exact.

Import Ideal.
Local Open Scope R_scope.

Lemma Rsum_app (a b : list R) : Rsum (a ++ b) = Rsum a + Rsum b.
Proof.
  induction a as [|x a IH]; simpl; [lra | rewrite IH; lra].
Qed.

Lemma Rsum_sq_nonneg (l : list R) : 0 <= Rsum (map sq l).
Proof.
  induction l as [|x l IH]; simpl; [lra|].
  unfold sq at 1. nra.
Qed.

Lemma Rsum_le (B : Type) (f g : B -> R) (l : list B) :
  (forall x, In x l -> f x <= g x) -> Rsum (map f l) <= Rsum (map g l).
Proof.
  induction l as [|x l IH]; simpl; intros Hfg; [lra|].
  assert (f x <= g x) by (apply Hfg; now left).
  assert (Rsum (map f l) <= Rsum (map g l)) by (apply IH; intros; apply Hfg; now right).
  lra.
Qed.

Lemma Rsum_ext (B : Type) (f g : B -> R) (l : list B) :
  (forall x, In x l -> f x = g x) -> Rsum (map f l) = Rsum (map g l).
Proof.
  intros Hfg. f_equal. apply map_ext_in. exact Hfg.
Qed.

(** The running sum of [np.sum] stays finite on finite elements. *)
Lemma fold_xadd_fin (l : list R) (a : R) :
  fold_left fadd (map Fin l) (Fin a) = Fin (a + Rsum l).
Proof.
  revert a; induction l as [|x l IH]; intros a; simpl.
  - f_equal; lra.
  - rewrite IH. f_equal; lra.
Qed.

Lemma np_sum_fin (l : list R) : np_sum (map Fin l) = Fin (Rsum l).
Proof.
  unfold np_sum. simpl fzero. rewrite fold_xadd_fin. f_equal; lra.
Qed.

(** The order of the summands is immaterial to an exact [np.sum]. *)
Lemma np_sum_fin_perm (l l' : list R) :
  Permutation l l' -> np_sum (map Fin l) = np_sum (map Fin l').
Proof.
  intros P. rewrite !np_sum_fin. f_equal.
  induction P as [|x l l' P IH|x y l|l l' l'' P1 IH1 P2 IH2]; simpl;
    [reflexivity | rewrite IH; reflexivity | lra | congruence].
Qed.

Lemma map2_fsub_fin (u v : list R) :
  map2 fsub (map Fin u) (map Fin v) = map Fin (map2 Rminus u v).
Proof.
  revert v; induction u as [|a u IH]; intros [|b v]; simpl; auto.
  now rewrite IH.
Qed.

Lemma np_square_fin (l : list R) :
  np_square (map Fin l) = map Fin (map sq l).
Proof.
  unfold np_square. rewrite !map_map. reflexivity.
Qed.

Lemma fold_sqacc_fin (l : list R) (a : R) :
  fold_left (fun s d => fadd s (fmul d d)) (map Fin l) (Fin a)
  = Fin (a + Rsum (map sq l)).
Proof.
  revert a; induction l as [|x l IH]; intros a; simpl.
  - f_equal; lra.
  - rewrite IH. f_equal. unfold sq at 2. lra.
Qed.

Lemma sqeuclidean_fin (u v : list R) :
  sqeuclidean (map Fin u) (map Fin v) = Fin (Rsum (map sq (map2 Rminus u v))).
Proof.
  unfold sqeuclidean. rewrite map2_fsub_fin. simpl fzero.
  rewrite fold_sqacc_fin. f_equal; lra.
Qed.

Lemma xsqrt_fin (a : R) : 0 <= a -> fsqrt (Fin a) = Fin (R_sqrt.sqrt a).
Proof.
  intros Ha. simpl. destruct (Rlt_dec a 0); [lra | reflexivity].
Qed.

Lemma euclidean_fin (u v : list R) :
  euclidean (map Fin u) (map Fin v) = Fin (l2 u v).
Proof.
  unfold euclidean. rewrite sqeuclidean_fin.
  apply xsqrt_fin, Rsum_sq_nonneg.
Qed.

(** On finite coordinates [pdist] returns the finite Euclidean distances. *)
Lemma pdist_fin (X : list (list R)) :
  pdist (inj X) = map Fin (distances X).
Proof.
  induction X as [|u X IH]; simpl; [reflexivity|].
  fold (inj X). rewrite IH, map_app. f_equal.
  unfold inj. rewrite !map_map. apply map_ext. intros v. apply euclidean_fin.
Qed.

Lemma distances_length (X : list (list R)) :
  length (distances X) = length (pdist (inj X)).
Proof. now rewrite pdist_fin, length_map. Qed.

(** With as many reduced distances as original ones, the subtraction goes
    element by element and the sums are finite: what is left to the scalar
    type is one division and one square root. *)
Lemma stress_fin (X_reduced X : list (list R)) :
  length X_reduced = length X ->
  stress (inj X_reduced) (inj X)
  = Return (fsqrt (fdiv
      (Fin (Rsum (map sq (map2 Rminus (distances X) (distances X_reduced)))))
      (Fin (Rsum (map sq (distances X)))))).
Proof.
  intros E. unfold stress, np_subtract.
  assert (L : length (pdist (inj X)) = length (pdist (inj X_reduced))).
  { apply pdist_length_eq. unfold inj. now rewrite !length_map. }
  apply Nat.eqb_eq in L. rewrite L. simpl bind.
  rewrite !pdist_fin, map2_fsub_fin, !np_square_fin, !np_sum_fin.
  reflexivity.
Qed.

(** *** From the condensed vector to the sum over pairs *)

Lemma map_nth_seq (B : Type) (g : list R -> B) (l : list (list R)) :
  map (fun j => g (nth j l [])) (seq 0 (length l)) = map g l.
Proof.
  induction l as [|x l IH]; simpl; [reflexivity|].
  f_equal. rewrite <- seq_shift, map_map. exact IH.
Qed.

Lemma pairs_S (n : nat) :
  pairs (S n)
  = map (pair 0%nat) (seq 1 n)
    ++ map (fun p => (S (fst p), S (snd p))) (pairs n).
Proof.
  unfold pairs. simpl seq. simpl flat_map. rewrite Nat.sub_0_r. f_equal.
  rewrite <- seq_shift, !flat_map_concat_map, concat_map, !map_map.
  f_equal. apply map_ext. intros i.
  rewrite map_map. simpl.
  rewrite <- seq_shift, map_map. reflexivity.
Qed.

(** [distances] lists d_ij in the order of [pairs]. *)
Lemma distances_pairs (X : list (list R)) :
  distances X = map (fun p => dist X (fst p) (snd p)) (pairs (length X)).
Proof.
  induction X as [|u X IH]; [reflexivity|].
  simpl distances. simpl length. rewrite pairs_S, map_app, !map_map. f_equal.
  - rewrite <- seq_shift, map_map. simpl. unfold dist. simpl.
    symmetry. apply (map_nth_seq R (l2 u)).
  - rewrite IH. apply map_ext. intros [i j]. reflexivity.
Qed.

Lemma Rsum_pairs (N : nat) (f : nat -> nat -> R) :
  Rsum (map (fun p => f (fst p) (snd p)) (pairs N)) = pair_sum N f.
Proof.
  unfold pairs, pair_sum. induction (seq 0 N) as [|i l IH]; simpl; [reflexivity|].
  rewrite map_app, Rsum_app, IH, map_map. reflexivity.
Qed.

Lemma map2_map (B : Type) (g : R -> R -> R) (f1 f2 : B -> R) (l : list B) :
  map2 g (map f1 l) (map f2 l) = map (fun x => g (f1 x) (f2 x)) l.
Proof.
  induction l as [|x l IH]; simpl; [reflexivity | now rewrite IH].
Qed.

(** The denominator of the code is the sum of d_ij^2 over the pairs. *)
Lemma denom_pair_sum (X : list (list R)) :
  Rsum (map sq (distances X))
  = pair_sum (length X) (fun i j => sq (dist X i j)).
Proof.
  rewrite distances_pairs, map_map.
  apply (Rsum_pairs (length X) (fun i j => sq (dist X i j))).
Qed.

(** The numerator of the code is the sum of (d_ij - e_ij)^2 over the pairs. *)
Lemma numerator_pair_sum (X_reduced X : list (list R)) :
  length X_reduced = length X ->
  Rsum (map sq (map2 Rminus (distances X) (distances X_reduced)))
  = pair_sum (length X) (fun i j => sq (dist X i j - dist X_reduced i j)).
Proof.
  intros E. rewrite (distances_pairs X), (distances_pairs X_reduced), E.
  rewrite map2_map, map_map.
  apply (Rsum_pairs (length X)
           (fun i j => sq (dist X i j - dist X_reduced i j))).
Qed.

Lemma pair_sum_sq_nonneg (N : nat) (f : nat -> nat -> R) :
  0 <= pair_sum N (fun i j => sq (f i j)).
Proof.
  rewrite <- (Rsum_pairs N (fun i j => sq (f i j))).
  rewrite <- (map_map (fun p => f (fst p) (snd p)) sq).
  apply Rsum_sq_nonneg.
Qed.

Lemma xdiv_fin (a b : R) : b <> 0 -> fdiv (Fin a) (Fin b) = Fin (a / b).
Proof.
  intros Hb. simpl. destruct (Req_dec_T b 0); [contradiction | reflexivity].
Qed.

(** The value on inputs with as many reduced points as original ones and a
    denominator that is not zero, in terms of the condensed vectors. *)
Lemma stress_quotient (X_reduced X : list (list R)) :
  length X_reduced = length X ->
  Rsum (map sq (distances X)) <> 0 ->
  stress (inj X_reduced) (inj X)
  = Return (Fin (R_sqrt.sqrt
      (Rsum (map sq (map2 Rminus (distances X) (distances X_reduced)))
       / Rsum (map sq (distances X))))).
Proof.
  intros E Hden.
  rewrite (stress_fin _ _ E), (xdiv_fin _ _ Hden). f_equal.
  apply xsqrt_fin.
  pose proof (Rsum_sq_nonneg (distances X)) as Hd.
  pose proof (Rsum_sq_nonneg (map2 Rminus (distances X) (distances X_reduced)))
    as Hn.
  apply Rmult_le_pos; [exact Hn|].
  left. apply Rinv_0_lt_compat. lra.
Qed.

(** C1, in exact arithmetic.  For datasets of equal point count N >= 2 whose
    original distances are not all zero, the value returned is
    sqrt( sum_{i<j} (d_ij - e_ij)^2 / sum_{i<j} d_ij^2 ), d_ij and e_ij the
    Euclidean distances of points i and j in the original ([X]) and in the
    reduced ([X_reduced]) dataset.  On binary64 every operation of it is
    rounded and may overflow. *)
Theorem stress_formula (X_reduced X : list (list R)) :
  length X_reduced = length X ->
  (2 <= length X)%nat ->
  pair_sum (length X) (fun i j => sq (dist X i j)) <> 0 ->
  stress (inj X_reduced) (inj X)
  = Return (Fin (R_sqrt.sqrt
      (pair_sum (length X) (fun i j => sq (dist X i j - dist X_reduced i j))
       / pair_sum (length X) (fun i j => sq (dist X i j))))).
Proof.
  intros E _ Hden.
  rewrite <- denom_pair_sum in Hden.
  rewrite (stress_quotient _ _ E Hden).
  rewrite (numerator_pair_sum _ _ E), denom_pair_sum.
  reflexivity.
Qed.

(** *** Zero distortion *)

Lemma map2_Rminus_diag (l : list R) :
  Rsum (map sq (map2 Rminus l l)) = 0.
Proof.
  induction l as [|x l IH]; simpl; [reflexivity|].
  rewrite IH. unfold sq. lra.
Qed.

(** A reduced dataset with the distances of the original one has stress 0. *)
Lemma stress_same_distances (X_reduced X : list (list R)) :
  length X_reduced = length X ->
  distances X_reduced = distances X ->
  Rsum (map sq (distances X)) <> 0 ->
  stress (inj X_reduced) (inj X) = Return (Fin 0).
Proof.
  intros E Hd Hden.
  rewrite (stress_fin _ _ E), Hd, map2_Rminus_diag, (xdiv_fin _ _ Hden).
  rewrite xsqrt_fin by lra.
  do 2 f_equal. replace (0 / _) with 0 by (field; exact Hden).
  apply sqrt_0.
Qed.

(** In exact arithmetic a valid dataset compared against itself has stress
    exactly 0. *)
Theorem stress_identity (X : list (list R)) :
  (2 <= length X)%nat ->
  pair_sum (length X) (fun i j => sq (dist X i j)) <> 0 ->
  stress (inj X) (inj X) = Return (Fin 0).
Proof.
  intros _ Hden. apply stress_same_distances; auto.
  now rewrite denom_pair_sum.
Qed.

(** In exact arithmetic the value returned on valid inputs is a real
    number, and it is not negative. *)
Theorem stress_nonneg (X_reduced X : list (list R)) :
  length X_reduced = length X ->
  (2 <= length X)%nat ->
  pair_sum (length X) (fun i j => sq (dist X i j)) <> 0 ->
  exists r : R, stress (inj X_reduced) (inj X) = Return (Fin r) /\ 0 <= r.
Proof.
  intros E _ Hden. rewrite <- denom_pair_sum in Hden.
  eexists. split.
  - apply stress_quotient; assumption.
  - apply sqrt_pos.
Qed.

(** *** Monotonicity *)

Lemma pair_sum_le (N : nat) (f g : nat -> nat -> R) :
  (forall i j, (i < j)%nat -> (j < N)%nat -> f i j <= g i j) ->
  pair_sum N f <= pair_sum N g.
Proof.
  intros Hfg. unfold pair_sum.
  apply Rsum_le. intros i Hi. apply in_seq in Hi.
  apply Rsum_le. intros j Hj. apply in_seq in Hj.
  apply Hfg; lia.
Qed.

Lemma pair_sum_ext (N : nat) (f g : nat -> nat -> R) :
  (forall i j, (i < j)%nat -> (j < N)%nat -> f i j = g i j) ->
  pair_sum N f = pair_sum N g.
Proof.
  intros Hfg. apply Rle_antisym; apply pair_sum_le; intros i j Hi Hj;
    rewrite (Hfg i j Hi Hj); lra.
Qed.

(** C7, in exact arithmetic.  For a fixed valid original dataset [X], a
    reduced dataset whose squared distance error is, pair by pair, at most
    that of another one has at most its stress.  On binary64 rounding can
    turn the order round. *)
Theorem stress_monotone (X reduced_A reduced_B : list (list R)) :
  (2 <= length X)%nat ->
  pair_sum (length X) (fun i j => sq (dist X i j)) <> 0 ->
  length reduced_A = length X ->
  length reduced_B = length X ->
  (forall i j, (i < j)%nat -> (j < length X)%nat ->
     sq (dist X i j - dist reduced_A i j)
     <= sq (dist X i j - dist reduced_B i j)) ->
  exists a b : R,
    stress (inj reduced_A) (inj X) = Return (Fin a) /\
    stress (inj reduced_B) (inj X) = Return (Fin b) /\
    a <= b.
Proof.
  intros _ Hden EA EB Herr. rewrite <- denom_pair_sum in Hden.
  do 2 eexists. split; [|split].
  - apply stress_quotient; assumption.
  - apply stress_quotient; assumption.
  - apply sqrt_le_1_alt.
    pose proof (Rsum_sq_nonneg (distances X)) as Hd.
    apply Rmult_le_compat_r.
    + left. apply Rinv_0_lt_compat. lra.
    + rewrite (numerator_pair_sum _ _ EA), (numerator_pair_sum _ _ EB).
      apply pair_sum_le. exact Herr.
Qed.

(** *** Isometries *)

Lemma distances_map_isometry (D : nat) (T : list R -> list R)
      (X : list (list R)) :
  isometry D T ->
  Forall (fun u => length u = D) X ->
  distances (map T X) = distances X.
Proof.
  intros HT. induction 1 as [|u X Hu HX IH]; simpl; [reflexivity|].
  rewrite IH, map_map. f_equal.
  apply map_ext_in. intros v Hv.
  apply HT; [exact Hu|].
  rewrite Forall_forall in HX. now apply HX.
Qed.

(** C8, in exact arithmetic.  Moving every point of a valid dataset of
    D-dimensional points by one distance-preserving map of D-dimensional
    space gives a reduced dataset of stress 0.  On binary64 the value can
    be a small positive number or NaN. *)
Theorem stress_isometry (D : nat) (T : list R -> list R) (X : list (list R)) :
  Forall (fun u => length u = D) X ->
  isometry D T ->
  (2 <= length X)%nat ->
  pair_sum (length X) (fun i j => sq (dist X i j)) <> 0 ->
  stress (inj (map T X)) (inj X) = Return (Fin 0).
Proof.
  intros HX HT _ Hden. apply stress_same_distances.
  - apply length_map.
  - now apply distances_map_isometry with D.
  - now rewrite denom_pair_sum.
Qed.

(** Translations, plane rotations and reflections are isometries, and
    isometries compose. *)
Lemma map2_Rplus_length (u t : list R) :
  length t = length u -> length (map2 Rplus u t) = length u.
Proof.
  revert t; induction u as [|a u IH]; intros [|b t]; simpl; intros E;
    try reflexivity; try discriminate.
  f_equal. apply IH. now injection E.
Qed.

Lemma translate_diff (t u v : list R) :
  length u = length t -> length v = length t ->
  map2 Rminus (translate t u) (translate t v) = map2 Rminus u v.
Proof.
  unfold translate.
  revert u v; induction t as [|c t IH]; intros [|a u] [|b v]; simpl;
    intros Eu Ev; try reflexivity; try discriminate.
  f_equal; [lra|]. apply IH; [now injection Eu | now injection Ev].
Qed.

Lemma translate_isometry (t : list R) : isometry (length t) (translate t).
Proof.
  intros u v Hu Hv. split.
  - unfold translate. apply eq_trans with (length u); [|exact Hu].
    apply map2_Rplus_length. now rewrite Hu.
  - unfold l2. now rewrite translate_diff.
Qed.

Lemma rotate2_isometry (theta : R) : isometry 2 (rotate2 theta).
Proof.
  intros [|x1 [|y1 [|? ?]]] [|x2 [|y2 [|? ?]]] Hu Hv; try discriminate.
  split; [reflexivity|].
  unfold l2. f_equal. simpl. unfold sq.
  pose proof (sin2_cos2 theta) as Hsc. unfold Rsqr in Hsc.
  set (c := cos theta) in *. set (s := sin theta) in *.
  replace ((c * x1 - s * y1 - (c * x2 - s * y2))
           * (c * x1 - s * y1 - (c * x2 - s * y2))
           + ((s * x1 + c * y1 - (s * x2 + c * y2))
              * (s * x1 + c * y1 - (s * x2 + c * y2)) + 0))
    with ((s * s + c * c) * ((x1 - x2) * (x1 - x2) + (y1 - y2) * (y1 - y2)))
    by ring.
  rewrite Hsc. ring.
Qed.

Lemma reflect2_isometry : isometry 2 reflect2.
Proof.
  intros [|x1 [|y1 [|? ?]]] [|x2 [|y2 [|? ?]]] Hu Hv; try discriminate.
  split; [reflexivity|].
  unfold l2. f_equal. simpl. unfold sq. ring.
Qed.

Lemma isometry_compose (D : nat) (T1 T2 : list R -> list R) :
  isometry D T1 -> isometry D T2 -> isometry D (fun u => T2 (T1 u)).
Proof.
  intros H1 H2 u v Hu Hv.
  destruct (H1 u v Hu Hv) as [L1 E1].
  destruct (H1 v u Hv Hu) as [L1' _].
  destruct (H2 (T1 u) (T1 v) L1 L1') as [L2 E2].
  split; [exact L2 | now rewrite E2].
Qed.

(** *** No spread in the original data *)

Lemma l2_diag (u : list R) : l2 u u = 0.
Proof.
  unfold l2. rewrite map2_Rminus_diag. apply sqrt_0.
Qed.

Lemma xdiv_fin_zero (a : R) :
  0 <= a ->
  fsqrt (fdiv (Fin a) (Fin 0)) = if Req_dec_T a 0 then NaN else PInf.
Proof.
  intros Ha. simpl.
  destruct (Req_dec_T 0 0) as [_|N]; [|contradiction].
  unfold by_sign.
  destruct (total_order_T a 0) as [[L|E]|G]; destruct (Req_dec_T a 0);
    try reflexivity; lra.
Qed.

(** When the denominator is zero the division is 0/0 or a positive number
    over 0, and the square root hands NaN or infinity on. *)
Lemma stress_zero_denominator (X_reduced X : list (list R)) :
  length X_reduced = length X ->
  pair_sum (length X) (fun i j => sq (dist X i j)) = 0 ->
  stress (inj X_reduced) (inj X)
  = Return
      (if Req_dec_T
            (pair_sum (length X)
               (fun i j => sq (dist X i j - dist X_reduced i j))) 0
       then NaN else PInf).
Proof.
  intros E Hden.
  rewrite (stress_fin _ _ E), (numerator_pair_sum _ _ E), denom_pair_sum, Hden.
  f_equal. apply xdiv_fin_zero, pair_sum_sq_nonneg.
Qed.

Lemma dist_coincide (X : list (list R)) (i j : nat) :
  (forall u v, In u X -> In v X -> u = v) ->
  (i < length X)%nat -> (j < length X)%nat -> dist X i j = 0.
Proof.
  intros Hc Hi Hj. unfold dist.
  rewrite (Hc (nth i X []) (nth j X [])) by (apply nth_In; assumption).
  apply l2_diag.
Qed.

(** In exact arithmetic: when all N >= 2 points of the original dataset
    coincide, no error is raised, and the value returned is NaN if the
    reduced points have no spread either, and +infinity if they have. *)
Theorem stress_degenerate (X_reduced X : list (list R)) :
  length X_reduced = length X ->
  (2 <= length X)%nat ->
  (forall u v, In u X -> In v X -> u = v) ->
  stress (inj X_reduced) (inj X)
  = Return
      (if Req_dec_T
            (pair_sum (length X) (fun i j => sq (dist X_reduced i j))) 0
       then NaN else PInf).
Proof.
  intros E _ Hc.
  assert (Hden : pair_sum (length X) (fun i j => sq (dist X i j)) = 0).
  { rewrite (pair_sum_ext _ _ (fun _ _ => 0)).
    - unfold pair_sum.
      induction (seq 0 (length X)) as [|i l IH]; simpl; [reflexivity|].
      rewrite IH.
      induction (seq (S i) (length X - S i)) as [|j l' IH']; simpl; lra.
    - intros i j Hi Hj. rewrite dist_coincide by (auto; lia).
      unfold sq; lra. }
  rewrite (stress_zero_denominator _ _ E Hden).
  rewrite (pair_sum_ext _ _ (fun i j => sq (dist X_reduced i j))); [reflexivity|].
  intros i j Hi Hj. rewrite dist_coincide by (auto; lia).
  unfold sq; lra.
Qed.

(** *** Worked values *)

Lemma sq_l2 (u v : list R) : sq (l2 u v) = Rsum (map sq (map2 Rminus u v)).
Proof.
  unfold l2, sq at 1. apply sqrt_sqrt, Rsum_sq_nonneg.
Qed.

Lemma triangle_distances : distances triangle = [3; 4; 5].
Proof.
  unfold triangle. simpl distances.
  repeat (f_equal; try (unfold l2; simpl; apply sqrt_lem_1; unfold sq; lra)).
Qed.

Lemma collapsed_distances : distances collapsed = [0; 0; 0].
Proof.
  unfold collapsed. simpl distances. now rewrite !l2_diag.
Qed.

Lemma triangle_denominator :
  pair_sum (length triangle) (fun i j => sq (dist triangle i j)) = 50.
Proof.
  rewrite <- denom_pair_sum, triangle_distances. simpl. unfold sq. lra.
Qed.

Lemma triangle_valid :
  pair_sum (length triangle) (fun i j => sq (dist triangle i j)) <> 0.
Proof. rewrite triangle_denominator. lra. Qed.

Lemma stress_triangle_triangle :
  stress (inj triangle) (inj triangle) = Return (Fin 0).
Proof.
  apply stress_same_distances; [reflexivity | reflexivity |].
  rewrite denom_pair_sum. exact triangle_valid.
Qed.

Lemma stress_triangle_collapsed :
  stress (inj collapsed) (inj triangle) = Return (Fin 1).
Proof.
  rewrite stress_fin by reflexivity.
  rewrite triangle_distances, collapsed_distances.
  simpl Rsum.
  replace (sq (3 - 0) + (sq (4 - 0) + (sq (5 - 0) + 0))) with 50
    by (unfold sq; lra).
  replace (sq 3 + (sq 4 + (sq 5 + 0))) with 50 by (unfold sq; lra).
  rewrite xdiv_fin by lra.
  replace (50 / 50) with 1 by lra.
  rewrite xsqrt_fin by lra. now rewrite sqrt_1.
Qed.

Lemma stress_formula_witness :
  length collapsed = length triangle /\
  (2 <= length triangle)%nat /\
  pair_sum (length triangle) (fun i j => sq (dist triangle i j)) <> 0 /\
  stress (inj collapsed) (inj triangle)
  = Return (Fin (R_sqrt.sqrt
      (pair_sum (length triangle)
         (fun i j => sq (dist triangle i j - dist collapsed i j))
       / pair_sum (length triangle) (fun i j => sq (dist triangle i j))))).
Proof.
  split; [reflexivity|]. split; [simpl; lia|]. split; [exact triangle_valid|].
  apply (stress_formula collapsed triangle);
    [reflexivity | simpl; lia | exact triangle_valid].
Defined.

Lemma stress_identity_witness :
  (2 <= length triangle)%nat /\
  pair_sum (length triangle) (fun i j => sq (dist triangle i j)) <> 0 /\
  stress (inj triangle) (inj triangle) = Return (Fin 0).
Proof.
  split; [simpl; lia|]. split; [exact triangle_valid|].
  apply (stress_identity triangle); [simpl; lia | exact triangle_valid].
Defined.

Lemma stress_nonneg_witness :
  length collapsed = length triangle /\
  (2 <= length triangle)%nat /\
  pair_sum (length triangle) (fun i j => sq (dist triangle i j)) <> 0 /\
  exists r : R, stress (inj collapsed) (inj triangle) = Return (Fin r) /\ 0 <= r.
Proof.
  split; [reflexivity|]. split; [simpl; lia|]. split; [exact triangle_valid|].
  apply (stress_nonneg collapsed triangle);
    [reflexivity | simpl; lia | exact triangle_valid].
Defined.

Lemma triangle_beats_collapsed (i j : nat) :
  sq (dist triangle i j - dist triangle i j)
  <= sq (dist triangle i j - dist collapsed i j).
Proof.
  unfold sq. rewrite Rminus_diag, Rmult_0_l.
  apply (Rle_0_sqr (dist triangle i j - dist collapsed i j)).
Qed.

Lemma stress_monotone_witness :
  (2 <= length triangle)%nat /\
  pair_sum (length triangle) (fun i j => sq (dist triangle i j)) <> 0 /\
  length triangle = length triangle /\
  length collapsed = length triangle /\
  (forall i j, (i < j)%nat -> (j < length triangle)%nat ->
     sq (dist triangle i j - dist triangle i j)
     <= sq (dist triangle i j - dist collapsed i j)) /\
  exists a b : R,
    stress (inj triangle) (inj triangle) = Return (Fin a) /\
    stress (inj collapsed) (inj triangle) = Return (Fin b) /\
    a <= b.
Proof.
  split; [simpl; lia|]. split; [exact triangle_valid|].
  split; [reflexivity|]. split; [reflexivity|].
  split; [intros i j _ _; apply triangle_beats_collapsed|].
  apply (stress_monotone triangle triangle collapsed);
    [simpl; lia | exact triangle_valid | reflexivity | reflexivity |].
  intros i j _ _. apply triangle_beats_collapsed.
Defined.

Lemma triangle_planar : Forall (fun u => length u = 2%nat) triangle.
Proof. repeat constructor. Qed.

(** A turn by one radian followed by a shift. *)
Lemma turn_shift_isometry :
  isometry 2 (fun u => translate [1; 2] (rotate2 1 u)).
Proof.
  apply (isometry_compose 2 (rotate2 1) (translate [1; 2])).
  - apply rotate2_isometry.
  - apply (translate_isometry [1; 2]).
Qed.

Lemma stress_isometry_witness :
  Forall (fun u => length u = 2%nat) triangle /\
  isometry 2 (fun u => translate [1; 2] (rotate2 1 u)) /\
  (2 <= length triangle)%nat /\
  pair_sum (length triangle) (fun i j => sq (dist triangle i j)) <> 0 /\
  stress (inj (map (fun u => translate [1; 2] (rotate2 1 u)) triangle))
         (inj triangle)
  = Return (Fin 0).
Proof.
  split; [exact triangle_planar|]. split; [exact turn_shift_isometry|].
  split; [simpl; lia|]. split; [exact triangle_valid|].
  apply (stress_isometry 2 (fun u => translate [1; 2] (rotate2 1 u)) triangle);
    [exact triangle_planar | exact turn_shift_isometry
     | simpl; lia | exact triangle_valid].
Defined.

Lemma collapsed_coincide (u v : list R) :
  In u collapsed -> In v collapsed -> u = v.
Proof.
  unfold collapsed. simpl. intuition congruence.
Qed.

Lemma stress_degenerate_witness :
  length triangle = length collapsed /\
  (2 <= length collapsed)%nat /\
  (forall u v, In u collapsed -> In v collapsed -> u = v) /\
  stress (inj triangle) (inj collapsed)
  = Return
      (if Req_dec_T
            (pair_sum (length collapsed) (fun i j => sq (dist triangle i j))) 0
       then NaN else PInf).
Proof.
  split; [reflexivity|]. split; [simpl; lia|]. split; [exact collapsed_coincide|].
  apply (stress_degenerate triangle collapsed);
    [reflexivity | simpl; lia | exact collapsed_coincide].
Defined.

(** With the triangle as the reduced data and its collapse as the original,
    the value is +infinity: 50 over 0. *)
Lemma collapsed_denominator :
  pair_sum (length collapsed) (fun i j => sq (dist collapsed i j)) = 0.
Proof.
  rewrite <- denom_pair_sum, collapsed_distances. simpl. unfold sq. lra.
Qed.

Lemma stress_collapsed_triangle :
  stress (inj triangle) (inj collapsed) = Return PInf.
Proof.
  rewrite (stress_zero_denominator triangle collapsed eq_refl
             collapsed_denominator).
  rewrite <- numerator_pair_sum by reflexivity.
  rewrite triangle_distances, collapsed_distances. simpl Rsum.
  destruct (Req_dec_T _ 0) as [E|_]; [|reflexivity].
  unfold sq in E. lra.
Qed.

(** Two points at distance 1 against two points at distance 2, both ways. *)
Lemma stress_pair_values :
  stress (inj [[0]; [1]]) (inj [[0]; [2]]) = Return (Fin (1 / 2)) /\
  stress (inj [[0]; [2]]) (inj [[0]; [1]]) = Return (Fin 1).
Proof.
  assert (D1 : distances [[0]; [1]] = [1]).
  { simpl. f_equal. unfold l2. simpl. apply sqrt_lem_1; unfold sq; lra. }
  assert (D2 : distances [[0]; [2]] = [2]).
  { simpl. f_equal. unfold l2. simpl. apply sqrt_lem_1; unfold sq; lra. }
  split; rewrite stress_fin by reflexivity; rewrite D1, D2; simpl Rsum.
  - rewrite xdiv_fin by (unfold sq; lra).
    rewrite xsqrt_fin by (unfold sq; lra).
    do 2 f_equal. apply sqrt_lem_1; unfold sq; lra.
  - rewrite xdiv_fin by (unfold sq; lra).
    rewrite xsqrt_fin by (unfold sq; lra).
    do 2 f_equal. apply sqrt_lem_1; unfold sq; lra.
Qed.

Lemma pair_valid (a : R) :
  a <> 0 -> pair_sum 2 (fun i j => sq (dist [[0]; [a]] i j)) <> 0.
Proof.
  intros Ha. unfold pair_sum, dist. simpl. rewrite sq_l2. simpl.
  unfold sq. nra.
Qed.

End Exact.

(** ** Mismatched point counts, for any scalar type *)

Section Mismatch.

Context {A : Type} `{Scalar A}.

(** C3, as the code has it.  [stress] checks nothing itself and never
    raises [InvalidInputError].  The one failure is numpy's [ValueError]
    for operands that cannot be broadcast together, and it happens exactly
    when the point counts differ, neither dataset has exactly two points,
    and at least one has a pair of points at all. *)
Theorem stress_raises_iff (X_reduced X : list (list A)) (e : exn) :
  stress X_reduced X = Raise e <->
  e = ValueError /\
  length X_reduced <> length X /\
  length X_reduced <> 2 /\ length X <> 2 /\
  (2 <= length X_reduced \/ 2 <= length X).
Proof.
  rewrite stress_raises_subtract, np_subtract_raises.
  rewrite !pdist_length_one_iff.
  pose proof (pdist_length_same_iff X X_reduced) as Hs.
  split.
  - intros (He & Hne & HX & HXr). repeat split; auto.
    + intros E. apply Hne, Hs. left. now symmetry.
    + destruct (le_lt_dec 2 (length X_reduced)); auto.
      destruct (le_lt_dec 2 (length X)); auto.
      exfalso. apply Hne, Hs. right. lia.
  - intros (He & Hne & HXr & HX & Hor). repeat split; auto.
    intros E. apply Hs in E. destruct E as [E|[L1 L2]]; [congruence | lia].
Qed.

(** Without a single pair on either side both sums are empty, and the value
    returned is the square root of zero over zero. *)
Lemma stress_no_pairs (X_reduced X : list (list A)) :
  length X_reduced < 2 -> length X < 2 ->
  stress X_reduced X = Return (np_sqrt (np_divide fzero fzero)).
Proof.
  intros Lr L. unfold stress.
  now rewrite (pdist_length_small _ Lr), (pdist_length_small _ L).
Qed.

(** C9. A reduced dataset of exactly two points is accepted against an
    original dataset of more than two: its single distance [e] is
    subtracted from every original distance, and a value is returned. *)
Theorem stress_broadcasts (X_reduced X : list (list A)) :
  length X_reduced = 2 ->
  2 < length X ->
  exists e : A,
    pdist X_reduced = [e] /\
    stress X_reduced X
    = Return (np_sqrt (np_divide
        (np_sum (np_square (map (fun d => fsub d e) (pdist X))))
        (np_sum (np_square (pdist X))))).
Proof.
  intros Hr HX.
  destruct X_reduced as [|u [|v [|w Xr]]]; try discriminate.
  exists (euclidean u v). split; [reflexivity|].
  destruct X as [|a [|b [|c X]]]; simpl in HX; try lia.
  reflexivity.
Qed.

End Mismatch.

(** ** The code on binary64 *)

Section Doubles.

Import Binary64.
Local Open Scope float_scope.

Lemma Prim2SF_zero : Prim2SF 0 = S754_zero false.
Proof. reflexivity. Qed.

(** A float that is neither NaN nor infinite is a zero or a finite number. *)
Lemma Prim2SF_finite (x : float) :
  is_finite x = true ->
  (exists s, Prim2SF x = S754_zero s) \/
  (exists s m e, Prim2SF x = S754_finite s m e).
Proof.
  unfold is_finite. intros Hf.
  apply negb_true_iff, orb_false_iff in Hf. destruct Hf as [Hn Hi].
  unfold Prim2SF. rewrite Hn, Hi.
  destruct (is_zero x); [left; eauto|].
  destruct (Z.frexp x) as [r ex].
  destruct (shr_fexp _ _ _ _ _) as [shr e'].
  destruct (shr_m shr); [left | right | left]; eauto.
Qed.

(** A finite distance minus itself is +0; an overflowed one would give NaN. *)
Lemma sub_diag_finite (x : float) : is_finite x = true -> x - x = 0.
Proof.
  intros Hf. apply Prim2SF_inj. rewrite sub_spec, Prim2SF_zero.
  destruct (Prim2SF_finite x Hf) as [[s E]|(s & m & e & E)]; rewrite E.
  - now destruct s.
  - unfold SF64sub, SFsub. cbv zeta. now rewrite Z.sub_diag.
Qed.

Lemma div_zero_pos (d : float) : (0 <? d) = true -> 0 / d = 0.
Proof.
  intros Hd. apply Prim2SF_inj. rewrite div_spec.
  rewrite ltb_spec in Hd. rewrite Prim2SF_zero in *.
  destruct (Prim2SF d) as [s| s | | s m e]; try discriminate;
    destruct s; try discriminate; reflexivity.
Qed.

Lemma map2_fsub_diag (l : list float) :
  Forall (fun d => is_finite d = true) l ->
  map2 fsub l l = map (fun _ => 0) l.
Proof.
  induction 1 as [|x l Hx Hl IH]; cbn [map2 map]; [reflexivity|].
  rewrite IH. f_equal. exact (sub_diag_finite x Hx).
Qed.

Lemma np_sum_zeros (B : Type) (l : list B) :
  np_sum (np_square (map (fun _ => 0) l)) = 0.
Proof.
  unfold np_sum, np_square. rewrite map_map. simpl fzero.
  induction l as [|x l IH]; simpl; [reflexivity | exact IH].
Qed.

(** X9. On binary64 the identity holds to the last bit as long as no pairwise
    distance overflows and the denominator is a positive number. *)
Lemma stress_identity_binary64 (X : list (list float)) :
  Forall (fun d => is_finite d = true) (pdist X) ->
  (0 <? np_sum (np_square (pdist X))) = true ->
  stress X X = Return 0.
Proof.
  intros Hfin Hden. unfold stress, np_subtract.
  rewrite Nat.eqb_refl. cbn [bind].
  rewrite (map2_fsub_diag _ Hfin), np_sum_zeros.
  unfold np_divide, np_sqrt. f_equal.
  change (sqrt (0 / np_sum (np_square (pdist X))) = 0).
  now rewrite (div_zero_pos _ Hden).
Qed.

(** *** The sign of the value *)

(** A square root is NaN, or a zero, or positive: never below zero. *)
Lemma sqrt_not_negative (x : float) : (sqrt x <? 0) = false.
Proof.
  rewrite ltb_spec, sqrt_spec, Prim2SF_zero.
  destruct (Prim2SF x) as [s| s | | s m e]; try (destruct s); try reflexivity.
  unfold SF64sqrt, SFsqrt.
  destruct (SFsqrt_core_binary _ _ _ _) as [[mz ez] lz].
  unfold binary_round_aux.
  destruct (shr_fexp _ _ _ _ _) as [mrs' e'].
  destruct (shr_fexp _ _ _ _ _) as [mrs'' e''].
  destruct (shr_m mrs''); try reflexivity.
  destruct (Z.leb _ _); reflexivity.
Qed.

(** X10. Whatever the data, a value returned on binary64 is not negative. *)
Lemma stress_not_negative_binary64 (X_reduced X : list (list float))
      (v : float) :
  stress X_reduced X = Return v -> (v <? 0) = false.
Proof.
  unfold stress. destruct (np_subtract _ _) as [diff|e]; cbn [bind];
    [|discriminate].
  intros E. injection E as <-. apply sqrt_not_negative.
Qed.

(** *** Worked values *)

Lemma triangle_binary64 :
  pdist triangle = [3; 4; 5] /\
  stress triangle triangle = Return 0 /\
  stress collapsed triangle = Return 1.
Proof. repeat split; vm_compute; reflexivity. Qed.

Lemma stress_pair_binary64 :
  stress [[0]; [1]] [[0]; [2]] = Return 0.5 /\
  stress [[0]; [2]] [[0]; [1]] = Return 1.
Proof. split; vm_compute; reflexivity. Qed.

(** Eight points against ten: 28 distances against 45. *)
Lemma stress_ten_eight : stress (line 8) (line 10) = Raise ValueError.
Proof. vm_compute. reflexivity. Qed.

(** C2 as stated fails: two coinciding original points against two distinct
    reduced points, and against two coinciding ones. *)
Lemma stress_degenerate_counterexample :
  stress [[0]; [1]] [[1]; [1]] = Return infinity /\
  stress [[0]; [0]] [[1]; [1]] = Return nan /\
  stress [[0]; [1]] [[1]; [1]] <> Raise DegenerateInputError /\
  stress [[0]; [0]] [[1]; [1]] <> Raise DegenerateInputError.
Proof. repeat split; vm_compute; (reflexivity || discriminate). Qed.

(** C3 as stated fails: one point against one point is not rejected, and
    neither are two points against three. *)
Lemma stress_invalid_counterexample :
  stress (line 1) (line 1) = Return nan /\
  stress (line 1) (line 1) <> Raise InvalidInputError /\
  stress (line 2) (line 3) = Return 0x1.a20bd700c2c3ep-2 /\
  stress (line 2) (line 3) <> Raise InvalidInputError /\
  stress (line 8) (line 10) <> Raise InvalidInputError.
Proof. repeat split; vm_compute; (reflexivity || discriminate). Qed.

Lemma stress_broadcasts_witness :
  length (line 2) = 2%nat /\
  (2 < length (line 3))%nat /\
  exists e : float,
    pdist (line 2) = [e] /\
    stress (line 2) (line 3)
    = Return (np_sqrt (np_divide
        (np_sum (np_square (map (fun d => fsub d e) (pdist (line 3)))))
        (np_sum (np_square (pdist (line 3)))))).
Proof.
  split; [reflexivity|]. split; [simpl; lia|].
  apply (stress_broadcasts (line 2) (line 3)); [reflexivity | simpl; lia].
Defined.

End Doubles.

(** ** The worked scenario and the order of the arguments *)

Section Scenarios.

Import Binary64 Ideal.

(** C6. For the 3-4-5 triangle as original data the distances are 3, 4 and
    5; the triangle itself as reduced data has stress exactly 0, and its
    collapse onto one point has stress exactly 1 (50 over 50), in exact
    arithmetic and on binary64 alike. *)
Theorem stress_triangle_scenario :
  distances Ideal.triangle = [3; 4; 5]%R /\
  stress (inj Ideal.triangle) (inj Ideal.triangle) = Return (Fin 0) /\
  stress (inj Ideal.collapsed) (inj Ideal.triangle) = Return (Fin 1) /\
  pdist Binary64.triangle = [3; 4; 5]%float /\
  stress Binary64.triangle Binary64.triangle = Return 0%float /\
  stress Binary64.collapsed Binary64.triangle = Return 1%float.
Proof.
  split; [exact triangle_distances|].
  split; [exact stress_triangle_triangle|].
  split; [exact stress_triangle_collapsed|].
  exact triangle_binary64.
Qed.

(** C10. The two arguments are not interchangeable: the denominator comes
    from the second one alone.  Two points at distance 1 and two points at
    distance 2 give 1/2 one way round and 1 the other. *)
Theorem stress_not_symmetric :
  (exists A B : list (list R),
     length A = length B /\ 2 <= length A /\
     pair_sum (length A) (fun i j => sq (dist A i j)) <> 0%R /\
     pair_sum (length B) (fun i j => sq (dist B i j)) <> 0%R /\
     stress (inj A) (inj B) = Return (Fin (1 / 2)) /\
     stress (inj B) (inj A) = Return (Fin 1) /\
     stress (inj A) (inj B) <> stress (inj B) (inj A)) /\
  (exists A B : list (list float),
     length A = length B /\ 2 <= length A /\
     stress A B = Return 0.5%float /\
     stress B A = Return 1%float /\
     stress A B <> stress B A).
Proof.
  split.
  - exists [[0]; [1]]%R, [[0]; [2]]%R.
    destruct stress_pair_values as [E1 E2].
    repeat split; try assumption; try (simpl; lia).
    + apply (pair_valid 1). lra.
    + apply (pair_valid 2). lra.
    + rewrite E1, E2. intros E. injection E. lra.
  - exists [[0]; [1]]%float, [[0]; [2]]%float.
    destruct stress_pair_binary64 as [E1 E2].
    repeat split; try assumption; try (simpl; lia).
    rewrite E1, E2. intros E. vm_compute in E. discriminate.
Qed.

End Scenarios.

(** * Further properties of [stress] *)

(** ** What the value tells, in exact arithmetic *)

Section ExactMore.

Import Ideal Moves.
Local Open Scope R_scope.

Lemma in_pairs (N i j : nat) :
  In (i, j) (pairs N) <-> (i < j)%nat /\ (j < N)%nat.
Proof.
  unfold pairs. rewrite in_flat_map. split.
  - intros (k & Hk & Hin). apply in_map_iff in Hin.
    destruct Hin as (j' & Hp & Hj'). injection Hp as -> ->.
    apply in_seq in Hk. apply in_seq in Hj'. lia.
  - intros [Hij Hj]. exists i. split.
    + apply in_seq. lia.
    + apply in_map, in_seq. lia.
Qed.

Lemma Rsum_nonneg (B : Type) (f : B -> R) (l : list B) :
  (forall x, In x l -> 0 <= f x) -> 0 <= Rsum (map f l).
Proof.
  induction l as [|x l IH]; simpl; intros Hf; [lra|].
  assert (0 <= f x) by (apply Hf; now left).
  assert (0 <= Rsum (map f l)) by (apply IH; intros; apply Hf; now right).
  lra.
Qed.

(** A sum of non-negative terms is zero only if every term is. *)
Lemma Rsum_zero_terms (B : Type) (f : B -> R) (l : list B) :
  (forall x, In x l -> 0 <= f x) ->
  Rsum (map f l) = 0 -> forall x, In x l -> f x = 0.
Proof.
  induction l as [|y l IH]; simpl; intros Hf Hs x Hx; [contradiction|].
  assert (0 <= f y) by (apply Hf; now left).
  assert (0 <= Rsum (map f l))
    by (apply Rsum_nonneg; intros; apply Hf; now right).
  destruct Hx as [<-|Hx]; [lra|].
  apply IH; auto. lra.
Qed.

Lemma numerator_pairs (X_reduced X : list (list R)) :
  length X_reduced = length X ->
  map2 Rminus (distances X) (distances X_reduced)
  = map (fun p => dist X (fst p) (snd p) - dist X_reduced (fst p) (snd p))
        (pairs (length X)).
Proof.
  intros E. rewrite (distances_pairs X), (distances_pairs X_reduced), E.
  apply map2_map.
Qed.

Lemma sq_zero (x : R) : sq x = 0 -> x = 0.
Proof. unfold sq. nra. Qed.

Lemma sq_nonneg (x : R) : 0 <= sq x.
Proof. unfold sq. nra. Qed.

(** X1. On valid inputs the value is 0 exactly when the reduced data keeps
    every pairwise distance of the original data. *)
Theorem stress_zero_iff (X_reduced X : list (list R)) :
  length X_reduced = length X ->
  pair_sum (length X) (fun i j => sq (dist X i j)) <> 0 ->
  (stress (inj X_reduced) (inj X) = Return (Fin 0) <->
   forall i j, (i < j)%nat -> (j < length X)%nat ->
     dist X_reduced i j = dist X i j).
Proof.
  intros E Hden. rewrite <- denom_pair_sum in Hden.
  rewrite (stress_quotient _ _ E Hden).
  pose proof (Rsum_sq_nonneg (distances X)) as Hd.
  pose proof (Rsum_sq_nonneg
                (map2 Rminus (distances X) (distances X_reduced))) as Hn.
  split.
  - intros Hz i j Hij Hj.
    injection Hz as Hz.
    apply sqrt_eq_0 in Hz;
      [|apply Rmult_le_pos; [exact Hn | left; apply Rinv_0_lt_compat; lra]].
    assert (Hnum : Rsum (map sq (map2 Rminus (distances X)
                                   (distances X_reduced))) = 0).
    { apply Rmult_integral in Hz. destruct Hz as [Hz|Hz]; [exact Hz|].
      exfalso. revert Hz. apply Rinv_neq_0_compat. exact Hden. }
    rewrite (numerator_pairs _ _ E), map_map in Hnum.
    pose proof (Rsum_zero_terms _ _ _
                  (fun p _ => sq_nonneg _) Hnum (i, j)) as Hterm.
    simpl in Hterm.
    assert (Hin : In (i, j) (pairs (length X))) by (apply in_pairs; lia).
    apply Hterm, sq_zero in Hin. lra.
  - intros Hsame.
    assert (Hd' : distances X_reduced = distances X).
    { rewrite (distances_pairs X), (distances_pairs X_reduced), E.
      apply map_ext_in. intros [i j] Hin. apply in_pairs in Hin.
      simpl. apply Hsame; lia. }
    rewrite Hd', map2_Rminus_diag.
    do 2 f_equal. unfold Rdiv. rewrite Rmult_0_l. apply sqrt_0.
Qed.

(** X2. Reduced data that sits on one point has stress exactly 1, whatever the
    valid original data. *)
Theorem stress_collapsed_one (X_reduced X : list (list R)) :
  length X_reduced = length X ->
  (forall u v, In u X_reduced -> In v X_reduced -> u = v) ->
  pair_sum (length X) (fun i j => sq (dist X i j)) <> 0 ->
  stress (inj X_reduced) (inj X) = Return (Fin 1).
Proof.
  intros E Hc Hden.
  assert (Hden' := Hden). rewrite <- denom_pair_sum in Hden'.
  rewrite (stress_quotient _ _ E Hden').
  rewrite (numerator_pair_sum _ _ E), denom_pair_sum.
  rewrite (pair_sum_ext _ _ (fun i j => sq (dist X i j))).
  - do 2 f_equal. unfold Rdiv. rewrite Rinv_r by exact Hden. apply sqrt_1.
  - intros i j Hij Hj.
    rewrite (dist_coincide X_reduced i j Hc) by (rewrite E; lia).
    f_equal. lra.
Qed.

(** *** Uniform scaling *)

Lemma sqsum_scale (c : R) (u v : list R) :
  Rsum (map sq (map2 Rminus (map (Rmult c) u) (map (Rmult c) v)))
  = sq c * Rsum (map sq (map2 Rminus u v)).
Proof.
  revert v; induction u as [|a u IH]; intros [|b v]; simpl;
    try (unfold sq; lra).
  rewrite IH. unfold sq. lra.
Qed.

Lemma l2_scale (c : R) (u v : list R) :
  l2 (map (Rmult c) u) (map (Rmult c) v) = Rabs c * l2 u v.
Proof.
  unfold l2. rewrite sqsum_scale.
  rewrite sqrt_mult by (apply sq_nonneg || apply Rsum_sq_nonneg).
  f_equal. apply (sqrt_Rsqr_abs c).
Qed.

Lemma distances_scale (c : R) (X : list (list R)) :
  distances (scale c X) = map (Rmult (Rabs c)) (distances X).
Proof.
  induction X as [|u X IH]; simpl; [reflexivity|].
  fold (scale c X). rewrite IH, map_app. f_equal.
  unfold scale. rewrite !map_map. apply map_ext. intros v. apply l2_scale.
Qed.

Lemma Rsum_sq_scale (k : R) (l : list R) :
  Rsum (map sq (map (Rmult k) l)) = sq k * Rsum (map sq l).
Proof.
  induction l as [|x l IH]; simpl; [lra|].
  rewrite IH. unfold sq. lra.
Qed.

Lemma Rsum_sq_diff_scale (k : R) (a b : list R) :
  Rsum (map sq (map2 Rminus (map (Rmult k) a) (map (Rmult k) b)))
  = sq k * Rsum (map sq (map2 Rminus a b)).
Proof. apply sqsum_scale. Qed.

(** The quotient step does not see a common positive factor. *)
Lemma quotient_scale (k n d : R) :
  0 < k -> 0 <= n -> 0 <= d ->
  fsqrt (fdiv (Fin (k * n)) (Fin (k * d))) = fsqrt (fdiv (Fin n) (Fin d)).
Proof.
  intros Hk Hn Hd.
  destruct (Req_dec_T d 0) as [->|Hd0].
  - rewrite Rmult_0_r.
    rewrite !xdiv_fin_zero by nra.
    destruct (Req_dec_T (k * n) 0) as [E|E]; destruct (Req_dec_T n 0) as [E'|E'];
      try reflexivity; exfalso; nra.
  - rewrite !xdiv_fin by nra.
    do 2 f_equal. field. split; lra.
Qed.

(** X3. Measuring both datasets in another unit changes nothing: a common
    factor [c <> 0] on all coordinates leaves the result as it was, the
    degenerate results included. *)
Theorem stress_scale_invariant (c : R) (X_reduced X : list (list R)) :
  c <> 0 ->
  length X_reduced = length X ->
  stress (inj (scale c X_reduced)) (inj (scale c X))
  = stress (inj X_reduced) (inj X).
Proof.
  intros Hc E.
  rewrite !stress_fin by (unfold scale; now rewrite ?length_map).
  rewrite !distances_scale, Rsum_sq_diff_scale, Rsum_sq_scale.
  f_equal. apply quotient_scale.
  - unfold sq. pose proof (Rabs_pos_lt c Hc). nra.
  - apply Rsum_sq_nonneg.
  - apply Rsum_sq_nonneg.
Qed.

Lemma Rsum_sq_self_scale (k : R) (l : list R) :
  Rsum (map sq (map2 Rminus l (map (Rmult k) l)))
  = sq (1 - k) * Rsum (map sq l).
Proof.
  induction l as [|x l IH]; simpl; [lra|].
  rewrite IH. unfold sq. lra.
Qed.

(** X4. A copy of valid data blown up or shrunk by the factor [c] has stress
    |1 - |c||: 0 for [c = 1] or [-1], 1 for a doubled copy. *)
Theorem stress_scaled_copy (c : R) (X : list (list R)) :
  pair_sum (length X) (fun i j => sq (dist X i j)) <> 0 ->
  stress (inj (scale c X)) (inj X) = Return (Fin (Rabs (1 - Rabs c))).
Proof.
  intros Hden. rewrite <- denom_pair_sum in Hden.
  rewrite stress_quotient;
    [| unfold scale; now rewrite length_map | exact Hden].
  rewrite distances_scale, Rsum_sq_self_scale.
  do 2 f_equal.
  replace (sq (1 - Rabs c) * Rsum (map sq (distances X))
           / Rsum (map sq (distances X)))
    with (Rsqr (1 - Rabs c)) by (unfold Rsqr, sq; field; exact Hden).
  apply sqrt_Rsqr_abs.
Qed.

(** *** The order of the points *)

Lemma distances_pairwise (X : list (list R)) :
  distances X = pairwise l2 X.
Proof.
  induction X as [|u X IH]; simpl; [reflexivity | now rewrite IH].
Qed.

Lemma pairwise_map (B C : Type) (g : B -> C) (f : C -> C -> R) (Z : list B) :
  pairwise f (map g Z) = pairwise (fun p q => f (g p) (g q)) Z.
Proof.
  induction Z as [|z Z IH]; simpl; [reflexivity|].
  now rewrite IH, map_map.
Qed.

Lemma map2_app (a a' b b' : list R) (g : R -> R -> R) :
  length a = length b ->
  map2 g (a ++ a') (b ++ b') = map2 g a b ++ map2 g a' b'.
Proof.
  revert b; induction a as [|x a IH]; intros [|y b] E; simpl in *;
    try discriminate; [reflexivity|].
  f_equal. apply IH. now injection E.
Qed.

Lemma pairwise_length (B : Type) (f g : B -> B -> R) (Z : list B) :
  length (pairwise f Z) = length (pairwise g Z).
Proof.
  induction Z as [|z Z IH]; simpl; [reflexivity|].
  now rewrite !length_app, !length_map, IH.
Qed.

Lemma map2_pairwise (B : Type) (g : R -> R -> R) (f1 f2 : B -> B -> R)
      (Z : list B) :
  map2 g (pairwise f1 Z) (pairwise f2 Z)
  = pairwise (fun p q => g (f1 p q) (f2 p q)) Z.
Proof.
  induction Z as [|z Z IH]; simpl; [reflexivity|].
  rewrite map2_app by now rewrite !length_map.
  now rewrite IH, map2_map.
Qed.

Lemma map_pairwise (B : Type) (h : R -> R) (f : B -> B -> R) (Z : list B) :
  map h (pairwise f Z) = pairwise (fun p q => h (f p q)) Z.
Proof.
  induction Z as [|z Z IH]; simpl; [reflexivity|].
  now rewrite map_app, map_map, IH.
Qed.

Lemma Rsum_map_perm (B : Type) (f : B -> R) (l l' : list B) :
  Permutation l l' -> Rsum (map f l) = Rsum (map f l').
Proof.
  induction 1 as [|x l l' P IH|x y l|l l' l'' P1 IH1 P2 IH2]; simpl;
    [reflexivity | rewrite IH; reflexivity | lra | congruence].
Qed.

Lemma Rsum_cons (x : R) (l : list R) : Rsum (x :: l) = x + Rsum l.
Proof. reflexivity. Qed.

(** The sum of a symmetric [f] over the pairs does not depend on the order
    of the list. *)
Lemma Rsum_pairwise_perm (B : Type) (f : B -> B -> R) (Z Z' : list B) :
  (forall p q, f p q = f q p) ->
  Permutation Z Z' -> Rsum (pairwise f Z) = Rsum (pairwise f Z').
Proof.
  intros Hsym.
  induction 1 as [|x l l' P IH|x y l|l l' l'' P1 IH1 P2 IH2];
    cbn [pairwise map app].
  - reflexivity.
  - rewrite !Rsum_app, IH. f_equal. now apply Rsum_map_perm.
  - rewrite !Rsum_cons, !Rsum_app, (Hsym y x). lra.
  - congruence.
Qed.

Lemma l2_sym (u v : list R) : l2 u v = l2 v u.
Proof.
  unfold l2. f_equal.
  revert v; induction u as [|a u IH]; intros [|b v]; simpl; try reflexivity.
  rewrite IH. unfold sq. lra.
Qed.

Lemma map_fst_combine (B C : Type) (a : list B) (b : list C) :
  length a = length b -> map fst (combine a b) = a.
Proof.
  revert b; induction a as [|x a IH]; intros [|y b] E; simpl in *;
    try discriminate; [reflexivity|].
  f_equal. apply IH. now injection E.
Qed.

Lemma map_snd_combine (B C : Type) (a : list B) (b : list C) :
  length a = length b -> map snd (combine a b) = b.
Proof.
  revert b; induction a as [|x a IH]; intros [|y b] E; simpl in *;
    try discriminate; [reflexivity|].
  f_equal. apply IH. now injection E.
Qed.

(** Numerator and denominator as sums over the pairs of matched points. *)
Lemma numerator_matched (X_reduced X : list (list R)) :
  length X_reduced = length X ->
  Rsum (map sq (map2 Rminus (distances X) (distances X_reduced)))
  = Rsum (pairwise
            (fun p q => sq (l2 (snd p) (snd q) - l2 (fst p) (fst q)))
            (combine X_reduced X)).
Proof.
  intros E.
  rewrite <- (map_snd_combine _ _ X_reduced X E) at 1.
  rewrite <- (map_fst_combine _ _ X_reduced X E) at 2.
  rewrite !distances_pairwise, !pairwise_map, map2_pairwise, map_pairwise.
  reflexivity.
Qed.

Lemma denominator_matched (X_reduced X : list (list R)) :
  length X_reduced = length X ->
  Rsum (map sq (distances X))
  = Rsum (pairwise (fun p q => sq (l2 (snd p) (snd q)))
            (combine X_reduced X)).
Proof.
  intros E.
  rewrite <- (map_snd_combine _ _ X_reduced X E) at 1.
  rewrite distances_pairwise, pairwise_map, map_pairwise.
  reflexivity.
Qed.

(** X5. The points may come in any order, as long as it is the same order in
    both datasets: listing the matched pairs (reduced point, original
    point) differently gives the same result. *)
Theorem stress_reorder (X_reduced X X_reduced' X' : list (list R)) :
  length X_reduced = length X ->
  length X_reduced' = length X' ->
  Permutation (combine X_reduced X) (combine X_reduced' X') ->
  stress (inj X_reduced') (inj X') = stress (inj X_reduced) (inj X).
Proof.
  intros E E' P.
  rewrite (stress_fin _ _ E), (stress_fin _ _ E').
  rewrite (numerator_matched _ _ E), (numerator_matched _ _ E').
  rewrite (denominator_matched _ _ E), (denominator_matched _ _ E').
  rewrite (Rsum_pairwise_perm _
             (fun p q => sq (l2 (snd p) (snd q) - l2 (fst p) (fst q))) _ _
             (fun p q => f_equal sq
                (f_equal2 Rminus (l2_sym (snd p) (snd q))
                                 (l2_sym (fst p) (fst q)))) P).
  rewrite (Rsum_pairwise_perm _
             (fun p q => sq (l2 (snd p) (snd q))) _ _
             (fun p q => f_equal sq (l2_sym (snd p) (snd q))) P).
  reflexivity.
Qed.

(** *** Instances of the theorems above *)

Lemma stress_zero_iff_witness :
  length triangle = length triangle /\
  pair_sum (length triangle) (fun i j => sq (dist triangle i j)) <> 0 /\
  (stress (inj triangle) (inj triangle) = Return (Fin 0) <->
   forall i j, (i < j)%nat -> (j < length triangle)%nat ->
     dist triangle i j = dist triangle i j).
Proof.
  split; [reflexivity|]. split; [exact triangle_valid|].
  apply (stress_zero_iff triangle triangle); [reflexivity | exact triangle_valid].
Defined.

Lemma stress_collapsed_one_witness :
  length collapsed = length triangle /\
  (forall u v, In u collapsed -> In v collapsed -> u = v) /\
  pair_sum (length triangle) (fun i j => sq (dist triangle i j)) <> 0 /\
  stress (inj collapsed) (inj triangle) = Return (Fin 1).
Proof.
  split; [reflexivity|]. split; [exact collapsed_coincide|].
  split; [exact triangle_valid|].
  apply (stress_collapsed_one collapsed triangle);
    [reflexivity | exact collapsed_coincide | exact triangle_valid].
Defined.

Lemma two_nonzero : 2 <> 0.
Proof. lra. Qed.

Lemma stress_scale_invariant_witness :
  2 <> 0 /\
  length collapsed = length triangle /\
  stress (inj (scale 2 collapsed)) (inj (scale 2 triangle))
  = stress (inj collapsed) (inj triangle).
Proof.
  split; [exact two_nonzero|]. split; [reflexivity|].
  apply (stress_scale_invariant 2 collapsed triangle);
    [exact two_nonzero | reflexivity].
Defined.

Lemma stress_scaled_copy_witness :
  pair_sum (length triangle) (fun i j => sq (dist triangle i j)) <> 0 /\
  stress (inj (scale 2 triangle)) (inj triangle)
  = Return (Fin (Rabs (1 - Rabs 2))).
Proof.
  split; [exact triangle_valid|].
  apply (stress_scaled_copy 2 triangle). exact triangle_valid.
Defined.

Lemma stress_reorder_witness :
  length [[0]; [1]; [2]] = length triangle /\
  length [[1]; [0]; [2]] = length [[0; 3]; [0; 0]; [4; 0]] /\
  Permutation (combine [[0]; [1]; [2]] triangle)
              (combine [[1]; [0]; [2]] [[0; 3]; [0; 0]; [4; 0]]) /\
  stress (inj [[1]; [0]; [2]]) (inj [[0; 3]; [0; 0]; [4; 0]])
  = stress (inj [[0]; [1]; [2]]) (inj triangle).
Proof.
  split; [reflexivity|]. split; [reflexivity|].
  split; [apply perm_swap|].
  apply (stress_reorder [[0]; [1]; [2]] triangle
           [[1]; [0]; [2]] [[0; 3]; [0; 0]; [4; 0]]);
    [reflexivity | reflexivity | apply perm_swap].
Defined.

End ExactMore.

(** ** Shapes and poison, for any scalar type *)

Section Broadcast.

Context {A : Type} `{Scalar A}.

(** X6. The mirror image of C9: an original dataset of exactly two points is
    accepted against reduced data of more than two, its single distance [d]
    standing in for every original distance; the denominator is the one
    squared distance. *)
Theorem stress_broadcasts_original (X_reduced X : list (list A)) :
  length X = 2 ->
  2 < length X_reduced ->
  exists d : A,
    pdist X = [d] /\
    stress X_reduced X
    = Return (np_sqrt (np_divide
        (np_sum (np_square (map (fun e => fsub d e) (pdist X_reduced))))
        (np_sum (np_square [d])))).
Proof.
  intros HX Hr.
  destruct X as [|u [|v [|w X]]]; try discriminate.
  exists (euclidean u v). split; [reflexivity|].
  destruct X_reduced as [|a [|b [|c Xr]]]; simpl in Hr; try lia.
  reflexivity.
Qed.

Lemma np_subtract_same_length (a b : list A) :
  length a = length b -> np_subtract a b = Return (map2 fsub a b).
Proof.
  intros E. unfold np_subtract. apply Nat.eqb_eq in E. now rewrite E.
Qed.

End Broadcast.

Section Poison.

Context {A : Type} `{Scalar A}.

Variable bad : A.
Hypothesis add_bad_l : forall x, fadd bad x = bad.
Hypothesis add_bad_r : forall x, fadd x bad = bad.
Hypothesis sub_bad_l : forall x, fsub bad x = bad.
Hypothesis sub_bad_r : forall x, fsub x bad = bad.
Hypothesis mul_bad : fmul bad bad = bad.
Hypothesis div_bad_l : forall x, fdiv bad x = bad.
Hypothesis sqrt_bad : fsqrt bad = bad.

Lemma fold_sq_from_bad (l : list A) :
  fold_left (fun s d => fadd s (fmul d d)) l bad = bad.
Proof.
  induction l as [|x l IH]; simpl; [reflexivity|].
  now rewrite add_bad_l.
Qed.

Lemma fold_sq_bad (l : list A) (a : A) :
  In bad l -> fold_left (fun s d => fadd s (fmul d d)) l a = bad.
Proof.
  revert a; induction l as [|x l IH]; intros a Hin; [contradiction|].
  simpl. destruct Hin as [->|Hin].
  - rewrite mul_bad, add_bad_r. apply fold_sq_from_bad.
  - now apply IH.
Qed.

Lemma fold_add_from_bad (l : list A) : fold_left fadd l bad = bad.
Proof.
  induction l as [|x l IH]; simpl; [reflexivity|].
  now rewrite add_bad_l.
Qed.

Lemma np_sum_bad (l : list A) : In bad l -> np_sum l = bad.
Proof.
  unfold np_sum. generalize fzero.
  induction l as [|x l IH]; intros a Hin; [contradiction|].
  simpl. destruct Hin as [->|Hin].
  - rewrite add_bad_r. apply fold_add_from_bad.
  - now apply IH.
Qed.

Lemma map2_fsub_bad (a b : list A) :
  length a = length b -> In bad a \/ In bad b -> In bad (map2 fsub a b).
Proof.
  revert b; induction a as [|x a IH]; intros [|y b] E Hin; simpl in *;
    try discriminate.
  - destruct Hin; contradiction.
  - destruct Hin as [[->|Hin]|[->|Hin]].
    + left. apply sub_bad_l.
    + right. apply IH; [now injection E | now left].
    + left. apply sub_bad_r.
    + right. apply IH; [now injection E | now right].
Qed.

Lemma euclidean_bad (u v : list A) :
  length u = length v -> In bad u \/ In bad v -> euclidean u v = bad.
Proof.
  intros E Hin. unfold euclidean, sqeuclidean.
  rewrite fold_sq_bad by now apply map2_fsub_bad.
  apply sqrt_bad.
Qed.

(** A tainted dataset of two or more points has a tainted distance. *)
Lemma pdist_bad (X : list (list A)) :
  2 <= length X -> tainted bad X -> In bad (pdist X).
Proof.
  intros HN (u & Hu & Hbad & Hlen).
  rewrite Forall_forall in Hlen.
  induction X as [|w X IH]; [contradiction|].
  simpl. apply in_or_app.
  destruct Hu as [->|Hu].
  - left. destruct X as [|v X]; [simpl in HN; lia|].
    simpl. left. apply euclidean_bad; [|now left].
    symmetry. apply Hlen. right. now left.
  - left. apply in_map_iff. exists u. split; [|exact Hu].
    apply euclidean_bad; [|now right].
    apply Hlen. now left.
Qed.

Lemma np_square_bad (l : list A) : In bad l -> In bad (np_square l).
Proof.
  intros Hin. unfold np_square. apply in_map_iff. exists bad. now split.
Qed.

(** With an absorbing scalar (NaN) among the coordinates of either dataset,
    the result is that scalar. *)
Lemma stress_tainted (X_reduced X : list (list A)) :
  length X_reduced = length X ->
  2 <= length X ->
  tainted bad X \/ tainted bad X_reduced ->
  stress X_reduced X = Return bad.
Proof.
  intros E HN Ht. unfold stress.
  assert (L : length (pdist X) = length (pdist X_reduced))
    by (apply pdist_length_eq; now symmetry).
  rewrite (np_subtract_same_length _ _ L). cbn [bind].
  assert (Hin : In bad (map2 fsub (pdist X) (pdist X_reduced))).
  { apply map2_fsub_bad; [exact L|].
    destruct Ht as [Ht|Ht]; [left | right]; apply pdist_bad; auto.
    now rewrite E. }
  rewrite (np_sum_bad _ (np_square_bad _ Hin)).
  unfold np_divide, np_sqrt. now rewrite div_bad_l, sqrt_bad.
Qed.

End Poison.

(** ** Edge behaviour on binary64 *)

Section DoublesMore.

Import Binary64.
Local Open Scope float_scope.

Lemma Prim2SF_nan : Prim2SF nan = S754_nan.
Proof. reflexivity. Qed.

Lemma nan_add_l (x : float) : nan + x = nan.
Proof. apply Prim2SF_inj. now rewrite add_spec, Prim2SF_nan. Qed.

Lemma nan_add_r (x : float) : x + nan = nan.
Proof.
  apply Prim2SF_inj. rewrite add_spec, Prim2SF_nan.
  now destruct (Prim2SF x).
Qed.

Lemma nan_sub_l (x : float) : nan - x = nan.
Proof. apply Prim2SF_inj. now rewrite sub_spec, Prim2SF_nan. Qed.

Lemma nan_sub_r (x : float) : x - nan = nan.
Proof.
  apply Prim2SF_inj. rewrite sub_spec, Prim2SF_nan.
  now destruct (Prim2SF x).
Qed.

Lemma nan_div_l (x : float) : nan / x = nan.
Proof. apply Prim2SF_inj. now rewrite div_spec, Prim2SF_nan. Qed.

(** X7. Missing data spoils the metric: one NaN coordinate in either dataset,
    and the value returned is NaN. *)
Theorem stress_nan_binary64 (X_reduced X : list (list float)) :
  length X_reduced = length X ->
  (2 <= length X)%nat ->
  tainted nan X \/ tainted nan X_reduced ->
  stress X_reduced X = Return nan.
Proof.
  apply (stress_tainted nan);
    [exact nan_add_l | exact nan_add_r | exact nan_sub_l | exact nan_sub_r
     | reflexivity | exact nan_div_l | reflexivity].
Qed.

Lemma tainted_example : tainted nan [[0; nan]; [1; 2]].
Proof.
  exists [0; nan]. split; [now left|]. split; [right; now left|].
  repeat constructor.
Qed.

Lemma stress_nan_binary64_witness :
  length [[0; 0]; [3; 4]] = length [[0; nan]; [1; 2]] /\
  (2 <= length ([[0; nan]; [1; 2]]%float))%nat /\
  (tainted nan [[0; nan]; [1; 2]] \/ tainted nan [[0; 0]; [3; 4]]) /\
  stress [[0; 0]; [3; 4]] [[0; nan]; [1; 2]] = Return nan.
Proof.
  split; [reflexivity|]. split; [simpl; lia|].
  split; [left; exact tainted_example|].
  apply (stress_nan_binary64 [[0; 0]; [3; 4]] [[0; nan]; [1; 2]]);
    [reflexivity | simpl; lia | left; exact tainted_example].
Defined.

(** X8. Fewer than two points on both sides: no pair, two empty sums, and the
    value returned is NaN, not an error. *)
Theorem stress_no_pairs_binary64 (X_reduced X : list (list float)) :
  (length X_reduced < 2)%nat ->
  (length X < 2)%nat ->
  stress X_reduced X = Return nan.
Proof.
  intros Lr L. now rewrite (stress_no_pairs X_reduced X Lr L).
Qed.

Lemma stress_no_pairs_binary64_witness :
  (length ([[1; 2]]%float) < 2)%nat /\
  (length (@nil (list float)) < 2)%nat /\
  stress [[1; 2]] [] = Return nan.
Proof.
  split; [simpl; lia|]. split; [simpl; lia|].
  apply (stress_no_pairs_binary64 [[1; 2]] []); simpl; lia.
Defined.

Lemma triangle_finite :
  Forall (fun d => is_finite d = true) (pdist triangle).
Proof. vm_compute. repeat constructor. Qed.

Lemma stress_identity_binary64_witness :
  Forall (fun d => is_finite d = true) (pdist triangle) /\
  (0 <? np_sum (np_square (pdist triangle))) = true /\
  stress triangle triangle = Return 0.
Proof.
  split; [exact triangle_finite|]. split; [vm_compute; reflexivity|].
  apply (stress_identity_binary64 triangle);
    [exact triangle_finite | vm_compute; reflexivity].
Defined.

Lemma stress_not_negative_binary64_witness :
  stress collapsed triangle = Return 1 /\ (1 <? 0) = false.
Proof.
  split; [vm_compute; reflexivity|].
  apply (stress_not_negative_binary64 collapsed triangle 1).
  vm_compute. reflexivity.
Defined.

End DoublesMore.

(** ** What the claims come to on binary64 *)

Section DoublesSigns.

Import Binary64.
Local Open Scope float_scope.

Lemma Prim2SF_infinity : Prim2SF infinity = S754_infinity false.
Proof. reflexivity. Qed.

(** A double that is not finite is NaN or an infinity. *)
Lemma Prim2SF_not_finite (x : float) :
  is_finite x = false ->
  Prim2SF x = S754_nan \/ exists s, Prim2SF x = S754_infinity s.
Proof.
  unfold is_finite, is_nan, is_infinity. intros Hf.
  apply negb_false_iff, orb_true_iff in Hf.
  rewrite !eqb_spec, abs_spec, Prim2SF_infinity in Hf.
  destruct (Prim2SF x) as [s| s | | s m e]; eauto; exfalso;
    destruct Hf as [Hf|Hf]; try discriminate Hf.
  - apply negb_true_iff in Hf. unfold SFeqb, SFcompare in Hf.
    rewrite Z.compare_refl, Pos.compare_cont_refl in Hf.
    destruct s; discriminate Hf.
Qed.

(** An overflowed (or missing) distance minus itself is NaN. *)
Lemma sub_diag_not_finite (x : float) : is_finite x = false -> x - x = nan.
Proof.
  intros Hf. apply Prim2SF_inj. rewrite sub_spec.
  destruct (Prim2SF_not_finite x Hf) as [E|[s E]]; rewrite E;
    [reflexivity | now destruct s].
Qed.

Lemma binary_round_aux_sign (s : bool) (m e : Z) (l : location) :
  SFltb (binary_round_aux prec emax s m e l) (S754_zero false) = true ->
  s = true.
Proof.
  unfold binary_round_aux.
  destruct (shr_fexp _ _ _ _ _) as [mrs' e'].
  destruct (shr_fexp _ _ _ _ _) as [mrs'' e''].
  destruct (shr_m mrs''); try discriminate.
  destruct (Z.leb _ _); destruct s; try discriminate; reflexivity.
Qed.

Lemma mul_self_not_negative (x : float) : (x * x <? 0) = false.
Proof.
  rewrite ltb_spec, mul_spec, Prim2SF_zero.
  destruct (Prim2SF x) as [s| s | | s m e]; try reflexivity;
    try (destruct s; reflexivity).
  unfold SF64mul, SFmul.
  destruct (SFltb _ _) eqn:E; [|reflexivity].
  apply binary_round_aux_sign in E. now destruct s.
Qed.

Lemma add_not_negative (x y : float) :
  (x <? 0) = false -> (y <? 0) = false -> (x + y <? 0) = false.
Proof.
  rewrite !ltb_spec, add_spec, Prim2SF_zero.
  destruct (Prim2SF x) as [sx| sx | | sx mx ex];
    destruct (Prim2SF y) as [sy| sy | | sy my ey];
    try (destruct sx); try (destruct sy); try reflexivity;
    try discriminate.
  intros _ _. unfold SF64add, SFadd. cbv zeta.
  cbn [cond_Zopp].
  change (Z.pos ?a + Z.pos ?b)%Z with (Z.pos (a + b)).
  unfold binary_normalize, binary_round.
  destruct (shl_align _ _ _) as [mz ez].
  destruct (SFltb _ _) eqn:E; [|reflexivity].
  apply binary_round_aux_sign in E. discriminate.
Qed.

Lemma fold_add_not_negative (l : list float) (a : float) :
  (a <? 0) = false ->
  Forall (fun x => (x <? 0) = false) l ->
  (fold_left PrimFloat.add l a <? 0) = false.
Proof.
  intros Ha Hl. revert a Ha.
  induction Hl as [|x l Hx Hl IH]; intros a Ha; simpl; [exact Ha|].
  apply IH. now apply add_not_negative.
Qed.

Lemma np_sum_not_negative (l : list float) :
  Forall (fun x => (x <? 0) = false) l -> (np_sum l <? 0) = false.
Proof. apply fold_add_not_negative. reflexivity. Qed.

Lemma np_square_not_negative (l : list float) :
  Forall (fun x => (x <? 0) = false) (np_square l).
Proof.
  unfold np_square. apply Forall_forall. intros y Hy.
  apply in_map_iff in Hy. destruct Hy as (x & <- & _).
  apply mul_self_not_negative.
Qed.

(** Zero over a denominator that is neither negative nor positive. *)
Lemma div_zero_not_pos (d : float) :
  (d <? 0) = false -> (0 <? d) = false -> 0 / d = nan.
Proof.
  rewrite !ltb_spec. intros Hn Hp. apply Prim2SF_inj.
  rewrite div_spec. rewrite Prim2SF_zero in *.
  destruct (Prim2SF d) as [s| s | | s m e]; try reflexivity;
    destruct s; discriminate.
Qed.

(** A numerator over the zero denominator, and the root of that. *)
Lemma sqrt_div_zero (n : float) :
  sqrt (n / 0) = if 0 <? n then infinity else nan.
Proof.
  rewrite ltb_spec. apply Prim2SF_inj.
  rewrite sqrt_spec, div_spec, Prim2SF_zero.
  destruct (Prim2SF n) as [s| s | | s m e]; try (destruct s); reflexivity.
Qed.

Lemma sqrt_nan_or_nonneg (x : float) :
  is_nan (sqrt x) = true \/ (0 <=? sqrt x) = true.
Proof.
  unfold is_nan. rewrite leb_spec, eqb_spec, sqrt_spec, Prim2SF_zero.
  destruct (Prim2SF x) as [s| s | | s m e]; try (destruct s);
    try (now left); try (now right).
  unfold SF64sqrt, SFsqrt.
  destruct (SFsqrt_core_binary _ _ _ _) as [[mz ez] lz].
  unfold binary_round_aux.
  destruct (shr_fexp _ _ _ _ _) as [mrs' e'].
  destruct (shr_fexp _ _ _ _ _) as [mrs'' e''].
  destruct (shr_m mrs''); try (now left); try (now right).
  destruct (Z.leb _ _); now right.
Qed.

Lemma map2_fsub_diag_nan (l : list float) :
  forallb is_finite l = false -> In nan (map2 fsub l l).
Proof.
  induction l as [|x l IH]; [discriminate|].
  cbn [forallb map2]. intros Hf. apply andb_false_iff in Hf.
  destruct Hf as [Hx|Hl]; [left | right; now apply IH].
  exact (sub_diag_not_finite x Hx).
Qed.

Lemma np_sum_square_nan (l : list float) :
  In nan l -> np_sum (np_square l) = nan.
Proof.
  intros Hin.
  apply (@np_sum_bad float float_scalar nan nan_add_l nan_add_r).
  apply (@np_square_bad float float_scalar nan eq_refl). exact Hin.
Qed.

(** C4, as the code has it.  A dataset compared against itself never
    raises, and on binary64 there are two values it can give.  It is +0
    when every pairwise distance is finite and the denominator is a
    positive number; it is NaN when a distance has overflowed (infinity
    minus infinity), when a coordinate is missing, and when the denominator
    is zero. *)
Theorem stress_self_binary64 (X : list (list float)) :
  stress X X
  = Return (if forallb is_finite (pdist X)
               && (0 <? np_sum (np_square (pdist X)))
            then 0 else nan).
Proof.
  unfold stress, np_subtract. rewrite Nat.eqb_refl. cbn [bind].
  unfold np_divide, np_sqrt. f_equal.
  destruct (forallb is_finite (pdist X)) eqn:Hfin; cbn [andb].
  - assert (HF : Forall (fun d => is_finite d = true) (pdist X))
      by (apply Forall_forall; now apply forallb_forall).
    rewrite (map2_fsub_diag _ HF), np_sum_zeros.
    change (sqrt (0 / np_sum (np_square (pdist X)))
            = if 0 <? np_sum (np_square (pdist X)) then 0 else nan).
    destruct (0 <? np_sum (np_square (pdist X))) eqn:Hden.
    + now rewrite (div_zero_pos _ Hden).
    + rewrite (div_zero_not_pos _
                 (np_sum_not_negative _ (np_square_not_negative _)) Hden).
      reflexivity.
  - rewrite (np_sum_square_nan _ (map2_fsub_diag_nan _ Hfin)).
    change (sqrt (nan / np_sum (np_square (pdist X))) = nan).
    now rewrite nan_div_l.
Qed.

(** *** Coinciding points *)

Lemma sqeuclidean_diag (u : list float) :
  Forall (fun c => is_finite c = true) u -> sqeuclidean u u = 0.
Proof.
  intros Hu. unfold sqeuclidean. rewrite (map2_fsub_diag _ Hu).
  simpl fzero. induction u as [|c u IH]; simpl; [reflexivity|].
  apply IH. now inversion Hu.
Qed.

Lemma pdist_coincide (X : list (list float)) (p : list float) :
  Forall (fun c => is_finite c = true) p ->
  (forall u, In u X -> u = p) ->
  pdist X = map (fun _ => 0) (pdist X).
Proof.
  intros Hp HX. induction X as [|u X IH]; [reflexivity|].
  cbn [pdist]. rewrite map_app, map_map. f_equal.
  - apply map_ext_in. intros v Hv.
    rewrite (HX u (or_introl eq_refl)), (HX v (or_intror Hv)).
    unfold euclidean. now rewrite (sqeuclidean_diag p Hp).
  - apply IH. intros v Hv. apply HX. now right.
Qed.

Lemma map2_fsub_zeros (B : Type) (z : list B) (l : list float) :
  length z = length l ->
  map2 fsub (map (fun _ => 0) z) l = map (fun e => 0 - e) l.
Proof.
  revert l. induction z as [|b z IH]; intros [|e l] E; try discriminate;
    [reflexivity|].
  cbn [map map2]. f_equal. apply IH. now injection E.
Qed.

(** C2, as the code has it.  When all N >= 2 points of the original dataset
    are one point of finite coordinates, binary64 computes 0 for every
    original distance and 0 for the denominator, and [stress] raises
    nothing: the value is +infinity when the numerator it has computed is
    positive, and NaN when that numerator is 0 (the reduced distances are 0,
    or so small that their squares are rounded to 0) or NaN. *)
Theorem stress_degenerate_binary64 (X_reduced X : list (list float))
        (p : list float) :
  length X_reduced = length X ->
  (2 <= length X)%nat ->
  Forall (fun c => is_finite c = true) p ->
  (forall u, In u X -> u = p) ->
  let numerator :=
    np_sum (np_square (map (fun e => 0 - e) (pdist X_reduced))) in
  Forall (fun d => d = 0) (pdist X) /\
  np_sum (np_square (pdist X)) = 0 /\
  stress X_reduced X = Return (if 0 <? numerator then infinity else nan).
Proof.
  intros E _ Hp HX numerator.
  pose proof (pdist_coincide X p Hp HX) as HD.
  assert (L : length (pdist X) = length (pdist X_reduced))
    by (apply pdist_length_eq; now symmetry).
  split; [|split].
  - rewrite HD. apply Forall_forall. intros d Hd.
    apply in_map_iff in Hd. now destruct Hd as (? & <- & _).
  - rewrite HD. apply np_sum_zeros.
  - unfold stress. rewrite (np_subtract_same_length _ _ L). cbn [bind].
    rewrite HD at 1 2. rewrite np_sum_zeros.
    rewrite (map2_fsub_zeros _ _ _ L).
    unfold np_divide, np_sqrt. f_equal.
    exact (sqrt_div_zero numerator).
Qed.

(** C5, as the code has it.  For datasets of one point count [stress]
    returns a double that is NaN or at least 0, +infinity included: never a
    negative number, but not always a real number either. *)
Theorem stress_sign_binary64 (X_reduced X : list (list float)) :
  length X_reduced = length X ->
  exists v : float,
    stress X_reduced X = Return v /\
    (is_nan v = true \/ (0 <=? v) = true).
Proof.
  intros E. unfold stress.
  assert (L : length (pdist X) = length (pdist X_reduced))
    by (apply pdist_length_eq; now symmetry).
  rewrite (np_subtract_same_length _ _ L). cbn [bind].
  eexists. split; [reflexivity|]. apply sqrt_nan_or_nonneg.
Qed.

Lemma ones_coincide (u : list float) : In u [[1]; [1]] -> u = [1].
Proof. simpl. intuition congruence. Qed.

Lemma one_finite : Forall (fun c => is_finite c = true) [1].
Proof. repeat constructor. Qed.

Lemma stress_degenerate_binary64_witness :
  length [[0]; [1]] = length [[1]; [1]] /\
  (2 <= length ([[1]; [1]]%float))%nat /\
  Forall (fun c => is_finite c = true) [1] /\
  (forall u, In u [[1]; [1]] -> u = [1]) /\
  (let numerator :=
     np_sum (np_square (map (fun e => 0 - e) (pdist [[0]; [1]]))) in
   Forall (fun d => d = 0) (pdist [[1]; [1]]) /\
   np_sum (np_square (pdist [[1]; [1]])) = 0 /\
   stress [[0]; [1]] [[1]; [1]]
   = Return (if 0 <? numerator then infinity else nan)).
Proof.
  split; [reflexivity|]. split; [simpl; lia|].
  split; [exact one_finite|]. split; [exact ones_coincide|].
  apply (stress_degenerate_binary64 [[0]; [1]] [[1]; [1]] [1]);
    [reflexivity | simpl; lia | exact one_finite | exact ones_coincide].
Defined.

Lemma stress_sign_binary64_witness :
  length [[0]; [1]] = length [[0]; [2]] /\
  exists v : float,
    stress [[0]; [1]] [[0]; [2]] = Return v /\
    (is_nan v = true \/ (0 <=? v) = true).
Proof.
  split; [reflexivity|].
  apply (stress_sign_binary64 [[0]; [1]] [[0]; [2]]). reflexivity.
Defined.

(** The cases of C2 and C4 on data: squares that underflow, a denominator
    that overflows. *)
Lemma stress_degenerate_underflow :
  stress [[0]; [0x1p-600]] [[1]; [1]] = Return nan.
Proof. vm_compute. reflexivity. Qed.

Lemma stress_self_examples :
  stress triangle triangle = Return 0 /\
  stress [[0]; [0x1p600]] [[0]; [0x1p600]] = Return nan /\
  stress [[1]; [1]] [[1]; [1]] = Return nan.
Proof. repeat split; vm_compute; reflexivity. Qed.

End DoublesSigns.

(** ** Where exact arithmetic and binary64 part *)

Section Rounded.

Import Binary64 Ideal Rounding.
Local Open Scope R_scope.

Lemma to_R_positive (x : float) (m : positive) (e : Z) :
  Prim2SF x = S754_finite false m e -> (0 < to_R x)%R.
Proof.
  intros E. unfold to_R. rewrite E.
  apply Rmult_lt_0_compat; [now apply IZR_lt | apply powerRZ_lt; lra].
Qed.

Lemma rot3_isometry : isometry 3 rot3.
Proof.
  intros [|x1 [|y1 [|z1 [|? ?]]]] [|x2 [|y2 [|z2 [|? ?]]]] Hu Hv;
    try discriminate.
  split; [reflexivity|].
  unfold l2. f_equal. simpl. unfold sq. ring.
Qed.

Lemma far_positive : (0 < to_R 0x1p600)%R.
Proof. now apply (to_R_positive _ 4503599627370496 548). Qed.

Lemma reals_far_pair : reals far_pair = [[0%R]; [to_R 0x1p600]].
Proof. reflexivity. Qed.

Lemma reals_origin_pair : reals origin_pair = [[0%R]; [0%R]].
Proof. reflexivity. Qed.

Lemma reals_unit_pair : reals unit_pair = [[0%R]; [to_R 1]].
Proof. reflexivity. Qed.

Lemma far_pair_valid :
  pair_sum (length far_pair) (fun i j => sq (dist (reals far_pair) i j))
  <> 0%R.
Proof.
  rewrite reals_far_pair. apply pair_valid.
  pose proof far_positive. lra.
Qed.

Lemma unit_pair_valid :
  pair_sum (length unit_pair) (fun i j => sq (dist (reals unit_pair) i j))
  <> 0%R.
Proof.
  rewrite reals_unit_pair. apply pair_valid.
  pose proof (to_R_positive 1 4503599627370496 (-52) eq_refl). lra.
Qed.

(** Two points on a line against two points in one place: the formula
    gives 1. *)
Lemma pair_collapsed_formula (a : R) :
  a <> 0%R ->
  R_sqrt.sqrt
    (pair_sum 2 (fun i j => sq (dist [[0]; [a]] i j - dist [[0]; [0]] i j))
     / pair_sum 2 (fun i j => sq (dist [[0]; [a]] i j)))%R = 1%R.
Proof.
  intros Ha. unfold pair_sum, dist. simpl.
  rewrite l2_diag, Rminus_0_r.
  assert (Hq : sq (l2 [0%R] [a]) <> 0%R).
  { rewrite sq_l2. simpl. unfold sq. nra. }
  replace ((sq (l2 [0] [a]) + 0 + (0 + 0)) / (sq (l2 [0] [a]) + 0 + (0 + 0)))%R
    with 1%R by (field; exact Hq).
  apply sqrt_1.
Qed.

(** C1 as stated fails on binary64.  Two points [2 ^ 600] apart against two
    points in one place are a valid input and the formula gives 1, but the
    squared distance overflows and the value returned is NaN. *)
Lemma stress_formula_counterexample :
  length origin_pair = length far_pair /\
  (2 <= length far_pair)%nat /\
  pair_sum (length far_pair) (fun i j => sq (dist (reals far_pair) i j))
  <> 0%R /\
  R_sqrt.sqrt
    (pair_sum (length far_pair)
       (fun i j => sq (dist (reals far_pair) i j
                       - dist (reals origin_pair) i j))
     / pair_sum (length far_pair)
         (fun i j => sq (dist (reals far_pair) i j)))%R = 1%R /\
  stress origin_pair far_pair = Return nan.
Proof.
  split; [reflexivity|]. split; [simpl; lia|].
  split; [exact far_pair_valid|]. split.
  - rewrite reals_far_pair, reals_origin_pair.
    apply pair_collapsed_formula. pose proof far_positive. lra.
  - vm_compute. reflexivity.
Qed.

(** C4 as stated fails on binary64: the distance of the two far points is
    computed as infinity, and infinity minus infinity is NaN. *)
Lemma stress_identity_counterexample :
  (2 <= length far_pair)%nat /\
  pair_sum (length far_pair) (fun i j => sq (dist (reals far_pair) i j))
  <> 0%R /\
  pdist far_pair = [infinity]%float /\
  stress far_pair far_pair = Return nan /\
  stress far_pair far_pair <> Return 0%float.
Proof.
  split; [simpl; lia|]. split; [exact far_pair_valid|].
  split; [vm_compute; reflexivity|].
  split; [vm_compute; reflexivity|].
  vm_compute. discriminate.
Qed.

(** C5 as stated fails on binary64: valid inputs for which the value is
    NaN, and, the other way round, +infinity. *)
Lemma stress_nonneg_counterexample :
  length unit_pair = length far_pair /\
  (2 <= length far_pair)%nat /\
  pair_sum (length far_pair) (fun i j => sq (dist (reals far_pair) i j))
  <> 0%R /\
  pair_sum (length unit_pair) (fun i j => sq (dist (reals unit_pair) i j))
  <> 0%R /\
  stress unit_pair far_pair = Return nan /\
  stress far_pair unit_pair = Return infinity.
Proof.
  split; [reflexivity|]. split; [simpl; lia|].
  split; [exact far_pair_valid|]. split; [exact unit_pair_valid|].
  split; vm_compute; reflexivity.
Qed.

Lemma reals_slanted_pair :
  reals slanted_pair
  = [[0; 0; 0]; [to_R 872415233; to_R 662700033; to_R 19]]%R.
Proof. reflexivity. Qed.

Lemma reals_far_slanted_pair :
  reals far_slanted_pair = [[0; 0; 0]; [to_R 0x1p600; to_R 1; 0]]%R.
Proof. reflexivity. Qed.

Lemma space_pair_valid (a b c : R) :
  (0 < a)%R ->
  pair_sum 2 (fun i j => sq (dist [[0; 0; 0]; [a; b; c]] i j)) <> 0%R.
Proof.
  intros Ha. unfold pair_sum, dist. simpl. rewrite sq_l2. simpl.
  unfold sq. nra.
Qed.

Lemma slanted_pair_valid :
  pair_sum (length slanted_pair)
    (fun i j => sq (dist (reals slanted_pair) i j)) <> 0%R.
Proof.
  rewrite reals_slanted_pair. apply space_pair_valid.
  now apply (to_R_positive _ 7318349402865664 (-23)).
Qed.

Lemma far_slanted_pair_valid :
  pair_sum (length far_slanted_pair)
    (fun i j => sq (dist (reals far_slanted_pair) i j)) <> 0%R.
Proof.
  rewrite reals_far_slanted_pair. apply space_pair_valid.
  exact far_positive.
Qed.

Lemma reals_spatial (X : list (list float)) :
  Forall (fun u => length u = 3%nat) X ->
  Forall (fun u => length u = 3%nat) (reals X).
Proof.
  intros HX. unfold reals. apply Forall_forall. intros u Hu.
  apply in_map_iff in Hu. destruct Hu as (v & <- & Hv).
  rewrite length_map. rewrite Forall_forall in HX. now apply HX.
Qed.

Lemma reals_rot3 (X : list (list float)) :
  reals (map rot3 X) = map rot3 (reals X).
Proof.
  unfold reals. rewrite !map_map. apply map_ext.
  intros [|x [|y [|z [|? ?]]]]; reflexivity.
Qed.

(** The distances of a dataset moved by an isometry, pair by pair. *)
Lemma dist_map_isometry (D : nat) (T : list R -> list R) (X : list (list R))
      (i j : nat) :
  isometry D T -> Forall (fun u => length u = D) X ->
  (i < length X)%nat -> (j < length X)%nat ->
  dist (map T X) i j = dist X i j.
Proof.
  intros HT HX Hi Hj. unfold dist.
  rewrite (nth_indep _ [] (T []))
    by (rewrite length_map; exact Hi).
  rewrite (nth_indep (map T X) [] (T []))
    by (rewrite length_map; exact Hj).
  rewrite !map_nth. rewrite Forall_forall in HX.
  apply HT; apply HX; now apply nth_In.
Qed.

Lemma slanted_spatial : Forall (fun u => length u = 3%nat) slanted_pair.
Proof. repeat constructor. Qed.

Lemma far_slanted_spatial : Forall (fun u => length u = 3%nat) far_slanted_pair.
Proof. repeat constructor. Qed.

(** C7 as stated fails on binary64.  The turned copy of [slanted_pair]
    keeps the distance exactly, so its error is that of the untouched copy,
    pair by pair; the rounded sums of squares differ in the last place, and
    it has the larger stress.  And against [far_pair] as the original even
    the exact copy has no stress to compare: both values are NaN, which is
    not at most anything. *)
Lemma stress_monotone_counterexample :
  (let X := slanted_pair in
   let reduced_A := map rot3 slanted_pair in
   let reduced_B := slanted_pair in
   (2 <= length X)%nat /\
   pair_sum (length X) (fun i j => sq (dist (reals X) i j)) <> 0 /\
   length reduced_A = length X /\
   length reduced_B = length X /\
   (forall i j, (i < j)%nat -> (j < length X)%nat ->
      sq (dist (reals X) i j - dist (reals reduced_A) i j)
      <= sq (dist (reals X) i j - dist (reals reduced_B) i j)) /\
   stress reduced_A X = Return 0x1.f5cc3171d6aa5p-53%float /\
   stress reduced_B X = Return 0%float /\
   (0x1.f5cc3171d6aa5p-53 <=? 0)%float = false) /\
  (let X := far_pair in
   let reduced_A := far_pair in
   let reduced_B := unit_pair in
   (2 <= length X)%nat /\
   pair_sum (length X) (fun i j => sq (dist (reals X) i j)) <> 0 /\
   length reduced_A = length X /\
   length reduced_B = length X /\
   (forall i j, (i < j)%nat -> (j < length X)%nat ->
      sq (dist (reals X) i j - dist (reals reduced_A) i j)
      <= sq (dist (reals X) i j - dist (reals reduced_B) i j)) /\
   stress reduced_A X = Return nan /\
   stress reduced_B X = Return nan /\
   (nan <=? nan)%float = false).
Proof.
  cbv zeta. split.
  - split; [simpl; lia|]. split; [exact slanted_pair_valid|].
    split; [reflexivity|]. split; [reflexivity|].
    split.
    + intros i j Hi Hj.
      rewrite reals_rot3.
      rewrite (dist_map_isometry 3 rot3 _ i j rot3_isometry
                 (reals_spatial _ slanted_spatial))
        by (unfold reals; rewrite length_map; lia).
      apply Rle_refl.
    + repeat split; vm_compute; reflexivity.
  - split; [simpl; lia|]. split; [exact far_pair_valid|].
    split; [reflexivity|]. split; [reflexivity|].
    split.
    + intros i j _ _. unfold sq at 1. rewrite Rminus_diag, Rmult_0_l.
      apply (Rle_0_sqr (dist (reals far_pair) i j
                        - dist (reals unit_pair) i j)).
    + repeat split; vm_compute; reflexivity.
Qed.

(** C8 as stated fails on binary64.  [rot3] keeps every distance, and on
    doubles it moves the coordinates without rounding; the value is not 0
    for the slanted pair (the sums of squares round differently) and NaN
    for the far pair (both distances overflow). *)
Lemma stress_isometry_counterexample :
  Forall (fun u => length u = 3%nat) (reals slanted_pair) /\
  Forall (fun u => length u = 3%nat) (reals far_slanted_pair) /\
  isometry 3 rot3 /\
  (2 <= length slanted_pair)%nat /\
  (2 <= length far_slanted_pair)%nat /\
  pair_sum (length slanted_pair)
    (fun i j => sq (dist (reals slanted_pair) i j)) <> 0 /\
  pair_sum (length far_slanted_pair)
    (fun i j => sq (dist (reals far_slanted_pair) i j)) <> 0 /\
  reals (map rot3 slanted_pair) = map rot3 (reals slanted_pair) /\
  reals (map rot3 far_slanted_pair) = map rot3 (reals far_slanted_pair) /\
  stress (map rot3 slanted_pair) slanted_pair
  = Return 0x1.f5cc3171d6aa5p-53%float /\
  stress (map rot3 far_slanted_pair) far_slanted_pair = Return nan /\
  0x1.f5cc3171d6aa5p-53%float <> 0%float.
Proof.
  split; [exact (reals_spatial _ slanted_spatial)|].
  split; [exact (reals_spatial _ far_slanted_spatial)|].
  split; [exact rot3_isometry|].
  split; [simpl; lia|]. split; [simpl; lia|].
  split; [exact slanted_pair_valid|].
  split; [exact far_slanted_pair_valid|].
  split; [apply reals_rot3|]. split; [apply reals_rot3|].
  split; [vm_compute; reflexivity|].
  split; [vm_compute; reflexivity|].
  discriminate.
Qed.

End Rounded.

(** * The summary statistics: [mean_mode] *)

Section SummaryShape.

Context {A : Type} `{Scalar A} `{Count A}.

Lemma column_stack_map (B : Type) (f g : B -> A) (l : list B) :
  column_stack (map f l) (map g l) = map (fun a => [f a; g a]) l.
Proof.
  unfold column_stack.
  induction l as [|x l IH]; simpl; [reflexivity | now rewrite IH].
Qed.

Lemma mean_mode_rows (X : list (list A)) :
  mean_mode X = map (fun a => [np_mean a; np_std a]) X.
Proof. unfold mean_mode. apply column_stack_map. Qed.

(** X11. [mean_mode] keeps the number of points and returns two columns, so the
    call [stress(mean_mode(X), X)] of the notebook cannot fail on a shape
    mismatch: it returns a value for every array [X]. *)
Theorem stress_mean_mode_returns (X : list (list A)) :
  length (mean_mode X) = length X /\
  Forall (fun r => length r = 2) (mean_mode X) /\
  exists v : A, stress (mean_mode X) X = Return v.
Proof.
  rewrite mean_mode_rows. split; [apply length_map|]. split.
  - apply Forall_forall. intros r Hr. apply in_map_iff in Hr.
    destruct Hr as (a & <- & _). reflexivity.
  - unfold stress.
    rewrite np_subtract_same_length
      by (apply pdist_length_eq; now rewrite length_map).
    cbn [bind]. eexists. reflexivity.
Qed.

End SummaryShape.

Section SummaryExact.

Import Ideal Stats.
Local Open Scope R_scope.

Lemma INR_length_nonzero (a : list R) : a <> [] -> INR (length a) <> 0.
Proof.
  intros Ha. apply not_0_INR. destruct a; [contradiction | discriminate].
Qed.

Lemma INR_length_pos (a : list R) : a <> [] -> 0 < INR (length a).
Proof.
  intros Ha. apply lt_0_INR. destruct a; [contradiction | simpl; lia].
Qed.

Lemma np_mean_fin (a : list R) :
  a <> [] -> np_mean (map Fin a) = Fin (mean a).
Proof.
  intros Ha. unfold np_mean, np_divide.
  rewrite np_sum_fin, length_map. simpl of_count.
  now rewrite xdiv_fin by now apply INR_length_nonzero.
Qed.

Lemma var_nonneg (a : list R) (m : R) :
  a <> [] -> 0 <= Rsum (map (fun x => sq (x - m)) a) / INR (length a).
Proof.
  intros Ha. apply Rmult_le_pos.
  - apply Rsum_nonneg. intros x _. apply sq_nonneg.
  - left. apply Rinv_0_lt_compat. now apply INR_length_pos.
Qed.

Lemma np_std_fin (a : list R) :
  a <> [] -> np_std (map Fin a) = Fin (std a).
Proof.
  intros Ha. unfold np_std. cbv zeta.
  rewrite (np_mean_fin a Ha), map_map.
  replace (map (fun x => fsub (Fin x) (Fin (mean a))) a)
    with (map Fin (map (fun x => x - mean a) a))
    by (rewrite map_map; reflexivity).
  rewrite np_square_fin, np_sum_fin, length_map, map_map.
  unfold np_divide, np_sqrt. simpl of_count.
  rewrite xdiv_fin by now apply INR_length_nonzero.
  rewrite xsqrt_fin by now apply var_nonneg.
  reflexivity.
Qed.

(** X12. On points with at least one finite coordinate each, [mean_mode] returns
    for every point its mean and its population standard deviation (the
    sum of squared deviations over the count, not over the count less one). *)
Theorem mean_mode_statistics (X : list (list R)) :
  Forall (fun a => a <> []) X ->
  mean_mode (inj X) = map (fun a => [Fin (mean a); Fin (std a)]) X.
Proof.
  intros HX. rewrite mean_mode_rows. unfold inj. rewrite map_map.
  apply map_ext_in. intros a Ha.
  rewrite Forall_forall in HX.
  now rewrite (np_mean_fin a (HX a Ha)), (np_std_fin a (HX a Ha)).
Qed.

Lemma Rsum_bounds (lo hi : R) (a : list R) :
  (forall x, In x a -> lo <= x <= hi) ->
  INR (length a) * lo <= Rsum a <= INR (length a) * hi.
Proof.
  induction a as [|x a IH]; intros Hb.
  - simpl. lra.
  - rewrite Rsum_cons. change (length (x :: a)) with (S (length a)).
    rewrite S_INR.
    assert (lo <= x <= hi) by (apply Hb; now left).
    assert (INR (length a) * lo <= Rsum a <= INR (length a) * hi)
      by (apply IH; intros; apply Hb; now right).
    lra.
Qed.

Lemma mean_bounds (lo hi : R) (a : list R) :
  a <> [] -> (forall x, In x a -> lo <= x <= hi) -> lo <= mean a <= hi.
Proof.
  intros Ha Hb. unfold mean.
  pose proof (INR_length_pos a Ha) as Hn.
  pose proof (Rsum_bounds lo hi a Hb) as [Hl Hh].
  split.
  - apply Rmult_le_reg_r with (INR (length a)); [exact Hn|].
    unfold Rdiv. rewrite Rmult_assoc, Rinv_l by lra. lra.
  - apply Rmult_le_reg_r with (INR (length a)); [exact Hn|].
    unfold Rdiv. rewrite Rmult_assoc, Rinv_l by lra. lra.
Qed.

Lemma std_bound (lo hi : R) (a : list R) :
  a <> [] -> (forall x, In x a -> lo <= x <= hi) -> 0 <= std a <= hi - lo.
Proof.
  intros Ha Hb. unfold std. split; [apply sqrt_pos|].
  pose proof (INR_length_pos a Ha) as Hn.
  pose proof (mean_bounds lo hi a Ha Hb) as Hm.
  assert (Hw : 0 <= hi - lo) by lra.
  rewrite <- (sqrt_square (hi - lo)) by exact Hw.
  apply sqrt_le_1_alt.
  apply Rmult_le_reg_r with (INR (length a)); [exact Hn|].
  unfold Rdiv. rewrite Rmult_assoc, Rinv_l by lra. rewrite Rmult_1_r.
  pose proof (Rsum_bounds 0 ((hi - lo) * (hi - lo))
                (map (fun x => sq (x - mean a)) a)) as Hs.
  rewrite length_map in Hs.
  destruct Hs as [_ Hs]; [|lra].
  intros y Hy. apply in_map_iff in Hy. destruct Hy as (x & <- & Hx).
  specialize (Hb x Hx). unfold sq.
  set (d := x - mean a). set (w := hi - lo) in *.
  assert (Hd : - w <= d <= w) by (unfold d, w; lra).
  split; [nra|].
  assert (0 <= (w - d) * (w + d)) by (apply Rmult_le_pos; lra).
  lra.
Qed.

(** X13. Coordinates between [lo] and [hi] give a mean between [lo] and [hi]
    and a standard deviation between 0 and [hi - lo]: on the notebook's
    data, scaled into [0, 1], both columns of [mean_mode] lie in [0, 1]. *)
Theorem mean_mode_range (lo hi : R) (X : list (list R)) (r : list xreal) :
  Forall (fun a => a <> [] /\ forall x, In x a -> lo <= x <= hi) X ->
  In r (mean_mode (inj X)) ->
  exists m s : R,
    r = [Fin m; Fin s] /\ lo <= m <= hi /\ 0 <= s <= hi - lo.
Proof.
  intros HX Hr. rewrite Forall_forall in HX.
  rewrite mean_mode_rows in Hr. unfold inj in Hr. rewrite map_map in Hr.
  apply in_map_iff in Hr. destruct Hr as (a & <- & Ha).
  destruct (HX a Ha) as [Hne Hb].
  exists (mean a), (std a).
  split; [now rewrite (np_mean_fin a Hne), (np_std_fin a Hne)|]. split.
  - now apply mean_bounds.
  - now apply std_bound.
Qed.

Lemma Rsum_const (c : R) (a : list R) :
  (forall x, In x a -> x = c) -> Rsum a = INR (length a) * c.
Proof.
  intros Hc. pose proof (Rsum_bounds c c a) as Hb.
  destruct Hb; [|lra]. intros x Hx. rewrite (Hc x Hx). lra.
Qed.

(** X14. The second column is 0 exactly for a point whose coordinates are all
    equal. *)
Theorem np_std_zero_iff (a : list R) :
  a <> [] ->
  (np_std (map Fin a) = Fin 0 <-> forall x y, In x a -> In y a -> x = y).
Proof.
  intros Ha. rewrite (np_std_fin a Ha).
  pose proof (INR_length_pos a Ha) as Hn.
  split.
  - intros Hz. injection Hz as Hz. unfold std in Hz.
    apply sqrt_eq_0 in Hz; [|now apply var_nonneg].
    assert (Hs : Rsum (map (fun x => sq (x - mean a)) a) = 0).
    { apply Rmult_integral in Hz. destruct Hz as [Hz|Hz]; [exact Hz|].
      exfalso. revert Hz. apply Rinv_neq_0_compat. lra. }
    assert (Hm : forall x, In x a -> x = mean a).
    { intros x Hx.
      pose proof (Rsum_zero_terms _ (fun x => sq (x - mean a)) a
                    (fun x _ => sq_nonneg _) Hs x Hx) as Hx0.
      apply sq_zero in Hx0. lra. }
    intros x y Hx Hy. now rewrite (Hm x Hx), (Hm y Hy).
  - intros Hc. f_equal. unfold std.
    destruct a as [|c a']; [contradiction|].
    assert (Hall : forall x, In x (c :: a') -> x = c)
      by (intros x Hx; apply Hc; [exact Hx | now left]).
    assert (Hmean : mean (c :: a') = c).
    { unfold mean. rewrite (Rsum_const c _ Hall). field. lra. }
    rewrite Hmean.
    rewrite (Rsum_ext _ (fun x => sq (x - c)) (fun _ => 0)).
    + rewrite (Rsum_const 0) by (intros x Hx; apply in_map_iff in Hx;
                                  now destruct Hx as (? & <- & _)).
      rewrite Rmult_0_r. unfold Rdiv. rewrite Rmult_0_l. apply sqrt_0.
    + intros x Hx. rewrite (Hall x Hx). unfold sq. lra.
Qed.

Lemma mean_perm (a a' : list R) : Permutation a a' -> mean a = mean a'.
Proof.
  intros P. unfold mean.
  rewrite (Permutation_length P).
  f_equal. rewrite <- (map_id a), <- (map_id a'). now apply Rsum_map_perm.
Qed.

Lemma std_perm (a a' : list R) : Permutation a a' -> std a = std a'.
Proof.
  intros P. unfold std.
  rewrite (mean_perm a a' P), (Permutation_length P).
  do 2 f_equal. now apply Rsum_map_perm.
Qed.

(** X15. The statistics forget where a value stood: points that are
    rearrangements of each other fall on one point of the reduced data, so
    the original data cannot be recovered from it. *)
Theorem mean_mode_forgets_order (X X' : list (list R)) :
  Forall2 (@Permutation R) X X' ->
  mean_mode (inj X) = mean_mode (inj X').
Proof.
  intros P. rewrite !mean_mode_rows. unfold inj. rewrite !map_map.
  induction P as [|a a' X X' Pa PX IH]; cbn [map]; [reflexivity|].
  rewrite IH. f_equal.
  destruct a as [|x a].
  - apply Permutation_nil in Pa. now subst.
  - assert (Ha' : a' <> []).
    { intros ->. apply Permutation_sym, Permutation_nil in Pa. discriminate. }
    rewrite np_mean_fin, np_std_fin by discriminate.
    rewrite (np_mean_fin a' Ha'), (np_std_fin a' Ha').
    now rewrite (mean_perm _ _ Pa), (std_perm _ _ Pa).
Qed.

(** *** Instances *)

Lemma unit_square_rows :
  Forall (fun a : list R => a <> [] /\ forall x, In x a -> 0 <= x <= 1)
         [[0; 1]; [1; 1]].
Proof.
  apply Forall_cons; [|apply Forall_cons; [|apply Forall_nil]];
    (split; [discriminate | intros x [<-|[<-|[]]]; lra]).
Qed.

Lemma mean_mode_statistics_witness :
  Forall (fun a : list R => a <> []) [[0; 1]; [1; 1]] /\
  mean_mode (inj [[0; 1]; [1; 1]])
  = map (fun a => [Fin (mean a); Fin (std a)]) [[0; 1]; [1; 1]].
Proof.
  split; [repeat constructor; discriminate|].
  apply (mean_mode_statistics [[0; 1]; [1; 1]]).
  repeat constructor; discriminate.
Defined.

Lemma mean_mode_range_witness :
  Forall (fun a : list R => a <> [] /\ forall x, In x a -> 0 <= x <= 1)
         [[0; 1]; [1; 1]] /\
  In [np_mean (map Fin [0; 1]); np_std (map Fin [0; 1])]
     (mean_mode (inj [[0; 1]; [1; 1]])) /\
  exists m s : R,
    [np_mean (map Fin [0; 1]); np_std (map Fin [0; 1])] = [Fin m; Fin s] /\
    0 <= m <= 1 /\ 0 <= s <= 1 - 0.
Proof.
  split; [exact unit_square_rows|].
  split; [rewrite mean_mode_rows; now left|].
  apply (mean_mode_range 0 1 [[0; 1]; [1; 1]]);
    [exact unit_square_rows | rewrite mean_mode_rows; now left].
Defined.

Lemma np_std_zero_iff_witness :
  [1; 1] <> [] /\
  (np_std (map Fin [1; 1]) = Fin 0 <->
   forall x y, In x [1; 1] -> In y [1; 1] -> x = y).
Proof.
  split; [discriminate|]. apply (np_std_zero_iff [1; 1]). discriminate.
Defined.

Lemma mean_mode_forgets_order_witness :
  Forall2 (@Permutation R) [[0; 1]] [[1; 0]] /\
  [[0; 1]] <> [[1; 0]] /\
  mean_mode (inj [[0; 1]]) = mean_mode (inj [[1; 0]]).
Proof.
  split; [repeat constructor|].
  split; [intros E; injection E; lra|].
  apply (mean_mode_forgets_order [[0; 1]] [[1; 0]]). repeat constructor.
Defined.

End SummaryExact.

Section SummaryDoubles.

Import Binary64.
Local Open Scope float_scope.

(** X16. On an array without columns every mean is zero over zero: [mean_mode]
    returns NaN in both columns of every row (numpy warns, nothing is
    raised). *)
Theorem mean_mode_no_columns (X : list (list float)) :
  Forall (fun a => a = []) X ->
  mean_mode X = map (fun _ => [nan; nan]) X.
Proof.
  intros HX. rewrite mean_mode_rows.
  apply map_ext_in. intros a Ha.
  rewrite Forall_forall in HX. rewrite (HX a Ha). reflexivity.
Qed.

Lemma mean_mode_no_columns_witness :
  Forall (fun a : list float => a = []) [[]; []] /\
  mean_mode [[]; []] = map (fun _ : list float => [nan; nan]) [[]; []].
Proof.
  split; [repeat constructor|].
  apply (mean_mode_no_columns [[]; []]). repeat constructor.
Defined.

Lemma mean_mode_binary64 :
  mean_mode [[0; 1]; [1; 1]; [1; 3]] = [[0.5; 0.5]; [1; 0]; [2; 1]].
Proof. vm_compute. reflexivity. Qed.

Lemma stress_broadcasts_original_witness :
  length (line 2) = 2%nat /\
  (2 < length (line 3))%nat /\
  exists d : float,
    pdist (line 2) = [d] /\
    stress (line 3) (line 2)
    = Return (np_sqrt (np_divide
        (np_sum (np_square (map (fun e => fsub d e) (pdist (line 3)))))
        (np_sum (np_square [d])))).
Proof.
  split; [reflexivity|]. split; [simpl; lia|].
  apply (stress_broadcasts_original (line 3) (line 2));
    [reflexivity | simpl; lia].
Defined.

End SummaryDoubles.

(** * The eigenpairs in order: [sort_eig] *)

Section SortedLists.

Context {B : Type}.

(** A list has at most one arrangement that is sorted by an asymmetric
    relation: whatever algorithm sorts it returns the same list. *)
Lemma sorted_unique (R : B -> B -> Prop) (a b : list B) :
  (forall x y, In x a -> In y a -> R x y -> R y x -> False) ->
  StronglySorted R a -> StronglySorted R b -> Permutation a b -> a = b.
Proof.
  intros Hasym Sa. revert b.
  induction Sa as [|x a Sa IH Hx]; intros b Sb P.
  - apply Permutation_nil in P. now subst.
  - destruct b as [|y b].
    + apply Permutation_sym, Permutation_nil in P. discriminate.
    + inversion Sb as [|? ? Sb' Hy]; subst.
      assert (E : x = y).
      { assert (Hxin : In x (y :: b))
          by (apply (Permutation_in _ P); now left).
        assert (Hyin : In y (x :: a))
          by (apply (Permutation_in _ (Permutation_sym P)); now left).
        destruct Hxin as [E|Hxin]; [now symmetry|].
        destruct Hyin as [E|Hyin]; [exact E|].
        rewrite Forall_forall in Hx, Hy.
        exfalso.
        exact (Hasym x y (or_introl eq_refl) (or_intror Hyin)
                 (Hx y Hyin) (Hy x Hxin)). }
      subst y. f_equal. apply IH; [ | exact Sb'|].
      * intros u v Hu Hv. apply Hasym; now right.
      * now apply Permutation_cons_inv with x.
Qed.

Lemma StronglySorted_app (R : B -> B -> Prop) (a b : list B) :
  StronglySorted R a -> StronglySorted R b ->
  (forall x y, In x a -> In y b -> R x y) ->
  StronglySorted R (a ++ b).
Proof.
  intros Sa Sb Hab. induction Sa as [|x a Sa IH Hx]; simpl; [exact Sb|].
  constructor.
  - apply IH. intros u v Hu Hv. apply Hab; [now right | exact Hv].
  - apply Forall_app. split; [exact Hx|].
    apply Forall_forall. intros v Hv. apply Hab; [now left | exact Hv].
Qed.

Lemma StronglySorted_rev (R : B -> B -> Prop) (l : list B) :
  StronglySorted R l -> StronglySorted (fun a b => R b a) (rev l).
Proof.
  induction 1 as [|x l Sl IH Hx]; simpl; [constructor|].
  apply StronglySorted_app; [exact IH | repeat constructor|].
  intros u v Hu [<-|[]]. apply in_rev in Hu.
  rewrite Forall_forall in Hx. now apply Hx.
Qed.

Lemma StronglySorted_impl (R R' : B -> B -> Prop) (l : list B) :
  (forall x y, In x l -> In y l -> R x y -> R' x y) ->
  StronglySorted R l -> StronglySorted R' l.
Proof.
  intros Himp. induction 1 as [|x l Sl IH Hx]; constructor.
  - apply IH. intros u v Hu Hv. apply Himp; now right.
  - rewrite Forall_forall in *. intros y Hy.
    apply Himp; [now left | now right | now apply Hx].
Qed.

Lemma StronglySorted_map_intro (C : Type) (f : B -> C) (R : C -> C -> Prop)
      (l : list B) :
  StronglySorted (fun a b => R (f a) (f b)) l -> StronglySorted R (map f l).
Proof.
  induction 1 as [|x l Sl IH Hx]; simpl; constructor; [exact IH|].
  rewrite Forall_forall in *. intros y Hy. apply in_map_iff in Hy.
  destruct Hy as (b & <- & Hb). now apply Hx.
Qed.

Lemma StronglySorted_map_elim (C : Type) (f : B -> C) (R : C -> C -> Prop)
      (l : list B) :
  StronglySorted R (map f l) -> StronglySorted (fun a b => R (f a) (f b)) l.
Proof.
  induction l as [|x l IH]; simpl; intros S; [constructor|].
  inversion S as [|? ? S' Hx]; subst. constructor; [now apply IH|].
  rewrite Forall_forall in *. intros y Hy. apply Hx. now apply in_map.
Qed.

(** In a sorted list an earlier entry stands in the relation to a later
    one. *)
Lemma StronglySorted_nth (R : B -> B -> Prop) (l : list B) (d : B) (i j : nat) :
  StronglySorted R l -> i < j -> j < length l -> R (nth i l d) (nth j l d).
Proof.
  intros S. revert i j. induction S as [|x l Sl IH Hx]; intros i j Hij Hj.
  - simpl in Hj. lia.
  - destruct j as [|j]; [lia|]. simpl in Hj.
    destruct i as [|i]; simpl.
    + rewrite Forall_forall in Hx. apply Hx, nth_In. lia.
    + apply IH; lia.
Qed.

End SortedLists.

Lemma StronglySorted_strict_in (B : Type) (R R' : B -> B -> Prop)
      (l : list B) :
  (forall x y, In x l -> In y l -> x <> y -> R x y -> R' x y) ->
  NoDup l -> StronglySorted R l -> StronglySorted R' l.
Proof.
  intros Himp Hnd S. induction S as [|x l Sl IH Hx]; constructor.
  - apply IH; [|now inversion Hnd].
    intros u v Hu Hv. apply Himp; now right.
  - inversion Hnd as [|? ? Hnin Hnd']; subst.
    rewrite Forall_forall in *. intros y Hy.
    apply Himp; [now left | now right | | now apply Hx].
    intros ->. contradiction.
Qed.

Lemma seq_sorted (k n : nat) : StronglySorted lt (seq k n).
Proof.
  revert k. induction n as [|n IH]; intros k; simpl; constructor.
  - apply IH.
  - apply Forall_forall. intros j Hj. apply in_seq in Hj. lia.
Qed.

Section EigSortFacts.

Context {V W : Type}.
Variable vltb : V -> V -> bool.
Variable veqb : V -> V -> bool.

Local Notation "'tlt'" := (tuple_lt vltb veqb).
Local Notation "'tsort'" := (list_sort vltb veqb).
Local Notation "'tins'" := (insert_sorted vltb veqb).

(** *** The sort rearranges, whatever the comparisons answer *)

Lemma insert_sorted_perm (p : V * nat) (l : list (V * nat)) :
  Permutation (tins p l) (p :: l).
Proof.
  induction l as [|q l IH]; simpl; [reflexivity|].
  destruct (tlt p q); [reflexivity|].
  rewrite IH. apply perm_swap.
Qed.

Lemma list_sort_acc_perm (l acc : list (V * nat)) :
  Permutation (fold_left (fun acc p => tins p acc) l acc) (l ++ acc).
Proof.
  revert acc. induction l as [|p l IH]; intros acc; simpl; [reflexivity|].
  rewrite IH, insert_sorted_perm. symmetry. apply Permutation_middle.
Qed.

Lemma list_sort_perm (l : list (V * nat)) : Permutation (tsort l) l.
Proof.
  unfold list_sort. rewrite list_sort_acc_perm. now rewrite app_nil_r.
Qed.

Lemma in_combine_seq (l : list V) (k : nat) (v : V) (i : nat) :
  In (v, i) (combine l (seq k (length l))) ->
  k <= i /\ nth_error l (i - k) = Some v.
Proof.
  revert k. induction l as [|x l IH]; intros k Hin; [contradiction|].
  simpl in Hin. destruct Hin as [E|Hin].
  - injection E as -> ->. rewrite Nat.sub_diag. now split.
  - destruct (IH (S k) Hin) as [Hk Hn]. split; [lia|].
    replace (i - k) with (S (i - S k)) by lia. exact Hn.
Qed.

Lemma combine_seq_fst (l : list V) (k : nat) :
  map fst (combine l (seq k (length l))) = l.
Proof.
  revert k. induction l as [|x l IH]; intros k; simpl; [reflexivity|].
  now rewrite IH.
Qed.

Lemma combine_seq_snd (l : list V) (k : nat) :
  map snd (combine l (seq k (length l))) = seq k (length l).
Proof.
  revert k. induction l as [|x l IH]; intros k; simpl; [reflexivity|].
  now rewrite IH.
Qed.

Lemma combine_seq_NoDup (l : list V) :
  NoDup (combine l (seq 0 (length l))).
Proof.
  apply (NoDup_map_inv snd). rewrite combine_seq_snd. apply seq_NoDup.
Qed.

(** The tuples as the cell has them after [sort()] and [reverse()] are
    the tuples it started from. *)
Lemma vals_ids_perm (l : list V) :
  Permutation (rev (tsort (combine l (seq 0 (length l)))))
              (combine l (seq 0 (length l))).
Proof. rewrite <- Permutation_rev. apply list_sort_perm. Qed.

Lemma vals_ids_lookup (l : list V) (p : V * nat) :
  In p (rev (tsort (combine l (seq 0 (length l))))) ->
  nth_error l (snd p) = Some (fst p).
Proof.
  intros Hin. apply (Permutation_in _ (vals_ids_perm l)) in Hin.
  destruct p as [v i].
  apply in_combine_seq in Hin. destruct Hin as [_ Hn].
  now rewrite Nat.sub_0_r in Hn.
Qed.

Lemma vals_ids_value (l : list V) (p : V * nat) :
  In p (rev (tsort (combine l (seq 0 (length l))))) -> In (fst p) l.
Proof.
  intros Hin. apply vals_ids_lookup in Hin. now apply nth_error_In in Hin.
Qed.

Lemma fancy_index_ok (B : Type) (a : list B) (d : B) (idxs : list nat) :
  (forall i, In i idxs -> i < length a) ->
  fancy_index a idxs = Ok (map (fun i => nth i a d) idxs).
Proof.
  induction idxs as [|i idxs IH]; intros Hb; simpl; [reflexivity|].
  assert (Hi : i < length a) by (apply Hb; now left).
  rewrite (nth_error_nth' a d Hi).
  rewrite IH by (intros j Hj; apply Hb; now right). reflexivity.
Qed.

Lemma fancy_index_out_of_bounds (B : Type) (a : list B) (idxs : list nat)
      (i : nat) :
  In i idxs -> length a <= i -> fancy_index a idxs = Fails IndexError.
Proof.
  intros Hin Hi. induction idxs as [|j idxs IH]; [contradiction|].
  simpl. destruct (nth_error a j) eqn:En; [|reflexivity].
  destruct Hin as [->|Hin].
  - exfalso. apply nth_error_None in Hi. congruence.
  - now rewrite (IH Hin).
Qed.

(** With an eigenvalue at hand, only the lookup of the eigenvectors is
    left to fail. *)
Lemma sort_eig_unfold (eig_vals : list V) (eig_vecs : list W) (v0 : V) :
  eig_vals <> [] ->
  sort_eig vltb veqb eig_vals eig_vecs
  = let vals_ids :=
      rev (tsort (combine eig_vals (seq 0 (length eig_vals)))) in
    match fancy_index eig_vecs (map snd vals_ids) with
    | Fails f => Fails f
    | Ok vecs_sorted =>
        Ok {| eig_vals_desc := map fst vals_ids;
              eig_idxs_desc := map snd vals_ids;
              eig_vals_sorted :=
                map (fun i => nth i (map fst vals_ids) v0) (map snd vals_ids);
              eig_vecs_sorted := vecs_sorted |}
    end.
Proof.
  intros Hne. unfold sort_eig. cbv zeta.
  pose proof (vals_ids_perm eig_vals) as P.
  pose proof (vals_ids_lookup eig_vals) as Hlook.
  remember (rev (tsort (combine eig_vals (seq 0 (length eig_vals))))) as s.
  destruct s as [|p s'].
  - apply Permutation_nil in P.
    destruct eig_vals; [contradiction | discriminate].
  - rewrite (fancy_index_ok _ _ v0); [reflexivity|].
    intros i Hi. apply in_map_iff in Hi. destruct Hi as (q & <- & Hq).
    rewrite length_map, (Permutation_length P), length_combine, length_seq,
      Nat.min_id.
    apply nth_error_Some. rewrite (Hlook q Hq). discriminate.
Qed.

Lemma vals_ids_indices (l : list V) :
  Permutation (map snd (rev (tsort (combine l (seq 0 (length l))))))
              (seq 0 (length l)).
Proof.
  rewrite (Permutation_map snd (vals_ids_perm l)).
  now rewrite combine_seq_snd.
Qed.

Lemma vals_ids_values (l : list V) :
  Permutation (map fst (rev (tsort (combine l (seq 0 (length l)))))) l.
Proof.
  rewrite (Permutation_map fst (vals_ids_perm l)).
  now rewrite combine_seq_fst.
Qed.

(** The cell in closed form, when every index finds its eigenvector. *)
Lemma sort_eig_ok (eig_vals : list V) (eig_vecs : list W) (v0 : V) (w0 : W) :
  eig_vals <> [] ->
  length eig_vals <= length eig_vecs ->
  sort_eig vltb veqb eig_vals eig_vecs
  = let vals_ids :=
      rev (tsort (combine eig_vals (seq 0 (length eig_vals)))) in
    Ok {| eig_vals_desc := map fst vals_ids;
          eig_idxs_desc := map snd vals_ids;
          eig_vals_sorted :=
            map (fun i => nth i (map fst vals_ids) v0) (map snd vals_ids);
          eig_vecs_sorted :=
            map (fun i => nth i eig_vecs w0) (map snd vals_ids) |}.
Proof.
  intros Hne Hlen. rewrite (sort_eig_unfold eig_vals eig_vecs v0 Hne).
  cbv zeta. rewrite (fancy_index_ok _ _ w0); [reflexivity|].
  intros i Hi. apply (Permutation_in _ (vals_ids_indices eig_vals)) in Hi.
  apply in_seq in Hi. lia.
Qed.

Lemma nth_seq_all (B : Type) (l : list B) (d : B) :
  map (fun i => nth i l d) (seq 0 (length l)) = l.
Proof.
  induction l as [|x l IH]; simpl; [reflexivity|].
  f_equal. rewrite <- seq_shift, map_map. exact IH.
Qed.

Lemma skipn_cons_nth (B : Type) (l : list B) (d : B) (k : nat) :
  k < length l -> skipn k l = nth k l d :: skipn (S k) l.
Proof.
  revert k. induction l as [|x l IH]; intros k Hk; [simpl in Hk; lia|].
  destruct k as [|k]; [reflexivity|].
  simpl in Hk. simpl. apply IH. lia.
Qed.

Lemma combine_seq_lookup (l : list V) (vecs : list W) (w0 : W) (k : nat) :
  k + length l <= length vecs ->
  map (fun p => (fst p, nth (snd p) vecs w0)) (combine l (seq k (length l)))
  = combine l (skipn k vecs).
Proof.
  revert k. induction l as [|x l IH]; intros k Hk; [reflexivity|].
  simpl in Hk. simpl combine. simpl map.
  rewrite IH by lia.
  rewrite (skipn_cons_nth _ vecs w0 k) by lia. reflexivity.
Qed.

Lemma combine_map_map (B C D : Type) (f : B -> C) (g : B -> D) (l : list B) :
  combine (map f l) (map g l) = map (fun x => (f x, g x)) l.
Proof.
  induction l as [|x l IH]; simpl; [reflexivity | now rewrite IH].
Qed.

(** Eigenvalue and eigenvector stay together, whatever the comparisons
    answer. *)
Lemma sort_eig_matched (eig_vals : list V) (eig_vecs : list W)
      (w0 : W) :
  length eig_vecs = length eig_vals ->
  Permutation
    (combine
       (map fst (rev (tsort (combine eig_vals (seq 0 (length eig_vals))))))
       (map (fun i => nth i eig_vecs w0)
          (map snd (rev (tsort (combine eig_vals
                                  (seq 0 (length eig_vals))))))))
    (combine eig_vals eig_vecs).
Proof.
  intros Hlen. rewrite map_map, combine_map_map.
  rewrite (Permutation_map _ (vals_ids_perm eig_vals)).
  rewrite (combine_seq_lookup eig_vals eig_vecs w0 0) by (simpl; lia).
  reflexivity.
Qed.

(** X18. [eig_vals_sorted] holds the eigenvalues, each once: sums over the
    whole array are those of the eigenvalues.  No assumption on the
    comparisons is needed for that. *)
Theorem sort_eig_values_perm (eig_vals : list V) (eig_vecs : list W)
        (r : eig_sorted V W) :
  sort_eig vltb veqb eig_vals eig_vecs = Ok r ->
  Permutation (eig_vals_sorted r) eig_vals.
Proof.
  intros Hr.
  destruct eig_vals as [|v0 vals'] eqn:Ev; [discriminate|]. rewrite <- Ev in *.
  assert (Hne : eig_vals <> []) by (rewrite Ev; discriminate).
  rewrite (sort_eig_unfold eig_vals eig_vecs v0 Hne) in Hr. cbv zeta in Hr.
  destruct (fancy_index eig_vecs _); [|discriminate].
  injection Hr as <-. cbn [eig_vals_sorted].
  pose proof (vals_ids_indices eig_vals) as Pidx.
  pose proof (vals_ids_values eig_vals) as Pfst.
  remember (rev (tsort (combine eig_vals (seq 0 (length eig_vals))))) as s.
  rewrite <- (Permutation_length Pfst) in Pidx.
  apply (Permutation_trans
           (Permutation_map (fun i => nth i (map fst s) v0) Pidx)).
  rewrite nth_seq_all. exact Pfst.
Qed.

(** The two ways the lookups of the cell can fail. *)
Lemma sort_eig_failures (eig_vals : list V) (eig_vecs : list W)
      (f : failure) :
  sort_eig vltb veqb eig_vals eig_vecs = Fails f <->
  (eig_vals = [] /\ f = UnpackError) \/
  (eig_vals <> [] /\ length eig_vecs < length eig_vals /\ f = IndexError).
Proof.
  destruct eig_vals as [|v0 vals'] eqn:Ev.
  - simpl. split.
    + intros E. injection E as <-. now left.
    + intros [[_ ->]|[N _]]; [reflexivity | contradiction].
  - rewrite <- Ev.
    assert (Hne : eig_vals <> []) by (rewrite Ev; discriminate).
    destruct (le_lt_dec (length eig_vals) (length eig_vecs)) as [Hle|Hlt].
    + destruct eig_vecs as [|w0 vecs'] eqn:Ew;
        [rewrite Ev in Hle; simpl in Hle; lia|]. rewrite <- Ew in *.
      rewrite (sort_eig_ok eig_vals eig_vecs v0 w0 Hne Hle). cbv zeta.
      split; [discriminate|].
      intros [[E _]|(_ & L & _)]; [contradiction | lia].
    + rewrite (sort_eig_unfold eig_vals eig_vecs v0 Hne). cbv zeta.
      rewrite (fancy_index_out_of_bounds _ eig_vecs _ (length eig_vecs));
        [ | apply (Permutation_in _
                     (Permutation_sym (vals_ids_indices eig_vals))),
            in_seq; lia
          | lia].
      split.
      * intros E. injection E as <-. right. now repeat split.
      * intros [[E _]|(_ & _ & ->)]; [contradiction | reflexivity].
Qed.

(** X20. With as many eigenvector rows as eigenvalues, which is what
    [np.linalg.eig] returns, the cell fails in one case only: without a
    single eigenvalue the unpacking of [zip( *vals_ids)] has nothing to
    unpack.  No assumption on the comparisons is needed. *)
Theorem sort_eig_fails_iff (eig_vals : list V) (eig_vecs : list W)
        (f : failure) :
  length eig_vecs = length eig_vals ->
  (sort_eig vltb veqb eig_vals eig_vecs = Fails f <->
   eig_vals = [] /\ f = UnpackError).
Proof.
  intros Hlen. rewrite sort_eig_failures. split.
  - intros [H|(_ & L & _)]; [exact H | lia].
  - intros H. now left.
Qed.

Lemma nonempty_inhabited (B : Type) (l : list B) :
  l <> [] -> exists x : B, In x l.
Proof.
  destruct l as [|x l]; [contradiction|]. intros _. exists x. now left.
Qed.

Lemma sort_eig_ok_nonempty (eig_vals : list V) (eig_vecs : list W)
      (r : eig_sorted V W) :
  sort_eig vltb veqb eig_vals eig_vecs = Ok r -> eig_vals <> [].
Proof. intros Hr ->. discriminate. Qed.

(** *** The order *)

Section Ordered.

(** The eigenvalues at hand are totally ordered by [<], and [==] is
    equality on them.  Floats are such as long as there is no NaN among
    them and no zero of either sign next to the other. *)
Variable eig_vals : list V.
Hypothesis veqb_eq :
  forall x y, In x eig_vals -> In y eig_vals -> (veqb x y = true <-> x = y).
Hypothesis vltb_irrefl : forall x, In x eig_vals -> vltb x x = false.
Hypothesis vltb_trans :
  forall x y z, In x eig_vals -> In y eig_vals -> In z eig_vals ->
    vltb x y = true -> vltb y z = true -> vltb x z = true.
Hypothesis vltb_total :
  forall x y, In x eig_vals -> In y eig_vals ->
    x = y \/ vltb x y = true \/ vltb y x = true.

Local Notation "'known'" := (fun p : V * nat => In (fst p) eig_vals).

Lemma vltb_asym (x y : V) :
  In x eig_vals -> In y eig_vals -> vltb x y = true -> vltb y x = false.
Proof.
  intros Hx Hy Hxy. destruct (vltb y x) eqn:Hyx; [|reflexivity].
  rewrite <- (vltb_irrefl x Hx). symmetry. now apply vltb_trans with y.
Qed.

Lemma veqb_refl (x : V) : In x eig_vals -> veqb x x = true.
Proof. intros Hx. now apply veqb_eq. Qed.

Lemma veqb_neq (x y : V) :
  In x eig_vals -> In y eig_vals -> x <> y -> veqb x y = false.
Proof.
  intros Hx Hy N. destruct (veqb x y) eqn:E; [|reflexivity].
  apply veqb_eq in E; auto. contradiction.
Qed.

Lemma tlt_irrefl (p : V * nat) : known p -> tlt p p = false.
Proof.
  intros Hp. unfold tuple_lt. rewrite veqb_refl by exact Hp.
  apply Nat.ltb_irrefl.
Qed.

Lemma tlt_trans (p q r : V * nat) :
  known p -> known q -> known r ->
  tlt p q = true -> tlt q r = true -> tlt p r = true.
Proof.
  destruct p as [a i], q as [b j], r as [c k]. unfold tuple_lt. simpl.
  intros Ha Hb Hc.
  destruct (veqb a b) eqn:Eab; destruct (veqb b c) eqn:Ebc;
    try (apply veqb_eq in Eab; [subst b | assumption | assumption]);
    try (apply veqb_eq in Ebc; [subst c | assumption | assumption]).
  - rewrite veqb_refl by assumption. rewrite !Nat.ltb_lt. lia.
  - rewrite Ebc. auto.
  - rewrite Eab. auto.
  - intros Hab Hbc.
    pose proof (vltb_trans _ _ _ Ha Hb Hc Hab Hbc) as Hac.
    destruct (veqb a c) eqn:Eac; [|exact Hac].
    apply veqb_eq in Eac; auto. subst c.
    now rewrite vltb_irrefl in Hac.
Qed.

Lemma tlt_asym (p q : V * nat) :
  known p -> known q -> tlt p q = true -> tlt q p = false.
Proof.
  intros Hp Hq Hpq. destruct (tlt q p) eqn:Hqp; [|reflexivity].
  rewrite <- (tlt_irrefl p Hp). symmetry. now apply tlt_trans with q.
Qed.

Lemma tlt_total (p q : V * nat) :
  known p -> known q -> p = q \/ tlt p q = true \/ tlt q p = true.
Proof.
  destruct p as [a i], q as [b j]. unfold tuple_lt. simpl. intros Ha Hb.
  destruct (vltb_total a b Ha Hb) as [->|[H|H]].
  - rewrite veqb_refl by assumption.
    destruct (Nat.lt_trichotomy i j) as [L|[->|L]].
    + right. left. now apply Nat.ltb_lt.
    + now left.
    + right. right. now apply Nat.ltb_lt.
  - right. left.
    destruct (veqb a b) eqn:E; [|exact H].
    apply veqb_eq in E; auto. subst. now rewrite vltb_irrefl in H.
  - right. right.
    destruct (veqb b a) eqn:E; [|exact H].
    apply veqb_eq in E; auto. subst. now rewrite vltb_irrefl in H.
Qed.

Lemma insert_sorted_sorted (p : V * nat) (l : list (V * nat)) :
  known p -> Forall known l ->
  StronglySorted (fun a b => tlt b a = false) l ->
  StronglySorted (fun a b => tlt b a = false) (tins p l).
Proof.
  intros Hp Hl S. induction S as [|q l Sl IH Hq]; simpl;
    [repeat constructor|].
  inversion Hl as [|? ? Hkq Hkl]; subst.
  destruct (tlt p q) eqn:Hpq.
  - constructor; [now constructor|].
    constructor; [now apply tlt_asym|].
    rewrite Forall_forall in *. intros x Hx.
    destruct (tlt x p) eqn:Hxp; [|reflexivity].
    rewrite <- (Hq x Hx). symmetry.
    apply tlt_trans with p; auto.
  - constructor; [now apply IH|].
    apply (Permutation_Forall (Permutation_sym (insert_sorted_perm p l))).
    now constructor.
Qed.

Lemma list_sort_acc_sorted (l acc : list (V * nat)) :
  Forall known l -> Forall known acc ->
  StronglySorted (fun a b => tlt b a = false) acc ->
  StronglySorted (fun a b => tlt b a = false)
    (fold_left (fun acc p => tins p acc) l acc).
Proof.
  revert acc. induction l as [|p l IH]; intros acc Hl Hacc Sacc; simpl;
    [exact Sacc|].
  inversion Hl as [|? ? Hp Hl']; subst.
  apply IH; [exact Hl' | | now apply insert_sorted_sorted].
  apply (Permutation_Forall (Permutation_sym (insert_sorted_perm p acc))).
  now constructor.
Qed.

Lemma enumerate_known :
  Forall known (combine eig_vals (seq 0 (length eig_vals))).
Proof.
  apply Forall_forall. intros [v i] Hin. simpl.
  now apply in_combine_l in Hin.
Qed.

(** After [sort()] and [reverse()] each tuple is larger than all that
    follow. *)
Lemma vals_ids_sorted :
  StronglySorted (fun p q => tlt q p = true)
    (rev (tsort (combine eig_vals (seq 0 (length eig_vals))))).
Proof.
  apply (StronglySorted_rev (fun p q => tlt p q = true)).
  assert (Hk : Forall known
                 (tsort (combine eig_vals (seq 0 (length eig_vals)))))
    by (apply (Permutation_Forall (Permutation_sym (list_sort_perm _)));
        exact enumerate_known).
  rewrite Forall_forall in Hk.
  apply (StronglySorted_strict_in _ (fun a b => tlt b a = false)).
  - intros x y Hx Hy Hxy Hle.
    destruct (tlt_total x y (Hk x Hx) (Hk y Hy)) as [E|[L|L]];
      [contradiction | exact L | congruence].
  - apply (Permutation_NoDup (Permutation_sym (list_sort_perm _))).
    apply combine_seq_NoDup.
  - apply list_sort_acc_sorted;
      [exact enumerate_known | constructor | constructor].
Qed.

Lemma tlt_fst (p q : V * nat) :
  known p -> known q -> tlt q p = true -> vltb (fst p) (fst q) = false.
Proof.
  intros Hp Hq. unfold tuple_lt. destruct (veqb (fst q) (fst p)) eqn:E.
  - apply veqb_eq in E; auto. rewrite E. intros _. now apply vltb_irrefl.
  - now apply vltb_asym.
Qed.

Lemma desc_descending :
  descending vltb
    (map fst (rev (tsort (combine eig_vals (seq 0 (length eig_vals)))))).
Proof.
  apply StronglySorted_map_intro.
  eapply StronglySorted_impl; [|exact vals_ids_sorted].
  intros x y Hx Hy. apply tlt_fst; now apply vals_ids_value.
Qed.

(** X17. The cell does sort the eigenpairs.  For at least one eigenvalue,
    eigenvalues that [<] orders totally, and as many eigenvector rows, it
    succeeds; [eig_vals] is left in descending order, and
    [eig_vecs_sorted] lists the eigenvectors in that order, every
    eigenvalue still next to its own eigenvector. *)
Theorem sort_eig_pairs (eig_vecs : list W) :
  eig_vals <> [] ->
  length eig_vecs = length eig_vals ->
  exists r,
    sort_eig vltb veqb eig_vals eig_vecs = Ok r /\
    descending vltb (eig_vals_desc r) /\
    Permutation (combine (eig_vals_desc r) (eig_vecs_sorted r))
                (combine eig_vals eig_vecs).
Proof.
  intros Hne Hlen.
  destruct (nonempty_inhabited _ eig_vals Hne) as [v0 _].
  assert (Hne' : eig_vecs <> []).
  { intros ->. apply Hne, length_zero_iff_nil. now rewrite <- Hlen. }
  destruct (nonempty_inhabited _ eig_vecs Hne') as [w0 _].
  rewrite (sort_eig_ok eig_vals eig_vecs v0 w0 Hne) by lia.
  cbv zeta. eexists. split; [reflexivity|]. cbn [eig_vals_desc eig_vecs_sorted].
  split; [apply desc_descending|].
  now apply sort_eig_matched.
Qed.

(** *** Where the second indexing goes wrong *)

Lemma descending_strict (l : list V) :
  (forall x, In x l -> In x eig_vals) ->
  NoDup l -> descending vltb l ->
  StronglySorted (fun a b => vltb b a = true) l.
Proof.
  intros Hsub. apply StronglySorted_strict_in.
  intros x y Hx Hy Hxy Hle.
  destruct (vltb_total x y (Hsub x Hx) (Hsub y Hy)) as [E|[L|L]];
    [contradiction | congruence | exact L].
Qed.

Lemma combine_seq_sorted (l : list V) (k : nat) :
  (forall x, In x l -> In x eig_vals) ->
  StronglySorted (fun a b => vltb b a = true) l ->
  StronglySorted (fun p q => tlt q p = true) (combine l (seq k (length l))).
Proof.
  intros Hsub S. revert k. induction S as [|x l Sl IH Hx]; intros k; simpl;
    constructor; [apply IH; intros; apply Hsub; now right|].
  rewrite Forall_forall in *. intros [b j] Hb.
  apply in_combine_l in Hb. specialize (Hx b Hb).
  unfold tuple_lt. simpl.
  assert (Hbk : In b eig_vals) by (apply Hsub; now right).
  assert (Hxk : In x eig_vals) by (apply Hsub; now left).
  rewrite veqb_neq; [exact Hx | exact Hbk | exact Hxk |].
  intros ->. now rewrite vltb_irrefl in Hx.
Qed.

(** X19. The array named [eig_vals_sorted] is [eig_vals[eig_idxs]] taken
    after [eig_vals] has been put in order already, so the order is applied
    a second time.  With distinct eigenvalues that [<] orders totally, it
    comes out in descending order exactly when the eigenvalues arrived in
    descending order. *)
Theorem sort_eig_values_sorted_iff (eig_vecs : list W)
        (r : eig_sorted V W) :
  NoDup eig_vals ->
  sort_eig vltb veqb eig_vals eig_vecs = Ok r ->
  (descending vltb (eig_vals_sorted r) <-> descending vltb eig_vals).
Proof.
  intros Hnd Hr.
  pose proof (sort_eig_ok_nonempty _ _ _ Hr) as Hne.
  destruct (nonempty_inhabited _ eig_vals Hne) as [v0 _].
  pose proof (vals_ids_perm eig_vals) as P.
  pose proof vals_ids_sorted as S.
  pose proof (vals_ids_lookup eig_vals) as Hlook.
  pose proof (vals_ids_value eig_vals) as Hval.
  pose proof desc_descending as Hdesc.
  pose proof (vals_ids_indices eig_vals) as Pidx.
  pose proof (vals_ids_values eig_vals) as Pfst.
  rewrite (sort_eig_unfold eig_vals eig_vecs v0 Hne) in Hr. cbv zeta in Hr.
  remember (rev (tsort (combine eig_vals (seq 0 (length eig_vals))))) as s.
  destruct (fancy_index eig_vecs (map snd s)); [|discriminate].
  injection Hr as <-. cbn [eig_vals_sorted].
  assert (Hls : length s = length eig_vals).
  { rewrite (Permutation_length P), length_combine, length_seq.
    apply Nat.min_id. }
  assert (Hb : forall i, In i (map snd s) -> i < length eig_vals).
  { intros i Hi. apply (Permutation_in _ Pidx), in_seq in Hi. lia. }
  assert (Hfst : map fst s = map (fun i => nth i eig_vals v0) (map snd s)).
  { rewrite map_map. apply map_ext_in. intros q Hq.
    symmetry. apply nth_error_nth. now apply Hlook. }
  split.
  - intros Hsorted.
    assert (Hidx : map snd s = seq 0 (length eig_vals)).
    { apply (sorted_unique lt); [intros; lia | | apply seq_sorted | exact Pidx].
      apply (StronglySorted_strict_in nat
               (fun i j => vltb (nth i (map fst s) v0)
                                (nth j (map fst s) v0) = false) lt);
        [ | | exact (@StronglySorted_map_elim nat V
                       (fun i => nth i (map fst s) v0)
                       (fun a b => vltb a b = false) (map snd s) Hsorted)].
      - intros i j Hi Hj Hij Hle.
        destruct (Nat.lt_trichotomy i j) as [L|[E|L]];
          [exact L | contradiction | exfalso].
        assert (Hstrict : StronglySorted (fun a b => vltb b a = true)
                            (map fst s)).
        { apply descending_strict; [ | | exact Hdesc].
          - intros x Hx. apply in_map_iff in Hx.
            destruct Hx as (q & <- & Hq). now apply Hval.
          - apply (Permutation_NoDup (Permutation_sym Pfst) Hnd). }
        pose proof (StronglySorted_nth _ _ v0 j i Hstrict L) as Hji.
        rewrite length_map, Hls in Hji.
        rewrite Hji in Hle by now apply Hb. discriminate.
      - apply (Permutation_NoDup (Permutation_sym Pidx)). apply seq_NoDup. }
    rewrite Hidx, nth_seq_all in Hfst. rewrite <- Hfst. exact Hdesc.
  - intros Hl.
    assert (Hs : s = combine eig_vals (seq 0 (length eig_vals))).
    { apply (sorted_unique (fun p q => tlt q p = true));
        [ | exact S | | exact P].
      - intros x y Hx Hy Hxy Hyx.
        rewrite (tlt_asym _ _ (Hval y Hy) (Hval x Hx) Hxy) in Hyx.
        discriminate.
      - apply combine_seq_sorted; [auto|].
        apply descending_strict; auto. }
    rewrite Hs, combine_seq_snd, combine_seq_fst, nth_seq_all. exact Hl.
Qed.

End Ordered.

End EigSortFacts.

Section EigSortInstances.

(** Eigenvalues 2, 3, 1 with the unit vectors as eigenvectors: the pairs
    come out in the order 3, 2, 1, and the second indexing puts the values
    back in the order 2, 3, 1. *)
Lemma sort_eig_example :
  sort_eig Z.ltb Z.eqb [2; 3; 1]%Z [[1; 0; 0]; [0; 1; 0]; [0; 0; 1]]%Z
  = Ok {| eig_vals_desc := [3; 2; 1]%Z;
          eig_idxs_desc := [1; 0; 2]%nat;
          eig_vals_sorted := [2; 3; 1]%Z;
          eig_vecs_sorted := [[0; 1; 0]; [1; 0; 0]; [0; 0; 1]]%Z |}.
Proof. reflexivity. Qed.

Local Open Scope float_scope.

Local Notation "'unit_vectors'" :=
  ([[1; 0; 0]; [0; 1; 0]; [0; 0; 1]]%float).

Local Notation "'sorted_example'" :=
  {| eig_vals_desc := [3; 2; 1]%float;
     eig_idxs_desc := [1; 0; 2]%nat;
     eig_vals_sorted := [2; 3; 1]%float;
     eig_vecs_sorted := [[0; 1; 0]; [1; 0; 0]; [0; 0; 1]]%float |}.

(** The same on binary64 eigenvalues. *)
Lemma sort_eig_example_binary64 :
  sort_eig PrimFloat.ltb PrimFloat.eqb [2; 3; 1] unit_vectors
  = Ok sorted_example.
Proof. vm_compute. reflexivity. Qed.

(** The three doubles 2, 3, 1 are ordered by [<], and [==] tells them
    apart. *)
Ltac three_cases :=
  simpl In; intros;
  repeat match goal with
         | H : _ \/ _ |- _ => destruct H
         | H : False |- _ => destruct H
         end;
  subst.

Lemma three_eqb_eq (x y : float) :
  In x [2; 3; 1] -> In y [2; 3; 1] -> (PrimFloat.eqb x y = true <-> x = y).
Proof.
  three_cases; vm_compute; split; intros E;
    first [reflexivity | discriminate E].
Qed.

Lemma three_ltb_irrefl (x : float) :
  In x [2; 3; 1] -> PrimFloat.ltb x x = false.
Proof. three_cases; reflexivity. Qed.

Lemma three_ltb_trans (x y z : float) :
  In x [2; 3; 1] -> In y [2; 3; 1] -> In z [2; 3; 1] ->
  PrimFloat.ltb x y = true -> PrimFloat.ltb y z = true ->
  PrimFloat.ltb x z = true.
Proof.
  three_cases;
    first [ reflexivity
          | match goal with
            | E : PrimFloat.ltb _ _ = true |- _ =>
                vm_compute in E; discriminate E
            end ].
Qed.

Lemma three_ltb_total (x y : float) :
  In x [2; 3; 1] -> In y [2; 3; 1] ->
  x = y \/ PrimFloat.ltb x y = true \/ PrimFloat.ltb y x = true.
Proof.
  three_cases;
    first [ left; reflexivity
          | right; left; reflexivity
          | right; right; reflexivity ].
Qed.

Lemma three_values : [2; 3; 1] <> @nil float.
Proof. discriminate. Qed.

Lemma three_values_NoDup : NoDup [2; 3; 1].
Proof.
  repeat constructor; simpl; intuition discriminate.
Qed.

Lemma sort_eig_pairs_witness :
  [2; 3; 1] <> @nil float /\
  length unit_vectors = length [2; 3; 1] /\
  exists r,
    sort_eig PrimFloat.ltb PrimFloat.eqb [2; 3; 1] unit_vectors = Ok r /\
    descending PrimFloat.ltb (eig_vals_desc r) /\
    Permutation (combine (eig_vals_desc r) (eig_vecs_sorted r))
                (combine [2; 3; 1] unit_vectors).
Proof.
  split; [exact three_values|]. split; [reflexivity|].
  apply (sort_eig_pairs PrimFloat.ltb PrimFloat.eqb [2; 3; 1]
           three_eqb_eq three_ltb_irrefl three_ltb_trans three_ltb_total
           unit_vectors);
    [exact three_values | reflexivity].
Defined.

Lemma sort_eig_values_perm_witness :
  sort_eig PrimFloat.ltb PrimFloat.eqb [2; 3; 1] unit_vectors
  = Ok sorted_example /\
  Permutation [2; 3; 1] [2; 3; 1].
Proof.
  split; [exact sort_eig_example_binary64|].
  apply (sort_eig_values_perm PrimFloat.ltb PrimFloat.eqb [2; 3; 1]
           unit_vectors sorted_example).
  exact sort_eig_example_binary64.
Defined.

Lemma sort_eig_values_sorted_iff_witness :
  NoDup [2; 3; 1] /\
  sort_eig PrimFloat.ltb PrimFloat.eqb [2; 3; 1] unit_vectors
  = Ok sorted_example /\
  (descending PrimFloat.ltb [2; 3; 1] <-> descending PrimFloat.ltb [2; 3; 1]).
Proof.
  split; [exact three_values_NoDup|].
  split; [exact sort_eig_example_binary64|].
  apply (sort_eig_values_sorted_iff PrimFloat.ltb PrimFloat.eqb [2; 3; 1]
           three_eqb_eq three_ltb_irrefl three_ltb_trans three_ltb_total
           unit_vectors sorted_example);
    [exact three_values_NoDup | exact sort_eig_example_binary64].
Defined.

Lemma sort_eig_fails_iff_witness :
  length (@nil (list float)) = length (@nil float) /\
  (sort_eig PrimFloat.ltb PrimFloat.eqb (@nil float) (@nil (list float))
   = Fails UnpackError <->
   @nil float = [] /\ UnpackError = UnpackError).
Proof.
  split; [reflexivity|].
  apply (sort_eig_fails_iff PrimFloat.ltb PrimFloat.eqb (@nil float)
           (@nil (list float)) UnpackError).
  reflexivity.
Defined.

End EigSortInstances.

(** * The retained variance *)

Section RetainedExact.

Import Ideal.
Local Open Scope R_scope.

Lemma py_sum_fin (l : list R) : py_sum (map Fin l) = Fin (Rsum l).
Proof. apply np_sum_fin. Qed.

Lemma Rsum_firstn_le (k : nat) (l : list R) :
  (forall v, In v l -> 0 <= v) -> 0 <= Rsum (firstn k l) <= Rsum l.
Proof.
  revert k. induction l as [|x l IH]; intros k Hpos.
  - rewrite firstn_nil. simpl. lra.
  - assert (0 <= x) by (apply Hpos; now left).
    assert (Hl : forall v, In v l -> 0 <= v) by (intros; apply Hpos; now right).
    destruct k as [|k]; simpl.
    + pose proof (IH 0%nat Hl). simpl in *. lra.
    + pose proof (IH k Hl). lra.
Qed.

Lemma Rsum_firstn_mono (k k' : nat) (l : list R) :
  (forall v, In v l -> 0 <= v) -> (k <= k')%nat ->
  Rsum (firstn k l) <= Rsum (firstn k' l).
Proof.
  revert k k'. induction l as [|x l IH]; intros k k' Hpos Hk.
  - rewrite !firstn_nil. lra.
  - assert (Hl : forall v, In v l -> 0 <= v) by (intros; apply Hpos; now right).
    destruct k as [|k]; destruct k' as [|k']; simpl; try lia.
    + lra.
    + assert (0 <= x) by (apply Hpos; now left).
      pose proof (Rsum_firstn_le k' l Hl). lra.
    + pose proof (IH k k' Hl). assert (k <= k')%nat by lia. intuition lra.
Qed.

(** X21. For eigenvalues that are not negative and not all zero (those of a
    covariance matrix), the retained variance of the first [k] entries is a
    number between 0 and 1, it does not shrink when [k] grows, and it is 1
    once [k] reaches the number of entries. *)
Theorem retained_variance_range (k k' : nat) (vals : list R) :
  (forall v, In v vals -> 0 <= v) ->
  Rsum vals <> 0 ->
  (k <= k')%nat ->
  exists r r' : R,
    retained_variance k (map Fin vals) = Fin r /\
    retained_variance k' (map Fin vals) = Fin r' /\
    0 <= r /\ r <= r' /\ r' <= 1 /\
    ((length vals <= k')%nat -> r' = 1).
Proof.
  intros Hpos Hden Hk.
  exists (Rsum (firstn k vals) / Rsum vals),
         (Rsum (firstn k' vals) / Rsum vals).
  unfold retained_variance.
  rewrite !firstn_map, !py_sum_fin, !xdiv_fin by exact Hden.
  pose proof (Rsum_firstn_le k vals Hpos) as [H0 H1].
  pose proof (Rsum_firstn_le k' vals Hpos) as [H0' H1'].
  pose proof (Rsum_firstn_mono k k' vals Hpos Hk) as Hm.
  assert (Hs : 0 < Rsum vals) by lra.
  assert (Hi : 0 < / Rsum vals) by now apply Rinv_0_lt_compat.
  repeat split.
  - apply Rmult_le_pos; lra.
  - apply Rmult_le_compat_r; lra.
  - apply Rmult_le_reg_r with (Rsum vals); [exact Hs|].
    unfold Rdiv. rewrite Rmult_assoc, Rinv_l by exact Hden. lra.
  - intros Hlen. rewrite firstn_all2 by exact Hlen.
    unfold Rdiv. now apply Rinv_r.
Qed.

Lemma retained_variance_range_witness :
  (forall v, In v [3; 2; 1] -> 0 <= v) /\
  Rsum [3; 2; 1] <> 0 /\
  (1 <= 3)%nat /\
  exists r r' : R,
    retained_variance 1 (map Fin [3; 2; 1]) = Fin r /\
    retained_variance 3 (map Fin [3; 2; 1]) = Fin r' /\
    0 <= r /\ r <= r' /\ r' <= 1 /\
    ((length [3; 2; 1] <= 3)%nat -> r' = 1).
Proof.
  assert (Hpos : forall v, In v [3; 2; 1] -> 0 <= v)
    by (intros v [<-|[<-|[<-|[]]]]; lra).
  assert (Hden : Rsum [3; 2; 1] <> 0) by (simpl; lra).
  split; [exact Hpos|]. split; [exact Hden|]. split; [lia|].
  apply (retained_variance_range 1 3 [3; 2; 1]); [exact Hpos | exact Hden | lia].
Defined.

End RetainedExact.

(** * The min-max pre-processing: [preprocess] *)

Section PreprocessShape.

Context {A : Type} `{Scalar A} `{Extrema A}.

(** X24. An array without entries cannot be pre-processed: the minimum of
    nothing is a ValueError. *)
Theorem preprocess_empty (X_orig : list (list A)) :
  concat X_orig = [] -> preprocess X_orig = Raise ValueError.
Proof.
  intros E. unfold preprocess, np_max, np_min.
  destruct X_orig as [|r rest]; [reflexivity|].
  cbn [np_min_axis0 bind]. rewrite E. reflexivity.
Qed.

End PreprocessShape.

Section PreprocessExact.

Import Ideal.
Local Open Scope R_scope.

Lemma fold_fmin_fin (l : list R) (x : R) :
  fold_left fmin (map Fin l) (Fin x) = Fin (fold_left Rmin l x).
Proof.
  revert x; induction l as [|y l IH]; intros x; simpl; [reflexivity|].
  apply IH.
Qed.

Lemma fold_fmax_fin (l : list R) (x : R) :
  fold_left fmax (map Fin l) (Fin x) = Fin (fold_left Rmax l x).
Proof.
  revert x; induction l as [|y l IH]; intros x; simpl; [reflexivity|].
  apply IH.
Qed.

Lemma map2_fmin_fin (u v : list R) :
  map2 fmin (map Fin u) (map Fin v) = map Fin (map2 Rmin u v).
Proof.
  revert v; induction u as [|a u IH]; intros [|b v]; simpl; auto.
  now rewrite IH.
Qed.

Lemma fold_map2_fmin_fin (rest : list (list R)) (r : list R) :
  fold_left (map2 fmin) (map (map Fin) rest) (map Fin r)
  = map Fin (fold_left (map2 Rmin) rest r).
Proof.
  revert r; induction rest as [|u rest IH]; intros r; simpl; [reflexivity|].
  rewrite map2_fmin_fin. apply IH.
Qed.

Lemma fold_Rmin_le (l : list R) (x : R) :
  fold_left Rmin l x <= x /\ Forall (fun y => fold_left Rmin l x <= y) l.
Proof.
  revert x; induction l as [|y l IH]; intros x; simpl.
  - split; [lra | constructor].
  - destruct (IH (Rmin x y)) as [H1 H2].
    pose proof (Rmin_l x y). pose proof (Rmin_r x y).
    split; [lra|]. constructor; [lra | exact H2].
Qed.

Lemma fold_Rmax_ge (l : list R) (x : R) :
  x <= fold_left Rmax l x /\ Forall (fun y => y <= fold_left Rmax l x) l.
Proof.
  revert x; induction l as [|y l IH]; intros x; simpl.
  - split; [lra | constructor].
  - destruct (IH (Rmax x y)) as [H1 H2].
    pose proof (Rmax_l x y). pose proof (Rmax_r x y).
    split; [lra|]. constructor; [lra | exact H2].
Qed.

(** The column minima lie under every row and over any lower bound of the
    entries. *)
Lemma map2_Rmin_bounds (g : R) (u v : list R) :
  length u = length v ->
  Forall (Rle g) u -> Forall (Rle g) v ->
  length (map2 Rmin u v) = length u /\
  Forall (Rle g) (map2 Rmin u v) /\
  Forall2 Rle (map2 Rmin u v) u /\ Forall2 Rle (map2 Rmin u v) v.
Proof.
  revert v; induction u as [|a u IH]; intros [|b v] E Hu Hv;
    try discriminate; simpl.
  - repeat split; constructor.
  - inversion Hu; inversion Hv; subst. injection E as E.
    destruct (IH v E) as (L & G & U & V'); auto.
    pose proof (Rmin_l a b). pose proof (Rmin_r a b).
    repeat split; [now rewrite L | | |]; constructor; auto.
    unfold Rmin. destruct (Rle_dec a b); assumption.
Qed.

Lemma Forall2_Rle_trans (a b c : list R) :
  Forall2 Rle a b -> Forall2 Rle b c -> Forall2 Rle a c.
Proof.
  intros Hab. revert c. induction Hab as [|x y a b Hxy Hab IH]; intros c Hbc;
    inversion Hbc; subst; constructor; [lra | now apply IH].
Qed.

Lemma col_mins_bounds (g : R) (D : nat) (rest : list (list R)) (r : list R) :
  Forall (fun u => length u = D /\ Forall (Rle g) u) (r :: rest) ->
  length (fold_left (map2 Rmin) rest r) = D /\
  Forall (Rle g) (fold_left (map2 Rmin) rest r) /\
  Forall (Forall2 Rle (fold_left (map2 Rmin) rest r)) (r :: rest).
Proof.
  revert r. induction rest as [|u rest IH]; intros r Hall.
  - inversion Hall as [|? ? [L G] _]; subst. simpl.
    repeat split; auto. constructor; [|constructor].
    clear. induction r; constructor; [lra | assumption].
  - inversion Hall as [|? ? [Lr Gr] Hrest]; subst.
    inversion Hrest as [|? ? [Lu Gu] Hrest']; subst.
    destruct (map2_Rmin_bounds g r u) as (L & G & U & V'); auto; try congruence.
    simpl.
    destruct (IH (map2 Rmin r u)) as (L' & G' & F').
    { constructor; [split; [congruence | exact G] | exact Hrest']. }
    split; [exact L'|]. split; [exact G'|].
    inversion F' as [|? ? Fm Frest]; subst.
    constructor; [now apply Forall2_Rle_trans with (map2 Rmin r u)|].
    constructor; [now apply Forall2_Rle_trans with (map2 Rmin r u)|].
    exact Frest.
Qed.

Lemma shifted_bounds (lo hi : R) (row cm : list R) :
  Forall2 Rle cm row -> Forall (Rle lo) cm -> Forall (fun x => x <= hi) row ->
  length (map2 Rminus row cm) = length row /\
  Forall (fun d => 0 <= d <= hi - lo) (map2 Rminus row cm).
Proof.
  induction 1 as [|c x cm row Hcx HF IH]; intros Hlo Hhi; simpl.
  - split; [reflexivity | constructor].
  - inversion Hlo; inversion Hhi; subst.
    destruct IH as [L F]; auto.
    split; [now rewrite L|]. constructor; [lra | exact F].
Qed.

Lemma map_fdiv_fin (s : R) (d : list R) :
  s <> 0 ->
  map (fun x => fdiv x (Fin s)) (map Fin d) = map Fin (map (fun x => x / s) d).
Proof.
  intros Hs. rewrite !map_map. apply map_ext. intros x. now apply xdiv_fin.
Qed.

Lemma np_min_axis0_fin (r : list R) (rest : list (list R)) :
  np_min_axis0 (inj (r :: rest))
  = Return (map Fin (fold_left (map2 Rmin) rest r)).
Proof.
  unfold inj. cbn [map np_min_axis0]. now rewrite fold_map2_fmin_fin.
Qed.

Lemma np_max_fin (X : list (list R)) (c0 : R) (cl : list R) :
  concat X = c0 :: cl ->
  np_max (inj X) = Return (Fin (fold_left Rmax cl c0)).
Proof.
  intros E. unfold np_max, inj. rewrite <- concat_map, E.
  cbn [map reduce]. now rewrite fold_fmax_fin.
Qed.

Lemma np_min_fin (X : list (list R)) (c0 : R) (cl : list R) :
  concat X = c0 :: cl ->
  np_min (inj X) = Return (Fin (fold_left Rmin cl c0)).
Proof.
  intros E. unfold np_min, inj. rewrite <- concat_map, E.
  cbn [map reduce]. now rewrite fold_fmin_fin.
Qed.

(** X22. Pre-processing brings the data into the unit interval.  For an array of
    at least one row and one column whose entries are finite and not all
    equal, the result has the shape of the input and every entry lies
    between 0 and 1. *)
Theorem preprocess_range (D : nat) (X_orig : list (list R)) :
  X_orig <> [] ->
  (0 < D)%nat ->
  Forall (fun u => length u = D) X_orig ->
  (exists a b, In a (concat X_orig) /\ In b (concat X_orig) /\ a <> b) ->
  exists X : list (list R),
    preprocess (inj X_orig) = Return (inj X) /\
    length X = length X_orig /\
    Forall (fun u => length u = D /\ Forall (fun x => 0 <= x <= 1) u) X.
Proof.
  intros Hne HD Hrect (a & b & Ha & Hb & Hab).
  destruct X_orig as [|r rest]; [contradiction|].
  remember (concat (r :: rest)) as entries eqn:Hentries.
  destruct entries as [|c0 cl]; [contradiction|].
  set (lo := fold_left Rmin cl c0).
  set (hi := fold_left Rmax cl c0).
  set (cm := fold_left (map2 Rmin) rest r).
  assert (Hlo : forall x, In x (c0 :: cl) -> lo <= x).
  { destruct (fold_Rmin_le cl c0) as [H0 Hl]. rewrite Forall_forall in Hl.
    intros x [<-|Hx]; [exact H0 | now apply Hl]. }
  assert (Hhi : forall x, In x (c0 :: cl) -> x <= hi).
  { destruct (fold_Rmax_ge cl c0) as [H0 Hl]. rewrite Forall_forall in Hl.
    intros x [<-|Hx]; [exact H0 | now apply Hl]. }
  assert (Hs : 0 < hi - lo).
  { pose proof (Hlo a Ha). pose proof (Hlo b Hb).
    pose proof (Hhi a Ha). pose proof (Hhi b Hb). lra. }
  assert (Hrows : forall u, In u (r :: rest) ->
            forall x, In x u -> lo <= x <= hi).
  { intros u Hu x Hx.
    assert (In x (c0 :: cl))
      by (rewrite Hentries; apply in_concat; eauto).
    split; [now apply Hlo | now apply Hhi]. }
  destruct (col_mins_bounds lo D rest r) as (Lcm & Gcm & Fcm).
  { rewrite Forall_forall in *. intros u Hu. split; [now apply Hrect|].
    apply Forall_forall. intros x Hx. now apply (Hrows u Hu x Hx). }
  fold cm in Lcm, Gcm, Fcm.
  exists (map (fun row => map (fun x => x / (hi - lo)) (map2 Rminus row cm))
              (r :: rest)).
  split; [|split].
  - unfold preprocess.
    rewrite np_min_axis0_fin,
      (np_max_fin _ c0 cl (eq_sym Hentries)),
      (np_min_fin _ c0 cl (eq_sym Hentries)).
    cbn [bind]. fold lo hi cm. f_equal.
    change (fsub (Fin hi) (Fin lo)) with (Fin (hi - lo)).
    unfold inj. rewrite !map_map. apply map_ext. intros row.
    rewrite map2_fsub_fin. apply map_fdiv_fin. lra.
  - apply length_map.
  - apply Forall_forall. intros u Hu. apply in_map_iff in Hu.
    destruct Hu as (row & <- & Hrow).
    rewrite Forall_forall in Fcm, Hrect.
    destruct (shifted_bounds lo hi row cm) as [L F].
    + now apply Fcm.
    + exact Gcm.
    + apply Forall_forall. intros x Hx. now apply (Hrows row Hrow x Hx).
    + split; [rewrite length_map, L; now apply Hrect|].
      apply Forall_forall. intros y Hy. apply in_map_iff in Hy.
      destruct Hy as (d & <- & Hd).
      rewrite Forall_forall in F. specialize (F d Hd).
      split.
      * apply Rmult_le_pos; [lra | left; now apply Rinv_0_lt_compat].
      * apply Rmult_le_reg_r with (hi - lo); [exact Hs|].
        unfold Rdiv. rewrite Rmult_assoc, Rinv_l by lra. lra.
Qed.

Lemma fold_Rmin_ge (g : R) (l : list R) (x : R) :
  g <= x -> Forall (Rle g) l -> g <= fold_left Rmin l x.
Proof.
  revert x; induction l as [|y l IH]; intros x Hx Hl; simpl; [exact Hx|].
  inversion Hl; subst. apply IH; [|assumption].
  unfold Rmin. destruct (Rle_dec x y); assumption.
Qed.

Lemma fold_Rmax_le (g : R) (l : list R) (x : R) :
  x <= g -> Forall (fun y => y <= g) l -> fold_left Rmax l x <= g.
Proof.
  revert x; induction l as [|y l IH]; intros x Hx Hl; simpl; [exact Hx|].
  inversion Hl; subst. apply IH; [|assumption].
  unfold Rmax. destruct (Rle_dec x y); assumption.
Qed.

Lemma shifted_constant (c : R) (row cm : list R) :
  Forall2 Rle cm row -> Forall (Rle c) cm -> Forall (fun x => x = c) row ->
  map (fun x => fdiv x (Fin 0)) (map Fin (map2 Rminus row cm))
  = map (fun _ => NaN) row.
Proof.
  induction 1 as [|m x cm row Hmx HF IH]; intros Hc Hrow; [reflexivity|].
  inversion Hc; inversion Hrow; subst.
  cbn [map2 map]. rewrite IH by assumption. f_equal.
  replace (c - m) with 0 by lra.
  simpl. destruct (Req_dec_T 0 0) as [_|N]; [|contradiction].
  unfold by_sign. destruct (total_order_T 0 0) as [[L|E]|G];
    [lra | reflexivity | lra].
Qed.

(** X23. An array whose entries are all the same has no spread: every entry of
    the result is zero over zero, NaN, and nothing is raised. *)
Theorem preprocess_constant (c : R) (D : nat) (X_orig : list (list R)) :
  X_orig <> [] ->
  (0 < D)%nat ->
  Forall (fun u => length u = D /\ Forall (fun x => x = c) u) X_orig ->
  preprocess (inj X_orig) = Return (map (map (fun _ => NaN)) X_orig).
Proof.
  intros Hne HD Hall.
  destruct X_orig as [|r rest]; [contradiction|].
  assert (Hentry : forall x, In x (concat (r :: rest)) -> x = c).
  { intros x Hx. apply in_concat in Hx. destruct Hx as (u & Hu & Hx).
    rewrite Forall_forall in Hall. destruct (Hall u Hu) as [_ Hc].
    rewrite Forall_forall in Hc. now apply Hc. }
  remember (concat (r :: rest)) as entries eqn:Hentries.
  destruct entries as [|c0 cl].
  { exfalso. inversion Hall as [|? ? [Lr _] _]; subst.
    destruct r; [simpl in HD; lia | discriminate]. }
  assert (Hlo : fold_left Rmin cl c0 = c).
  { apply Rle_antisym.
    - destruct (fold_Rmin_le cl c0) as [H0 _].
      rewrite (Hentry c0) in H0 at 2 by now left. exact H0.
    - apply fold_Rmin_ge.
      + rewrite (Hentry c0) by now left. lra.
      + apply Forall_forall. intros x Hx.
        rewrite (Hentry x) by now right. lra. }
  assert (Hhi : fold_left Rmax cl c0 = c).
  { apply Rle_antisym.
    - apply fold_Rmax_le.
      + rewrite (Hentry c0) by now left. lra.
      + apply Forall_forall. intros x Hx.
        rewrite (Hentry x) by now right. lra.
    - destruct (fold_Rmax_ge cl c0) as [H0 _].
      rewrite (Hentry c0) in H0 at 1 by now left. exact H0. }
  destruct (col_mins_bounds c D rest r) as (Lcm & Gcm & Fcm).
  { rewrite Forall_forall in *. intros u Hu.
    destruct (Hall u Hu) as [L Hc]. split; [exact L|].
    apply Forall_forall. intros x Hx. rewrite Forall_forall in Hc.
    rewrite (Hc x Hx). lra. }
  unfold preprocess.
  rewrite np_min_axis0_fin,
    (np_max_fin _ c0 cl (eq_sym Hentries)),
    (np_min_fin _ c0 cl (eq_sym Hentries)).
  cbn [bind]. rewrite Hlo, Hhi. f_equal.
  change (fsub (Fin c) (Fin c)) with (Fin (c - c)).
  replace (c - c) with 0 by lra.
  unfold inj. rewrite !map_map. apply map_ext_in. intros row Hrow.
  rewrite map2_fsub_fin.
  rewrite Forall_forall in Fcm, Hall.
  apply (shifted_constant c); [now apply Fcm | exact Gcm |].
  now destruct (Hall row Hrow).
Qed.

(** *** Instances *)

Lemma unit_square_rect : Forall (fun u : list R => length u = 2%nat) [[0; 1]; [1; 1]].
Proof. repeat constructor. Qed.

Lemma unit_square_spread :
  exists a b, In a (concat [[0; 1]; [1; 1]]) /\
              In b (concat [[0; 1]; [1; 1]]) /\ a <> b.
Proof.
  exists 0, 1. simpl. split; [now left|]. split; [right; now left | lra].
Qed.

Lemma unit_square_nonempty : [[0; 1]; [1; 1]] <> @nil (list R).
Proof. discriminate. Qed.

Lemma preprocess_range_witness :
  [[0; 1]; [1; 1]] <> @nil (list R) /\
  (0 < 2)%nat /\
  Forall (fun u : list R => length u = 2%nat) [[0; 1]; [1; 1]] /\
  (exists a b, In a (concat [[0; 1]; [1; 1]]) /\
               In b (concat [[0; 1]; [1; 1]]) /\ a <> b) /\
  exists X : list (list R),
    preprocess (inj [[0; 1]; [1; 1]]) = Return (inj X) /\
    length X = length [[0; 1]; [1; 1]] /\
    Forall (fun u => length u = 2%nat /\ Forall (fun x => 0 <= x <= 1) u) X.
Proof.
  split; [exact unit_square_nonempty|]. split; [lia|].
  split; [exact unit_square_rect|]. split; [exact unit_square_spread|].
  apply (preprocess_range 2 [[0; 1]; [1; 1]]);
    [exact unit_square_nonempty | lia | exact unit_square_rect
     | exact unit_square_spread].
Defined.

Lemma ones_constant :
  Forall (fun u : list R => length u = 2%nat /\ Forall (fun x => x = 1) u)
         [[1; 1]; [1; 1]].
Proof. repeat constructor. Qed.

Lemma ones_nonempty : [[1; 1]; [1; 1]] <> @nil (list R).
Proof. discriminate. Qed.

Lemma preprocess_constant_witness :
  [[1; 1]; [1; 1]] <> @nil (list R) /\
  (0 < 2)%nat /\
  Forall (fun u : list R => length u = 2%nat /\ Forall (fun x => x = 1) u)
         [[1; 1]; [1; 1]] /\
  preprocess (inj [[1; 1]; [1; 1]])
  = Return (map (map (fun _ => NaN)) [[1; 1]; [1; 1]]).
Proof.
  split; [exact ones_nonempty|]. split; [lia|]. split; [exact ones_constant|].
  apply (preprocess_constant 1 2 [[1; 1]; [1; 1]]);
    [exact ones_nonempty | lia | exact ones_constant].
Defined.

End PreprocessExact.

Section PreprocessDoubles.

Import Binary64.
Local Open Scope float_scope.

Lemma preprocess_binary64 :
  preprocess [[0; 16]; [8; 4]] = Return [[0; 0.75]; [0.5; 0]].
Proof. vm_compute. reflexivity. Qed.

Lemma preprocess_empty_witness :
  concat [[]; []] = @nil float /\
  preprocess [[]; []] = @Raise (list (list float)) ValueError.
Proof.
  split; [reflexivity|].
  apply (preprocess_empty [[]; []]). reflexivity.
Defined.

End PreprocessDoubles.

(** * Showing a digit: [show_image] *)

Section ShowImageFacts.

Context {A : Type}.

Lemma chunks_length (cols rows : nat) (a : list A) :
  length (chunks cols rows a) = rows.
Proof.
  revert a; induction rows as [|rows IH]; intros a; simpl; [reflexivity|].
  now rewrite IH.
Qed.

Lemma chunks_concat (cols rows : nat) (a : list A) :
  length a = rows * cols -> concat (chunks cols rows a) = a.
Proof.
  revert a; induction rows as [|rows IH]; intros a Ha; simpl.
  - destruct a; [reflexivity | discriminate].
  - rewrite IH by (rewrite length_skipn; simpl in Ha; lia).
    apply firstn_skipn.
Qed.

Lemma chunks_rows (cols rows : nat) (a : list A) :
  length a = rows * cols ->
  Forall (fun r => length r = cols) (chunks cols rows a).
Proof.
  revert a; induction rows as [|rows IH]; intros a Ha; simpl; constructor.
  - rewrite length_firstn. simpl in Ha. lia.
  - apply IH. rewrite length_skipn. simpl in Ha. lia.
Qed.

Lemma chunks_nth (cols rows : nat) (a : list A) (d : A) (r c : nat) :
  r < rows -> c < cols ->
  nth c (nth r (chunks cols rows a) []) d = nth (r * cols + c) a d.
Proof.
  revert a r; induction rows as [|rows IH]; intros a r Hr Hc; [lia|].
  destruct r as [|r]; simpl.
  - rewrite nth_firstn. apply Nat.ltb_lt in Hc. now rewrite Hc.
  - rewrite IH by lia. rewrite nth_skipn. f_equal. lia.
Qed.

Lemma reshape_ok (rows cols : nat) (a : list A) (img : list (list A)) :
  reshape rows cols a = Ok img ->
  length a = rows * cols /\ img = chunks cols rows a.
Proof.
  unfold reshape. destruct (Nat.eqb_spec (length a) (rows * cols)) as [E|E];
    [|discriminate].
  intros H. split; [exact E | congruence].
Qed.

Lemma reshape_fails (rows cols : nat) (a : list A) (f : failure) :
  reshape rows cols a = Fails f <->
  f = ShapeError /\ length a <> rows * cols.
Proof.
  unfold reshape. destruct (Nat.eqb_spec (length a) (rows * cols)) as [E|E].
  - split; [discriminate | intros [_ N]; contradiction].
  - split; [intros H; split; [congruence | exact E] | now intros [-> _]].
Qed.

(** The row that the index [n] addresses, when it addresses one. *)
Lemma fits_intp_spec (n : Z) :
  fits_intp n = true <-> (- 2 ^ 63 <= n < 2 ^ 63)%Z.
Proof.
  unfold fits_intp. rewrite andb_true_iff, Z.leb_le, Z.ltb_lt. tauto.
Qed.

Lemma py_index_overflow (B : Type) (a : list B) (n : Z) :
  fits_intp n = false -> py_index a n = Fails IndexOverflow.
Proof. intros E. unfold py_index. now rewrite E. Qed.

Lemma py_index_ok (B : Type) (a : list B) (d : B) (n : Z) :
  fits_intp n = true ->
  (- Z.of_nat (length a) <= n < Z.of_nat (length a))%Z ->
  py_index a n = Ok (nth (Z.to_nat (n mod Z.of_nat (length a))) a d).
Proof.
  intros Hfit Hn. unfold py_index. cbv zeta. rewrite Hfit. cbn [negb].
  destruct (Z.ltb_spec n (- Z.of_nat (length a))); [lia|].
  destruct (Z.leb_spec (Z.of_nat (length a)) n); [lia|].
  cbn [orb].
  assert (E : (if (n <? 0)%Z then (n + Z.of_nat (length a))%Z else n)
              = (n mod Z.of_nat (length a))%Z).
  { destruct (Z.ltb_spec n 0).
    - apply Z.mod_unique with (-1)%Z; lia.
    - symmetry. apply Z.mod_small. lia. }
  rewrite E.
  assert (Hlt : Z.to_nat (n mod Z.of_nat (length a)) < length a).
  { pose proof (Z.mod_pos_bound n (Z.of_nat (length a))). lia. }
  now rewrite (nth_error_nth' a d Hlt).
Qed.

Lemma py_index_fails (B : Type) (a : list B) (n : Z) (f : failure) :
  fits_intp n = true ->
  (py_index a n = Fails f <->
   f = IndexError /\
   (n < - Z.of_nat (length a) \/ Z.of_nat (length a) <= n)%Z).
Proof.
  intros Hfit.
  destruct (Z_lt_ge_dec n (- Z.of_nat (length a))) as [L|G].
  - unfold py_index. cbv zeta. rewrite Hfit. cbn [negb].
    destruct (Z.ltb_spec n (- Z.of_nat (length a))); [|lia]. cbn [orb].
    split; [intros E; injection E as <-; split; [reflexivity | now left]|].
    now intros [-> _].
  - destruct (Z_lt_ge_dec n (Z.of_nat (length a))) as [L'|G'].
    + destruct a as [|x a]; [simpl in *; lia|].
      rewrite (py_index_ok _ (x :: a) x n) by (auto; lia).
      split; [discriminate | intros [_ [H|H]]; lia].
    + unfold py_index. cbv zeta. rewrite Hfit. cbn [negb].
      destruct (Z.leb_spec (Z.of_nat (length a)) n); [|lia].
      rewrite orb_true_r.
      split; [intros E; injection E as <-; split; [reflexivity | now right]|].
      now intros [-> _].
Qed.

(** X25. When [show_image] draws, [n] addresses a row, from the front or
    (negative) from the back, and that row has 64 entries.  The image has
    8 rows of 8 pixels, the row of the data read line by line: pixel
    (r, c) is entry 8 r + c. *)
Theorem show_image_layout (digit_data : list (list A)) (n : Z)
        (img : list (list A)) (d : A) :
  show_image digit_data n = Ok img ->
  let N := Z.of_nat (length digit_data) in
  let row := nth (Z.to_nat (n mod N)) digit_data [] in
  (- N <= n < N)%Z /\
  length row = 64 /\
  length img = 8 /\
  Forall (fun r => length r = 8) img /\
  concat img = row /\
  forall r c, r < 8 -> c < 8 -> nth c (nth r img []) d = nth (8 * r + c) row d.
Proof.
  intros Himg N row. unfold show_image in Himg.
  destruct (py_index digit_data n) as [row'|f] eqn:Ei; [|discriminate].
  assert (Hfit : fits_intp n = true).
  { destruct (fits_intp n) eqn:Ef; [reflexivity|].
    rewrite (py_index_overflow _ digit_data n Ef) in Ei. discriminate. }
  assert (Hn : (- N <= n < N)%Z).
  { destruct (Z_lt_ge_dec n (- N)) as [L|G];
      [|destruct (Z_lt_ge_dec n N) as [L'|G']; [lia|]].
    - assert (py_index digit_data n = Fails IndexError)
        by (apply py_index_fails; [exact Hfit|];
            split; [reflexivity | now left]).
      congruence.
    - assert (py_index digit_data n = Fails IndexError)
        by (apply py_index_fails; [exact Hfit|];
            split; [reflexivity | right; unfold N in *; lia]).
      congruence. }
  rewrite (py_index_ok _ digit_data [] n Hfit Hn) in Ei. injection Ei as <-.
  fold N row in Himg.
  destruct (reshape 8 8 row) as [img'|f] eqn:Er; [|discriminate].
  assert (Ei : img' = img) by congruence. subst img'.
  apply reshape_ok in Er. destruct Er as [E ->].
  split; [exact Hn|]. split; [exact E|].
  split; [apply (chunks_length 8 8)|].
  split; [now apply (chunks_rows 8 8)|].
  split; [now apply (chunks_concat 8 8)|].
  intros r c Hr Hc. rewrite (chunks_nth 8 8) by assumption. f_equal. lia.
Qed.

(** X26. For an index that fits numpy's 64-bit index type, the two ways
    [show_image] fails: an IndexError for an index outside [-N, N), and a
    reshape error for an addressed row that does not have 64 entries. *)
Theorem show_image_fails_iff (digit_data : list (list A)) (n : Z)
        (f : failure) :
  (- 2 ^ 63 <= n < 2 ^ 63)%Z ->
  let N := Z.of_nat (length digit_data) in
  show_image digit_data n = Fails f <->
  (f = IndexError /\ (n < - N \/ N <= n)%Z) \/
  (f = ShapeError /\ (- N <= n < N)%Z /\
   length (nth (Z.to_nat (n mod N)) digit_data []) <> 64).
Proof.
  intros Hfit N. apply fits_intp_spec in Hfit. unfold show_image.
  destruct (Z_lt_ge_dec n (- N)) as [L|G];
    [|destruct (Z_lt_ge_dec n N) as [L'|G']].
  - assert (Ei : py_index digit_data n = Fails IndexError)
      by (apply py_index_fails; [exact Hfit|];
          split; [reflexivity | now left]).
    rewrite Ei. split.
    + intros E. injection E as <-. left. split; [reflexivity | now left].
    + intros [[-> _]|(_ & H & _)]; [reflexivity | lia].
  - rewrite (py_index_ok _ digit_data [] n) by (auto; fold N; lia). fold N.
    destruct (reshape 8 8 (nth (Z.to_nat (n mod N)) digit_data []))
      as [img|f'] eqn:Er.
    + apply reshape_ok in Er. destruct Er as [E _].
      split; [discriminate|].
      intros [[_ [H|H]]|(_ & _ & H)]; [lia | lia | contradiction].
    + apply reshape_fails in Er. destruct Er as [-> E].
      split.
      * intros E'. injection E' as <-. right. repeat split; auto; lia.
      * intros [[_ [H|H]]|(-> & _ & _)]; [lia | lia | reflexivity].
  - assert (Ei : py_index digit_data n = Fails IndexError)
      by (apply py_index_fails; [exact Hfit|];
          split; [reflexivity | right; fold N; lia]).
    rewrite Ei. split.
    + intros E. injection E as <-. left. split; [reflexivity | right; lia].
    + intros [[-> _]|(_ & H & _)]; [reflexivity | lia].
Qed.

End ShowImageFacts.

Section ShowImageInstances.

(** One row of 64 distinct pixels, addressed from the back. *)
Lemma show_image_example :
  show_image [seq 0 64] (-1) = Ok (chunks 8 8 (seq 0 64)).
Proof. reflexivity. Qed.

Lemma show_image_layout_witness :
  show_image [seq 0 64] (-1) = Ok (chunks 8 8 (seq 0 64)) /\
  (let N := Z.of_nat (length [seq 0 64]) in
   let row := nth (Z.to_nat (-1 mod N)) [seq 0 64] [] in
   (- N <= -1 < N)%Z /\
   length row = 64 /\
   length (chunks 8 8 (seq 0 64)) = 8 /\
   Forall (fun r => length r = 8) (chunks 8 8 (seq 0 64)) /\
   concat (chunks 8 8 (seq 0 64)) = row /\
   forall r c, r < 8 -> c < 8 ->
     nth c (nth r (chunks 8 8 (seq 0 64)) []) 0 = nth (8 * r + c) row 0).
Proof.
  split; [exact show_image_example|].
  apply (show_image_layout [seq 0 64] (-1) (chunks 8 8 (seq 0 64)) 0).
  exact show_image_example.
Defined.

(** An index past the only row, and a row of 63 pixels. *)
Lemma show_image_fails_iff_witness :
  (- 2 ^ 63 <= 1 < 2 ^ 63)%Z /\
  (let N := Z.of_nat (length [seq 0 64]) in
   show_image [seq 0 64] 1 = Fails IndexError <->
   (IndexError = IndexError /\ (1 < - N \/ N <= 1)%Z) \/
   (IndexError = ShapeError /\ (- N <= 1 < N)%Z /\
    length (nth (Z.to_nat (1 mod N)) [seq 0 64] []) <> 64)).
Proof.
  split; [lia|].
  apply (show_image_fails_iff [seq 0 64] 1 IndexError). lia.
Defined.

Lemma show_image_short_row :
  show_image [seq 0 63] 0 = Fails ShapeError.
Proof. reflexivity. Qed.

(** An index of 2 ^ 63 never reaches the array. *)
Lemma show_image_overflow :
  show_image [seq 0 64] (2 ^ 63) = Fails IndexOverflow.
Proof. reflexivity. Qed.

End ShowImageInstances.
